(** * zeus-med-app: schedule calculator and alert runner

    A shallow embedding of the scheduling logic of the pet-care reminder
    application:

    - [ES]        the time functions of the JavaScript [Date] object, as the
                  ECMAScript specification defines them (Day, YearFromTime,
                  MonthFromTime, DateFromTime, WeekDay, MakeDay, MakeDate);
    - [DateFns]   the three date-fns functions the code imports
                  ([addDays], [addMonths], [differenceInCalendarDays]);
    - [Schedule]  the schedule module of the web application
                  (addInterval, adjustWeekend, calcNextDate, daysToNext,
                  statusFromDays);
    - [DateObject] the [Date] object: a time value in UTC or NaN, the time
                  zone of the runtime (LocalTime, UTC), TimeClip, and the
                  getters and setters over them;
    - [DateFnsObject], [ScheduleObject] date-fns and the schedule module on
                  [Date] objects;
    - [Store]     the hosted relational store and the messaging channel, as a
                  state-and-exception monad over the alert log, the outbox and
                  the scripted faults of the collaborators; [new Date] of a
                  date string;
    - [SendAlerts] the script scripts/send-alerts.js (single pet, insert-first
                  claim);
    - [ZeusAlerts] the second alert script (all owner pets, query, send, then
                  insert);
    - [DateFnsCalendar] the date-fns functions of the calendar of the agenda
                  page ([startOfMonth], [endOfMonth], [startOfWeek],
                  [endOfWeek], [isSameMonth], [isSameDay]);
    - [Agenda]    the agenda page: the items the loader builds, the three
                  lists, the events by day with their order by name, and the
                  grid of the month.

    Dates are modelled at two levels.  [ES.Date] is a local time value in
    milliseconds since the epoch: the calendar arithmetic of the getters and
    setters is stated on it, and it is the whole of a [Date] in a zone with a
    fixed offset and within the range of time values.  [DateObject.DateValue]
    is the time value of a [Date] object in UTC, or NaN for the invalid date:
    its setters go through LocalTime, UTC and TimeClip for a time zone that
    need not keep one offset.  The alert scripts run on [Date] objects; an
    invalid next date makes one of them skip the treatment and the other
    throw.  Numbers are integers ([Z]), with NaN apart. *)

From Stdlib Require Import ZArith Lia List Bool String Ascii.
From Stdlib Require Import DecimalString.
From Stdlib Require Import Permutation Sorted.
Import ListNotations.
Local Open Scope Z_scope.

(** [lia] with integer division and remainder by constants. *)
Ltac Zify.zify_post_hook ::= Z.to_euclidean_division_equations.

(* ================================================================== *)
(** ** ECMAScript time functions *)

Module ES.

Definition Date := Z.

Definition msPerDay : Z := 86400000.

Definition Day (t : Date) : Z := t / msPerDay.
Definition TimeWithinDay (t : Date) : Z := t mod msPerDay.

Definition isLeapYear (y : Z) : bool :=
  if negb (y mod 4 =? 0) then false
  else if negb (y mod 100 =? 0) then true
  else if negb (y mod 400 =? 0) then false
  else true.

Definition DaysInYear (y : Z) : Z := if isLeapYear y then 366 else 365.

Definition DayFromYear (y : Z) : Z :=
  365 * (y - 1970) + (y - 1969) / 4 - (y - 1901) / 100 + (y - 1601) / 400.

(** The largest year [y] with [DayFromYear y <= d]: a first estimate from the
    mean length of the Gregorian year, off by at most one, then corrected. *)
Definition YearFromDay (d : Z) : Z :=
  let y := 1970 + (400 * d) / 146097 in
  if d <? DayFromYear y then y - 1
  else if DayFromYear (y + 1) <=? d then y + 1
  else y.

Definition YearFromTime (t : Date) : Z := YearFromDay (Day t).

Definition InLeapYear (t : Date) : Z :=
  if isLeapYear (YearFromTime t) then 1 else 0.

Definition DayWithinYear (t : Date) : Z :=
  Day t - DayFromYear (YearFromTime t).

(** Day number, within the year, of the first day of month [m] (0 = January). *)
Definition monthStart (m leap : Z) : Z :=
  match m with
  | 0 => 0
  | 1 => 31
  | 2 => 59 + leap
  | 3 => 90 + leap
  | 4 => 120 + leap
  | 5 => 151 + leap
  | 6 => 181 + leap
  | 7 => 212 + leap
  | 8 => 243 + leap
  | 9 => 273 + leap
  | 10 => 304 + leap
  | _ => 334 + leap
  end.

Definition monthOfDay (dwy leap : Z) : Z :=
  if dwy <? 31 then 0
  else if dwy <? 59 + leap then 1
  else if dwy <? 90 + leap then 2
  else if dwy <? 120 + leap then 3
  else if dwy <? 151 + leap then 4
  else if dwy <? 181 + leap then 5
  else if dwy <? 212 + leap then 6
  else if dwy <? 243 + leap then 7
  else if dwy <? 273 + leap then 8
  else if dwy <? 304 + leap then 9
  else if dwy <? 334 + leap then 10
  else 11.

Definition MonthFromTime (t : Date) : Z :=
  monthOfDay (DayWithinYear t) (InLeapYear t).

Definition DateFromTime (t : Date) : Z :=
  DayWithinYear t - monthStart (MonthFromTime t) (InLeapYear t) + 1.

Definition WeekDay (t : Date) : Z := (Day t + 4) mod 7.

Definition MakeDay (year month date : Z) : Z :=
  let ym := year + month / 12 in
  let mn := month mod 12 in
  DayFromYear ym + monthStart mn (if isLeapYear ym then 1 else 0) + date - 1.

Definition MakeDate (day time : Z) : Date := day * msPerDay + time.

(** *** Methods of [Date], on the local time value

    What the getters read off the local time of a date and what the setters
    make of it, before the result is taken back to UTC and clipped: those two
    steps are in [DateObject]. *)

Definition getDay (t : Date) : Z := WeekDay t.
Definition getDate (t : Date) : Z := DateFromTime t.
Definition getMonth (t : Date) : Z := MonthFromTime t.
Definition getFullYear (t : Date) : Z := YearFromTime t.

Definition setDate (t : Date) (date : Z) : Date :=
  MakeDate (MakeDay (YearFromTime t) (MonthFromTime t) date) (TimeWithinDay t).

Definition setMonth (t : Date) (month date : Z) : Date :=
  MakeDate (MakeDay (YearFromTime t) month date) (TimeWithinDay t).

Definition setFullYear (t : Date) (year month date : Z) : Date :=
  MakeDate (MakeDay year month date) (TimeWithinDay t).

Definition setHours0 (t : Date) : Date := MakeDate (Day t) 0.

(** Number of days of month [m] (0 = January) of year [y]. *)
Definition daysInMonth (y m : Z) : Z :=
  match m with
  | 1 => if isLeapYear y then 29 else 28
  | 3 | 5 | 8 | 10 => 30
  | _ => 31
  end.

End ES.

(* ================================================================== *)
(** ** date-fns *)

Module DateFns.
Import ES.

Definition addDays (date : Date) (amount : Z) : Date :=
  if amount =? 0 then date
  else setDate date (getDate date + amount).

Definition addMonths (date : Date) (amount : Z) : Date :=
  if amount =? 0 then date
  else
    let dayOfMonth := getDate date in
    let endOfDesiredMonth := setMonth date (getMonth date + amount + 1) 0 in
    let daysInMonth := getDate endOfDesiredMonth in
    if daysInMonth <=? dayOfMonth then endOfDesiredMonth
    else setFullYear date (getFullYear endOfDesiredMonth)
                          (getMonth endOfDesiredMonth) dayOfMonth.

Definition startOfDay (date : Date) : Date := setHours0 date.

Definition differenceInCalendarDays (laterDate earlierDate : Date) : Z :=
  (startOfDay laterDate - startOfDay earlierDate) / msPerDay.

End DateFns.

(* ================================================================== *)
(** ** The schedule module of the web application *)

Module Schedule.
Import ES DateFns.

Inductive IntervalUnit := days | months.

Definition addInterval (date : Date) (value : Z) (unit : IntervalUnit) : Date :=
  match unit with
  | months => addMonths date value
  | days => addDays date value
  end.

Definition adjustWeekend (date : Date) : Date :=
  let dow := getDay date in
  if dow =? 6 then addDays date 2
  else if dow =? 0 then addDays date 1
  else date.

Definition calcNextDate (lastApplied : Date) (value : Z) (unit : IntervalUnit)
  : Date :=
  adjustWeekend (addInterval lastApplied value unit).

Definition daysToNext (nextDate today : Date) : Z :=
  differenceInCalendarDays nextDate today.

(** The unit as [addInterval] reads a string: months for the string months,
    days for any other. *)
Definition unitOf (unit : string) : IntervalUnit :=
  if (unit =? "months")%string then months else days.

Inductive Status := overdue | upcoming | later.

Definition statusFromDays (d : Z) : Status :=
  if d <? 0 then overdue
  else if d <=? 60 then upcoming
  else later.

End Schedule.

(* ================================================================== *)
(** ** Date objects *)

(** The functions above compute on local time values.  A [Date] object holds
    a time value in UTC, or NaN once it is invalid; its getters read the
    local time of that value and its setters compute the new local time,
    take it back to UTC and clip it to the range of [Date]. *)

Module DateObject.
Import ES.

(** The time zone of the runtime: the two readings of LocalTZA. *)
Record TimeZone := mkTimeZone
  { (** LocalTZA(t, true): the offset of local time at the UTC time [t] *)
    offsetAtUTC : Z -> Z;
    (** LocalTZA(t, false): the offset the local time [t] is read with *)
    offsetAtLocal : Z -> Z }.

(** A zone that keeps one offset to UTC. *)
Definition fixedOffset (offset : Z) : TimeZone :=
  mkTimeZone (fun _ => offset) (fun _ => offset).

Definition LocalTime (tz : TimeZone) (t : Z) : Z := t + offsetAtUTC tz t.

Definition UTC (tz : TimeZone) (t : Z) : Z := t - offsetAtLocal tz t.

Definition maxTime : Z := 8640000000000000.

Definition TimeClip (time : Z) : option Z :=
  if Z.abs time <=? maxTime then Some time else None.

(** The value of a [Date] object: a time value, or [None] for NaN (the
    invalid date). *)
Definition DateValue := option Z.

(** A number that may be NaN ([None]). *)
Definition Number := option Z.

Definition strictEquals (a : Number) (n : Z) : bool :=
  match a with
  | Some x => x =? n
  | None => false
  end.

Definition greaterOrEqual (a b : Number) : bool :=
  match a, b with
  | Some x, Some y => y <=? x
  | _, _ => false
  end.

Definition plus (a : Number) (n : Z) : Number :=
  match a with
  | Some x => Some (x + n)
  | None => None
  end.

Definition getDay (tz : TimeZone) (d : DateValue) : Number :=
  match d with
  | Some t => Some (WeekDay (LocalTime tz t))
  | None => None
  end.

Definition getDate (tz : TimeZone) (d : DateValue) : Number :=
  match d with
  | Some t => Some (DateFromTime (LocalTime tz t))
  | None => None
  end.

Definition getMonth (tz : TimeZone) (d : DateValue) : Number :=
  match d with
  | Some t => Some (MonthFromTime (LocalTime tz t))
  | None => None
  end.

Definition getFullYear (tz : TimeZone) (d : DateValue) : Number :=
  match d with
  | Some t => Some (YearFromTime (LocalTime tz t))
  | None => None
  end.

Definition setDate (tz : TimeZone) (d : DateValue) (date : Number)
  : DateValue :=
  match d, date with
  | Some t, Some dt => TimeClip (UTC tz (ES.setDate (LocalTime tz t) dt))
  | _, _ => None
  end.

Definition setMonth (tz : TimeZone) (d : DateValue) (month date : Number)
  : DateValue :=
  match d, month, date with
  | Some t, Some m, Some dt =>
      TimeClip (UTC tz (ES.setMonth (LocalTime tz t) m dt))
  | _, _, _ => None
  end.

(** [setFullYear] reads an invalid date as the time value +0. *)
Definition setFullYear (tz : TimeZone) (d : DateValue)
  (year month date : Number) : DateValue :=
  match year, month, date with
  | Some y, Some m, Some dt =>
      let t := match d with
               | Some t => LocalTime tz t
               | None => 0
               end in
      TimeClip (UTC tz (ES.setFullYear t y m dt))
  | _, _, _ => None
  end.

End DateObject.

(** date-fns on [Date] objects. *)
Module DateFnsObject.
Import ES DateObject.

Definition addDays (tz : TimeZone) (date : DateValue) (amount : Z)
  : DateValue :=
  if amount =? 0 then date
  else setDate tz date (plus (getDate tz date) amount).

Definition addMonths (tz : TimeZone) (date : DateValue) (amount : Z)
  : DateValue :=
  if amount =? 0 then date
  else
    let dayOfMonth := getDate tz date in
    let endOfDesiredMonth :=
      setMonth tz date (plus (getMonth tz date) (amount + 1)) (Some 0) in
    let daysInMonth := getDate tz endOfDesiredMonth in
    if greaterOrEqual dayOfMonth daysInMonth then endOfDesiredMonth
    else setFullYear tz date (getFullYear tz endOfDesiredMonth)
                     (getMonth tz endOfDesiredMonth) dayOfMonth.

End DateFnsObject.

(** The schedule module on [Date] objects.  The two alert scripts carry
    copies of [addInterval], [adjustWeekend] and [calcNextDate] with the same
    bodies; they read the unit with [Schedule.unitOf]. *)
Module ScheduleObject.
Import ES DateObject DateFnsObject.

Definition addInterval (tz : TimeZone) (date : DateValue) (value : Z)
  (unit : Schedule.IntervalUnit) : DateValue :=
  match unit with
  | Schedule.months => addMonths tz date value
  | Schedule.days => addDays tz date value
  end.

Definition adjustWeekend (tz : TimeZone) (date : DateValue) : DateValue :=
  let dow := getDay tz date in
  if strictEquals dow 6 then addDays tz date 2
  else if strictEquals dow 0 then addDays tz date 1
  else date.

Definition calcNextDate (tz : TimeZone) (lastApplied : DateValue) (value : Z)
  (unit : Schedule.IntervalUnit) : DateValue :=
  adjustWeekend tz (addInterval tz lastApplied value unit).

End ScheduleObject.

(* ================================================================== *)
(** ** The collaborators: relational store and messaging channel *)

Module Store.
Import DateObject ES.

Local Open Scope string_scope.

(** A calendar date column, printed YYYY-MM-DD. *)
Record ISODate := mkISO { iso_year : Z; iso_month : Z; iso_day : Z }.

Definition ISODate_eqb (a b : ISODate) : bool :=
  (iso_year a =? iso_year b)%Z && (iso_month a =? iso_month b)%Z &&
  (iso_day a =? iso_day b)%Z.

(** Chronological order on date columns. *)
Definition ISODate_leb (a b : ISODate) : bool :=
  if (iso_year a <? iso_year b)%Z then true
  else if (iso_year b <? iso_year a)%Z then false
  else if (iso_month a <? iso_month b)%Z then true
  else if (iso_month b <? iso_month a)%Z then false
  else (iso_day a <=? iso_day b)%Z.

Record PetRow := mkPet { pet_id : string; pet_name : string }.

Record PetMemberRow := mkMember
  { member_pet_id : string; member_user_id : string; member_role : string }.

(** [alerts_days] is [None] when the column holds no array. *)
Record TreatmentRow := mkTreatment
  { id : string;
    treatment_pet_id : string;
    category : string;
    name : string;
    interval_value : Z;
    interval_unit : string;
    alerts_days : option (list Z) }.

Record ApplicationRow := mkApplication
  { application_treatment_id : string; applied_on : ISODate }.

Record AlertLogRow := mkAlertLog
  { treatment_id : string; alert_type : string; alert_date : ISODate }.

Definition AlertLogRow_eqb (a b : AlertLogRow) : bool :=
  (treatment_id a =? treatment_id b) && (alert_type a =? alert_type b) &&
  ISODate_eqb (alert_date a) (alert_date b).

(** The error object of a store response; only its [code] is inspected. *)
Record PostgrestError := mkError { code : string }.

(** Failures of the store that do not depend on the data: the connection,
    the schema, the permissions, a constraint other than the uniqueness of
    the alert-log triple. *)
Inductive Fault :=
| ConnectionFailure
| UndefinedTable
| InsufficientPrivilege
| ForeignKeyViolation
| NotNullViolation.

Definition fault_error (f : Fault) : PostgrestError :=
  mkError match f with
          | ConnectionFailure => "08006"
          | UndefinedTable => "42P01"
          | InsufficientPrivilege => "42501"
          | ForeignKeyViolation => "23503"
          | NotNullViolation => "23502"
          end.

Definition unique_violation : PostgrestError := mkError "23505".

(** A store response: either the data or the error is set. *)
Inductive Response (A : Type) :=
| Data (rows : A)
| Failure (error : PostgrestError).
Arguments Data {A} rows.
Arguments Failure {A} error.

(** What the messaging channel answers to a request. *)
Inductive FetchOutcome :=
| HttpResponse (status : Z)
| NetworkError.

Definition ok (status : Z) : bool := (200 <=? status)%Z && (status <=? 299)%Z.

(** A notification, represented by the values its text template
    interpolates. *)
Inductive MessageKind := OverdueMessage | DueMessage.

Record Message := mkMessage
  { message_kind : MessageKind;
    message_pet : string;
    message_treatment : string;
    message_category : string;
    message_days : Z;
    message_last : ISODate;
    message_next : ISODate }.

(** The part of the world a run reads but does not change. *)
Record Env := mkEnv
  { pets : list PetRow;
    pet_members : list PetMemberRow;
    treatments : list TreatmentRow;
    applications : list ApplicationRow;
    (** the order in which the store collates treatments by category and
        name *)
    order_by_category_name : list TreatmentRow -> list TreatmentRow;
    (** local time value of the clock when the run starts *)
    clock : Date;
    (** offsets to UTC, in milliseconds, of the zone of the process and of
        the zone America/Sao_Paulo *)
    process_offset : Z;
    zone_offset : Z;
    (** the fault, if any, that hits the n-th request to a collaborator *)
    store_faults : nat -> option Fault;
    channel : nat -> FetchOutcome;
    (** the date strings outside the date-time format of ECMAScript that the
        engine of the process still reads by their fields; it reads the
        others as the invalid date *)
    lenient_parse : ISODate -> bool }.

(** The part of the world a run changes: the alert log, the messages
    delivered, and the number of requests made so far. *)
Record World := mkWorld
  { alert_log : list AlertLogRow;
    outbox : list Message;
    requests : nat }.

Inductive Error :=
| StoreError (error : PostgrestError)
| TelegramError (status : Z)
| FetchFailed
| PetNotFound
| RangeError.

Inductive Outcome (A : Type) :=
| Ok (value : A)
| Throw (e : Error).
Arguments Ok {A} value.
Arguments Throw {A} e.

(** Computations that change the world and may throw; the effects made
    before a throw stay. *)
Definition M (A : Type) : Type := World -> Outcome A * World.

Definition ret {A} (a : A) : M A := fun w => (Ok a, w).

Definition throw {A} (e : Error) : M A := fun w => (Throw e, w).

Definition bind {A B} (m : M A) (k : A -> M B) : M B :=
  fun w =>
    match m w with
    | (Ok a, w') => k a w'
    | (Throw e, w') => (Throw e, w')
    end.

Notation "x <- m ;; k" := (bind m (fun x => k))
  (at level 61, m at next level, right associativity).

Fixpoint forEach {A} (l : list A) (body : A -> M unit) : M unit :=
  match l with
  | [] => ret tt
  | x :: rest => _ <- body x ;; forEach rest body
  end.

(** A loop that carries a local variable. *)
Fixpoint forEachWith {A S} (l : list A) (body : S -> A -> M S) (s : S) : M S :=
  match l with
  | [] => ret s
  | x :: rest => s' <- body s x ;; forEachWith rest body s'
  end.

Definition next_request (w : World) : World :=
  mkWorld (alert_log w) (outbox w) (S (requests w)).

(** A read request: the rows [rows] unless a fault hits it. *)
Definition select {A} (env : Env) (rows : World -> A) : M (Response A) :=
  fun w =>
    match store_faults env (requests w) with
    | Some f => (Ok (Failure (fault_error f)), next_request w)
    | None => (Ok (Data (rows w)), next_request w)
    end.

Definition selectPetsByName (env : Env) (n : string) : M (Response (list PetRow)) :=
  select env (fun _ => firstn 1 (filter (fun p => pet_name p =? n) (pets env))).

Definition selectMembersByRole (env : Env) (role : string)
  : M (Response (list PetMemberRow)) :=
  select env (fun _ => filter (fun m => member_role m =? role) (pet_members env)).

Definition selectPetsIn (env : Env) (ids : list string)
  : M (Response (list PetRow)) :=
  select env (fun _ =>
    filter (fun p => existsb (String.eqb (pet_id p)) ids) (pets env)).

Definition selectTreatmentsByPet (env : Env) (petId : string)
  : M (Response (list TreatmentRow)) :=
  select env (fun _ =>
    filter (fun t => treatment_pet_id t =? petId) (treatments env)).

Definition selectTreatmentsByPetOrdered (env : Env) (petId : string)
  : M (Response (list TreatmentRow)) :=
  select env (fun _ =>
    order_by_category_name env
      (filter (fun t => treatment_pet_id t =? petId) (treatments env))).

(** The latest of a list of dates: the first row of the list ordered by date,
    descending. *)
Fixpoint latest (l : list ISODate) : option ISODate :=
  match l with
  | [] => None
  | d :: rest =>
      match latest rest with
      | None => Some d
      | Some d' => if ISODate_leb d d' then Some d' else Some d
      end
  end.

Definition lastApplication (env : Env) (treatmentId : string) : list ISODate :=
  match latest (map applied_on
                 (filter (fun a => application_treatment_id a =? treatmentId)
                         (applications env))) with
  | None => []
  | Some d => [d]
  end.

Definition selectLastApplication (env : Env) (treatmentId : string)
  : M (Response (list ISODate)) :=
  select env (fun _ => lastApplication env treatmentId).

Definition selectAlertLog (env : Env) (treatmentId alertType : string)
  (alertDate : ISODate) : M (Response (list AlertLogRow)) :=
  select env (fun w =>
    firstn 1 (filter (AlertLogRow_eqb (mkAlertLog treatmentId alertType alertDate))
                     (alert_log w))).

(** Modelled from the spec: the table alert_log, whose declaration is not in
    the sources, with its constraint UNIQUE(treatment_id, alert_type,
    alert_date).  An insert answers with the error of the fault that hits it,
    with the unique violation 23505 when the triple is in the table, and
    otherwise adds the row and answers with no error. *)
Definition insertAlertLog (env : Env) (row : AlertLogRow)
  : M (option PostgrestError) :=
  fun w =>
    match store_faults env (requests w) with
    | Some f => (Ok (Some (fault_error f)), next_request w)
    | None =>
        if existsb (AlertLogRow_eqb row) (alert_log w)
        then (Ok (Some unique_violation), next_request w)
        else (Ok None,
              mkWorld (alert_log w ++ [row]) (outbox w) (S (requests w)))
    end.

(** The request to the messaging channel: the message is delivered exactly
    when the channel answers with a success status. *)
Definition fetchSendMessage (env : Env) (text : Message) : M Z :=
  fun w =>
    match channel env (requests w) with
    | NetworkError => (Throw FetchFailed, next_request w)
    | HttpResponse status =>
        if ok status
        then (Ok status,
              mkWorld (alert_log w) (outbox w ++ [text]) (S (requests w)))
        else (Ok status, next_request w)
    end.

(** *** Dates between the store, the clock and the calendar *)

(** The local time that the string [`${iso}T00:00:00`] denotes: midnight of
    the date, on the local time line.  The [Date] object that [new Date]
    makes of the string is [newDate] below. *)
Definition parseLocalMidnight (d : ISODate) : Date :=
  MakeDate (MakeDay (iso_year d) (iso_month d - 1) (iso_day d)) 0.

(** The strings YYYY-MM-DD of the date-time format of ECMAScript: a year of
    four digits, a month, and a day of that month. *)
Definition wellFormed (d : ISODate) : bool :=
  (0 <=? iso_year d)%Z && (iso_year d <=? 9999)%Z &&
  (1 <=? iso_month d)%Z && (iso_month d <=? 12)%Z &&
  (1 <=? iso_day d)%Z &&
  (iso_day d <=? daysInMonth (iso_year d) (iso_month d - 1))%Z.

(** [new Date(`${iso}T00:00:00`)] as a [Date] object.  A string in the format
    is read as a local time; what an engine makes of another string is its
    own choice: [lenient] tells which of them it reads by their fields, and
    the others give the invalid date. *)
Definition newDate (tz : TimeZone) (lenient : ISODate -> bool) (iso : ISODate)
  : DateValue :=
  if wellFormed iso || lenient iso
  then TimeClip (UTC tz (parseLocalMidnight iso))
  else None.

(** The zone of the process of a run. *)
Definition zone (env : Env) : TimeZone := fixedOffset (process_offset env).

(** The local time value of a [Date] object of the process, when it is
    valid. *)
Definition localValue (env : Env) (d : DateValue) : option Date :=
  match d with
  | Some t => Some (LocalTime (zone env) t)
  | None => None
  end.

(** The local fields of a date, as YYYY-MM-DD. *)
Definition localISODate (d : Date) : ISODate :=
  mkISO (getFullYear d) (getMonth d + 1) (getDate d).

(** The date whose local fields show the time of [d] in the zone
    America/Sao_Paulo. *)
Definition toZone (env : Env) (d : Date) : Date :=
  d - process_offset env + zone_offset env.

Definition string_of_Z (z : Z) : string :=
  NilZero.string_of_int (Z.to_int z).

End Store.

(* ================================================================== *)
(** ** scripts/send-alerts.js *)

Module SendAlerts.
Import DateObject ES DateFns Store.

Local Open Scope string_scope.

Definition addInterval (date : Date) (value : Z) (unit : string) : Date :=
  if unit =? "months" then addMonths date value else addDays date value.

Definition adjustWeekend (date : Date) : Date :=
  let dow := getDay date in
  if (dow =? 6)%Z then addDays date 2
  else if (dow =? 0)%Z then addDays date 1
  else date.

Definition calcNextDate (lastApplied : Date) (intervalValue : Z)
  (intervalUnit : string) : Date :=
  adjustWeekend (addInterval lastApplied intervalValue intervalUnit).

Definition toISODate (d : Date) : ISODate := localISODate d.

Definition telegramSend (env : Env) (text : Message) : M unit :=
  status <- fetchSendMessage env text ;;
  if ok status then ret tt else throw (TelegramError status).

(** Tries to insert into the alert log; the unique constraint keeps a second
    row for the triple out. *)
Definition alreadyLogged (env : Env) (treatmentId alertType : string)
  (alertDate : ISODate) : M bool :=
  error <- insertAlertLog env (mkAlertLog treatmentId alertType alertDate) ;;
  match error with
  | None => ret false
  | Some e => if code e =? "23505" then ret true else throw (StoreError e)
  end.

Definition resolveAlerts (t : TreatmentRow) : list Z :=
  match alerts_days t with
  | Some configured => configured
  | None => [30; 15; 5]%Z
  end.

Definition includes (l : list Z) (x : Z) : bool := existsb (Z.eqb x) l.

(** The body of the loop over the treatments. *)
Definition processTreatment (env : Env) (zeus : PetRow) (nowSP : Date)
  (todayISO : ISODate) (t : TreatmentRow) : M unit :=
  r <- selectLastApplication env (id t) ;;
  match r with
  | Failure appErr => throw (StoreError appErr)
  | Data [] => ret tt
  | Data (lastAppliedOn :: _) =>
      let last := newDate (zone env) (lenient_parse env) lastAppliedOn in
      let next :=
        ScheduleObject.calcNextDate (zone env) last (interval_value t)
                                    (Schedule.unitOf (interval_unit t)) in
      match localValue env next with
      | None =>
          (* [days] is NaN: it is neither below 0 nor among the thresholds *)
          ret tt
      | Some next =>
          let days := differenceInCalendarDays next nowSP in
          let alerts := resolveAlerts t in
          if (days <? 0)%Z then
            let alertType := "overdue_daily" in
            already <- alreadyLogged env (id t) alertType todayISO ;;
            if negb already then
              telegramSend env
                (mkMessage OverdueMessage (pet_name zeus) (name t) ""
                           (Z.abs days) lastAppliedOn (toISODate next))
            else ret tt
          else if includes alerts days then
            let alertType := "due_in_" ++ string_of_Z days in
            already <- alreadyLogged env (id t) alertType todayISO ;;
            if negb already then
              telegramSend env
                (mkMessage DueMessage (pet_name zeus) (name t) ""
                           days lastAppliedOn (toISODate next))
            else ret tt
          else ret tt
      end
  end.

Definition main (env : Env) : M unit :=
  let nowUtc := clock env in
  let nowSP := toZone env nowUtc in
  let todayISO := toISODate nowSP in
  r <- selectPetsByName env "Zeus" ;;
  match r with
  | Failure petErr => throw (StoreError petErr)
  | Data [] => throw PetNotFound
  | Data (zeus :: _) =>
      r <- selectTreatmentsByPet env (pet_id zeus) ;;
      match r with
      | Failure trErr => throw (StoreError trErr)
      | Data treatments =>
          forEach treatments (processTreatment env zeus nowSP todayISO)
      end
  end.

End SendAlerts.

(* ================================================================== *)
(** ** The alert script run by the scheduled workflow *)

Module ZeusAlerts.
Import DateObject ES DateFns Store.

Local Open Scope string_scope.

Definition isoDateSP (env : Env) (date : Date) : ISODate :=
  localISODate (toZone env date).

Definition formatBR (env : Env) (date : Date) : ISODate :=
  localISODate (toZone env date).

Definition adjustIfWeekend (date : Date) : Date :=
  let d := date in
  let dow := getDay d in
  if (dow =? 6)%Z then addDays d 2
  else if (dow =? 0)%Z then addDays d 1
  else d.

Definition addInterval (lastApplied : Date) (value : Z) (unit : string) : Date :=
  if unit =? "months" then addMonths lastApplied value
  else addDays lastApplied value.

Definition calcNextDate (lastApplied : Date) (intervalValue : Z)
  (intervalUnit : string) : Date :=
  let base := addInterval lastApplied intervalValue intervalUnit in
  adjustIfWeekend base.

Definition daysToNext (nextDate todaySP : Date) : Z :=
  differenceInCalendarDays nextDate todaySP.

Definition telegramSend (env : Env) (text : Message) : M unit :=
  status <- fetchSendMessage env text ;;
  if ok status then ret tt else throw (TelegramError status).

Definition getOwnerPets (env : Env) : M (list PetRow) :=
  r <- selectMembersByRole env "owner" ;;
  match r with
  | Failure mErr => throw (StoreError mErr)
  | Data members =>
      let petIds := nodup string_dec (map member_pet_id members) in
      match petIds with
      | [] => ret []
      | _ =>
          r <- selectPetsIn env petIds ;;
          match r with
          | Failure pErr => throw (StoreError pErr)
          | Data pets => ret pets
          end
      end
  end.

Definition getTreatmentsByPet (env : Env) (petId : string)
  : M (list TreatmentRow) :=
  r <- selectTreatmentsByPetOrdered env petId ;;
  match r with
  | Failure error => throw (StoreError error)
  | Data data => ret data
  end.

Definition getLastApplicationDate (env : Env) (treatmentId : string)
  : M (option ISODate) :=
  r <- selectLastApplication env treatmentId ;;
  match r with
  | Failure error => throw (StoreError error)
  | Data [] => ret None
  | Data (row :: _) => ret (Some row)
  end.

Definition alreadyLogged (env : Env) (treatmentId alertType : string)
  (alertDateYYYYMMDD : ISODate) : M bool :=
  r <- selectAlertLog env treatmentId alertType alertDateYYYYMMDD ;;
  match r with
  | Failure error => throw (StoreError error)
  | Data data => ret (0 <? List.length data)%nat
  end.

Definition insertLog (env : Env) (treatmentId alertType : string)
  (alertDateYYYYMMDD : ISODate) : M unit :=
  error <- insertAlertLog env
             (mkAlertLog treatmentId alertType alertDateYYYYMMDD) ;;
  match error with
  | Some e => throw (StoreError e)
  | None => ret tt
  end.

Definition resolveAlerts (t : TreatmentRow) : list Z :=
  match alerts_days t with
  | Some (d :: rest) => d :: rest
  | _ => [30; 15; 5]%Z
  end.

Definition includes (l : list Z) (x : Z) : bool := existsb (Z.eqb x) l.

(** The first block of the loop body: the upcoming alert. *)
Definition upcomingAlert (env : Env) (pet : PetRow) (todayKey : ISODate)
  (t : TreatmentRow) (lastApplied nextDate : Date) (days : Z)
  (sentCount : nat) : M nat :=
  let alertType := "upcoming_" ++ string_of_Z days in
  already <- alreadyLogged env (id t) alertType todayKey ;;
  if negb already then
    let msg := mkMessage DueMessage (pet_name pet) (name t) (category t)
                         days (formatBR env lastApplied) (formatBR env nextDate) in
    _ <- telegramSend env msg ;;
    _ <- insertLog env (id t) alertType todayKey ;;
    ret (S sentCount)
  else ret sentCount.

(** The second block of the loop body: the overdue alert. *)
Definition overdueAlert (env : Env) (pet : PetRow) (todayKey : ISODate)
  (t : TreatmentRow) (lastApplied nextDate : Date) (days : Z)
  (sentCount : nat) : M nat :=
  let alertType := "overdue_daily" in
  already <- alreadyLogged env (id t) alertType todayKey ;;
  if negb already then
    let msg := mkMessage OverdueMessage (pet_name pet) (name t) (category t)
                         (Z.abs days) (formatBR env lastApplied)
                         (formatBR env nextDate) in
    _ <- telegramSend env msg ;;
    _ <- insertLog env (id t) alertType todayKey ;;
    ret (S sentCount)
  else ret sentCount.

(** The body of the loop over the treatments of a pet. *)
Definition processTreatment (env : Env) (pet : PetRow) (nowSP : Date)
  (todayKey : ISODate) (sentCount : nat) (t : TreatmentRow) : M nat :=
  lastAppliedOn <- getLastApplicationDate env (id t) ;;
  match lastAppliedOn with
  | None => ret sentCount
  | Some lastAppliedOn =>
      let lastApplied :=
        newDate (zone env) (lenient_parse env) lastAppliedOn in
      let nextDate :=
        ScheduleObject.calcNextDate (zone env) lastApplied (interval_value t)
                                    (Schedule.unitOf (interval_unit t)) in
      match localValue env nextDate, localValue env lastApplied with
      | Some nextDate, Some lastApplied =>
          let days := daysToNext nextDate nowSP in
          let alertsDays := resolveAlerts t in
          sentCount <-
            (if includes alertsDays days
             then upcomingAlert env pet todayKey t lastApplied nextDate days
                                sentCount
             else ret sentCount) ;;
          if (days <? 0)%Z
          then overdueAlert env pet todayKey t lastApplied nextDate days
                            sentCount
          else ret sentCount
      | _, _ =>
          (* [isoDateSP(nextDate)]: the format of an invalid date throws; the
             next date is invalid when the last application is *)
          throw RangeError
      end
  end.

Definition processPet (env : Env) (nowSP : Date) (todayKey : ISODate)
  (sentCount : nat) (pet : PetRow) : M nat :=
  treatments <- getTreatmentsByPet env (pet_id pet) ;;
  forEachWith treatments (processTreatment env pet nowSP todayKey) sentCount.

(** [main] yields the count of alerts sent that its last line reports. *)
Definition main (env : Env) : M nat :=
  let now := clock env in
  let nowSP := toZone env now in
  let todayKey := isoDateSP env nowSP in
  pets <- getOwnerPets env ;;
  match pets with
  | [] => ret 0%nat
  | _ => forEachWith pets (processPet env nowSP todayKey) 0%nat
  end.

End ZeusAlerts.

(* ================================================================== *)
(** ** date-fns: the functions of the calendar grid *)

Module DateFnsCalendar.
Import ES DateFns.

Definition MakeTime (hour min sec ms : Z) : Z :=
  hour * 3600000 + min * 60000 + sec * 1000 + ms.

Definition setHours (t : Date) (hour min sec ms : Z) : Date :=
  MakeDate (Day t) (MakeTime hour min sec ms).

Definition startOfMonth (date : Date) : Date :=
  setHours (setDate date 1) 0 0 0 0.


Definition startOfWeek (date : Date) (weekStartsOn : Z) : Date :=
  let day := getDay date in
  let diff := (if day <? weekStartsOn then 7 else 0) + day - weekStartsOn in
  setHours (setDate date (getDate date - diff)) 0 0 0 0.



Definition isSameMonth (laterDate earlierDate : Date) : bool :=
  (getFullYear laterDate =? getFullYear earlierDate) &&
  (getMonth laterDate =? getMonth earlierDate).

Definition isSameDay (laterDate earlierDate : Date) : bool :=
  startOfDay laterDate =? startOfDay earlierDate.

End DateFnsCalendar.

(* ================================================================== *)
(** ** The agenda page *)

Module Agenda.
Import ES DateFns DateFnsCalendar Store.

(** The year, the month counted from 1 and the day of the month that the
    template prints as YYYY-MM-DD. *)
Definition isoDateLocal (d : Date) : ISODate :=
  let yyyy := getFullYear d in
  let mm := getMonth d + 1 in
  let dd := getDate d in
  mkISO yyyy mm dd.

Record AgendaItem := mkItem
  { treatmentId : string;
    treatmentName : string;
    itemCategory : string;
    lastAppliedOn : option ISODate;
    nextDate : option Date;
    daysToNext : option Z }.

(** The unit as the schedule module reads it: months for the string months,
    days for any other string. *)
Definition intervalUnit (unit : string) : Schedule.IntervalUnit :=
  if (unit =? "months")%string then Schedule.months else Schedule.days.

(** One turn of the loading loop, for a treatment and the rows [apps] of its
    last application. *)
Definition agendaItem (today : Date) (t : TreatmentRow) (apps : list ISODate)
  : AgendaItem :=
  let lastAppliedOn :=
    match apps with
    | row :: _ => Some row
    | [] => None
    end in
  match lastAppliedOn with
  | Some l =>
      let last := parseLocalMidnight l in
      let nextDate :=
        Schedule.calcNextDate last (interval_value t)
                              (intervalUnit (interval_unit t)) in
      let dtn := Schedule.daysToNext nextDate today in
      mkItem (id t) (name t) (category t) lastAppliedOn (Some nextDate)
             (Some dtn)
  | None => mkItem (id t) (name t) (category t) None None None
  end.

Definition Status_eqb (a b : Schedule.Status) : bool :=
  match a, b with
  | Schedule.overdue, Schedule.overdue => true
  | Schedule.upcoming, Schedule.upcoming => true
  | Schedule.later, Schedule.later => true
  | _, _ => false
  end.


Definition overdue (items : list AgendaItem) : list AgendaItem :=
  filter (fun x =>
            match daysToNext x with
            | Some d => Status_eqb (Schedule.statusFromDays d) Schedule.overdue
            | None => false
            end) items.


(** *** The order of the items of a day *)

(** [items.sort((a, b) => a.treatmentName.localeCompare(b.treatmentName))].
    The number [localeCompare] returns depends on the locale of the browser,
    so the comparison is an argument.  [Array.prototype.sort] is stable: for
    a consistent comparison its result is that of inserting each item, from
    the last to the first, before the first item that does not compare below
    it. *)
Fixpoint insertByName (localeCompare : string -> string -> Z)
  (x : AgendaItem) (l : list AgendaItem) : list AgendaItem :=
  match l with
  | [] => [x]
  | y :: rest =>
      if localeCompare (treatmentName x) (treatmentName y) <=? 0
      then x :: y :: rest
      else y :: insertByName localeCompare x rest
  end.

Definition sortByName (localeCompare : string -> string -> Z)
  (items : list AgendaItem) : list AgendaItem :=
  fold_right (insertByName localeCompare) [] items.

(** *** The events of the calendar, by day *)

Record DayEntry := mkEntry
  { items : list AgendaItem;
    overdueCount : Z;
    upcomingCount : Z;
    total : Z }.

(** A [Map] keyed by the day, in insertion order. *)
Definition DayMap := list (ISODate * DayEntry).

Fixpoint mapGet (m : DayMap) (key : ISODate) : option DayEntry :=
  match m with
  | [] => None
  | (k, e) :: rest => if ISODate_eqb k key then Some e else mapGet rest key
  end.

Fixpoint mapSet (m : DayMap) (key : ISODate) (entry : DayEntry) : DayMap :=
  match m with
  | [] => [(key, entry)]
  | (k, e) :: rest =>
      if ISODate_eqb k key then (k, entry) :: rest
      else (k, e) :: mapSet rest key entry
  end.

(** One turn of the first loop of [eventsByDay]. *)
Definition addEvent (m : DayMap) (it : AgendaItem) : DayMap :=
  match nextDate it with
  | None => m
  | Some next =>
      let key := isoDateLocal next in
      let entry :=
        match mapGet m key with
        | Some e => e
        | None => mkEntry [] 0 0 0
        end in
      let entry := mkEntry (items entry ++ [it]) (overdueCount entry)
                           (upcomingCount entry) (total entry + 1) in
      let entry :=
        match daysToNext it with
        | Some d =>
            let st := Schedule.statusFromDays d in
            let entry :=
              if Status_eqb st Schedule.overdue
              then mkEntry (items entry) (overdueCount entry + 1)
                           (upcomingCount entry) (total entry)
              else entry in
            if Status_eqb st Schedule.upcoming
            then mkEntry (items entry) (overdueCount entry)
                         (upcomingCount entry + 1) (total entry)
            else entry
        | None => entry
        end in
      mapSet m key entry
  end.

(** [eventsByDay]: the first loop groups the items, the second sorts the
    items of each day by name.  [byName] is that sort: the page runs
    [eventsByDay (sortByName localeCompare)] with the [localeCompare] of the
    browser. *)
Definition eventsByDay (byName : list AgendaItem -> list AgendaItem)
  (its : list AgendaItem) : DayMap :=
  let m := fold_left addEvent its [] in
  fold_left
    (fun m' ke =>
       mapSet m' (fst ke)
              (mkEntry (byName (items (snd ke))) (overdueCount (snd ke))
                       (upcomingCount (snd ke)) (total (snd ke))))
    m m.

(** *** The grid of the month *)


Definition gridStart (calMonth : Date) : Date :=
  startOfWeek (startOfMonth calMonth) 1.





(** What a cell of the grid shows of its date. *)
Definition inMonth (cellDate calMonth : Date) : bool :=
  isSameMonth cellDate calMonth.

Definition isSelected (cellDate selectedDay : Date) : bool :=
  isSameDay cellDate selectedDay.

End Agenda.

(* ================================================================== *)
(** ** A household on 1 June 2024 *)

Module Scenario.
Import DateObject ES Store.

Local Open Scope string_scope.

Definition june_1_2024_noon : Date := MakeDate (MakeDay 2024 5 1) 43200000.

(** A vaccine due every six months. *)
Definition vaccine (alerts : option (list Z)) : TreatmentRow :=
  mkTreatment "t1" "p1" "vaccine" "V10" 6 "months" alerts.

(** A dewormer never applied yet. *)
Definition dewormer : TreatmentRow :=
  mkTreatment "t2" "p1" "dewormer" "Drontal" 3 "months" (Some [30; 15; 5]%Z).

(** The order of the store by category and then by name, both ascending,
    for strings compared by the codes of their characters. *)
Definition precedes (a b : TreatmentRow) : bool :=
  match String.compare (category a) (category b) with
  | Lt => true
  | Gt => false
  | Eq => String.leb (name a) (name b)
  end.

Fixpoint insertOrdered (t : TreatmentRow) (rows : list TreatmentRow)
  : list TreatmentRow :=
  match rows with
  | [] => [t]
  | r :: rest =>
      if precedes t r then t :: r :: rest else r :: insertOrdered t rest
  end.

Definition byCategoryAndName (rows : list TreatmentRow) : list TreatmentRow :=
  fold_right insertOrdered [] rows.

(** Zeus, with the vaccine last applied on 1 January 2024: it is due on
    Monday 1 July 2024, thirty days after today. *)
Definition household (alerts : option (list Z)) (answers : nat -> FetchOutcome)
  : Env :=
  mkEnv [mkPet "p1" "Zeus"]
        [mkMember "p1" "u1" "owner"]
        [vaccine alerts; dewormer]
        [mkApplication "t1" (mkISO 2024 1 1)]
        byCategoryAndName
        june_1_2024_noon (-10800000) (-10800000)
        (fun _ => None) answers (fun _ => false).

(** The same household read by a process whose zone is UTC, as the runner of
    the scheduled workflow is, at the time [clock] of 1 June 2024 in UTC. *)
Definition utc_runner (clock : Z) (answers : nat -> FetchOutcome) : Env :=
  mkEnv [mkPet "p1" "Zeus"]
        [mkMember "p1" "u1" "owner"]
        [vaccine None; dewormer]
        [mkApplication "t1" (mkISO 2024 1 1)]
        byCategoryAndName
        (MakeDate (MakeDay 2024 5 1) clock) 0 (-10800000)
        (fun _ => None) answers (fun _ => false).

(** The zone of Sao Paulo since 2019: three hours behind UTC. *)
Definition sao_paulo : TimeZone := fixedOffset (-10800000).

(** Midnight of 31 January 2024 in that zone, as a time value. *)
Definition january_31_2024 : Z := MakeDate (MakeDay 2024 0 31) 0 + 10800000.

(** The zone of Sao Paulo around the start of daylight-saving time in 2018:
    three hours behind UTC until the local midnight of 4 November, when the
    clocks went from 00:00 to 01:00, and two hours behind from then on.  A
    local time of the skipped hour is read with the offset before the
    transition. *)
Definition sao_paulo_2018 : TimeZone :=
  mkTimeZone
    (fun t => if (t <? MakeDate (MakeDay 2018 10 4) 10800000)%Z
              then -10800000 else -7200000)
    (fun t => if (t <? MakeDate (MakeDay 2018 10 4) 3600000)%Z
              then -10800000 else -7200000).

(** Midnight of 3 November 2018 in that zone, as a time value. *)
Definition november_3_2018 : Z := MakeDate (MakeDay 2018 10 3) 0 + 10800000.

(** 04:00 and 15:00 in UTC: 01:00 and 12:00 of the same day in the zone of
    Sao Paulo. *)
Definition four_am : Z := 4 * 3600000.
Definition three_pm : Z := 15 * 3600000.

(** The alert for the vaccine thirty days before it is due, as the scheduled
    script logs and words it. *)
Definition upcoming_30 : AlertLogRow :=
  mkAlertLog "t1" "upcoming_30" (mkISO 2024 6 1).

Definition vaccine_due : Message :=
  mkMessage DueMessage "Zeus" "V10" "vaccine" 30 (mkISO 2024 1 1)
            (mkISO 2024 7 1).

(** A collar against ticks, on the same schedule as the vaccine. *)
Definition tick_collar : TreatmentRow :=
  mkTreatment "t3" "p1" "antiparasitic" "Bravecto" 6 "months" None.

(** A [localeCompare] that orders names by the codes of their characters. *)
Definition codeUnitCompare (a b : string) : Z :=
  match String.compare a b with
  | Lt => -1
  | Eq => 0
  | Gt => 1
  end.

Definition delivering : nat -> FetchOutcome := fun _ => HttpResponse 200.
Definition refusing : nat -> FetchOutcome := fun _ => HttpResponse 500.

Definition fresh : World := mkWorld [] [] 0.

End Scenario.

(* ================================================================== *)
(** ** Specification vocabulary *)

Module ScheduleSpec.
Import DateObject ES.


(** A zone that reads every local time on its own calendar day: a local
    time that a transition skips is moved to a time of the same day.  Zones
    with a fixed offset are such zones, and so are the zones whose clocks
    are set forward within a day. *)
Definition keepsDay (tz : TimeZone) : Prop :=
  forall t, Day (LocalTime tz (UTC tz t)) = Day t.

(** The offsets of the zone are at most a day. *)
Definition offsetsWithinDay (tz : TimeZone) : Prop :=
  forall t, Z.abs (offsetAtUTC tz t) <= msPerDay /\
            Z.abs (offsetAtLocal tz t) <= msPerDay.

End ScheduleSpec.

Module StoreSpec.
Import DateObject ES Store.

(** Two worlds with the same alert log and the same delivered messages. *)
Definition same_records (w w' : World) : Prop :=
  alert_log w' = alert_log w /\ outbox w' = outbox w.

(** A world whose records extend those of another. *)
Definition grows (w w' : World) : Prop :=
  incl (alert_log w) (alert_log w') /\ incl (outbox w) (outbox w').

(** The errors of a failed delivery: the request itself failed, or the
    channel answered with a status that is not a success. *)
Definition delivery_failure (e : Error) : Prop :=
  e = FetchFailed \/ exists status, ok status = false /\ e = TelegramError status.

Definition completed {A} (r : Outcome A) : Prop :=
  match r with
  | Ok _ => True
  | Throw _ => False
  end.

(** [claims rows w r w']: a computation that took the world from [w] to [w']
    with outcome [r] only added records; every row it added to the alert log
    is one of [rows]; if it completed, all of [rows] are in the log; and if
    all of [rows] were in the log already, it changed neither the log nor the
    messages delivered. *)
Definition claims {A} (rows : list AlertLogRow) (w : World) (r : Outcome A)
  (w' : World) : Prop :=
  grows w w' /\
  (forall x, In x (alert_log w') -> In x (alert_log w) \/ In x rows) /\
  (completed r -> incl rows (alert_log w')) /\
  (incl rows (alert_log w) -> same_records w w').

(** The environment of a later run over the same tables: another reading of
    the clock, other faults, other answers of the channel. *)
Definition later_run (env : Env) (clock' : Date)
  (faults' : nat -> option Fault) (answers' : nat -> FetchOutcome) : Env :=
  mkEnv (pets env) (pet_members env) (treatments env) (applications env)
        (order_by_category_name env) clock'
        (process_offset env) (zone_offset env) faults' answers'
        (lenient_parse env).

(** The next date of a treatment last applied on [lastAppliedOn] is a valid
    date in the process of the run. *)
Definition nextValid (env : Env) (t : TreatmentRow) (lastAppliedOn : ISODate)
  : bool :=
  match localValue env
          (ScheduleObject.calcNextDate (zone env)
             (newDate (zone env) (lenient_parse env) lastAppliedOn)
             (interval_value t) (Schedule.unitOf (interval_unit t))) with
  | Some _ => true
  | None => false
  end.

Definition with_alerts (t : TreatmentRow) (alerts : option (list Z))
  : TreatmentRow :=
  mkTreatment (id t) (treatment_pet_id t) (category t) (name t)
              (interval_value t) (interval_unit t) alerts.

End StoreSpec.

Module ZeusAlertsSpec.
Import ES DateFns Store StoreSpec ZeusAlerts.

(** The shape both alert blocks of the loop body share. *)
Definition notifyOnce (env : Env) (row : AlertLogRow) (msg : Message)
  (sentCount : nat) : M nat :=
  already <- alreadyLogged env (treatment_id row) (alert_type row)
                           (alert_date row) ;;
  if negb already then
    _ <- telegramSend env msg ;;
    _ <- insertLog env (treatment_id row) (alert_type row) (alert_date row) ;;
    ret (S sentCount)
  else ret sentCount.

Definition upcomingRow (todayKey : ISODate) (t : TreatmentRow) (days : Z)
  : AlertLogRow :=
  mkAlertLog (id t) ("upcoming_" ++ string_of_Z days)%string todayKey.

Definition overdueRow (todayKey : ISODate) (t : TreatmentRow) : AlertLogRow :=
  mkAlertLog (id t) "overdue_daily"%string todayKey.

Definition upcomingMessage env (pet : PetRow) (t : TreatmentRow)
  (lastApplied nextDate : Date) (days : Z) : Message :=
  mkMessage DueMessage (pet_name pet) (name t) (category t) days
            (formatBR env lastApplied) (formatBR env nextDate).

Definition overdueMessage env (pet : PetRow) (t : TreatmentRow)
  (lastApplied nextDate : Date) (days : Z) : Message :=
  mkMessage OverdueMessage (pet_name pet) (name t) (category t) (Z.abs days)
            (formatBR env lastApplied) (formatBR env nextDate).

(** The five ways an alert block ends. *)
Inductive alert_outcome (row : AlertLogRow) (msg : Message) (n : nat)
  (w : World) : Outcome nat -> World -> Prop :=
| already_claimed w' :
    In row (alert_log w) -> same_records w w' ->
    alert_outcome row msg n w (Ok n) w'
| notified w' :
    ~ In row (alert_log w) ->
    alert_log w' = alert_log w ++ [row] -> outbox w' = outbox w ++ [msg] ->
    alert_outcome row msg n w (Ok (S n)) w'
| check_failed e w' :
    same_records w w' ->
    alert_outcome row msg n w (Throw (StoreError e)) w'
| delivery_failed e w' :
    ~ In row (alert_log w) -> delivery_failure e -> same_records w w' ->
    alert_outcome row msg n w (Throw e) w'
| record_failed e w' :
    ~ In row (alert_log w) ->
    alert_log w' = alert_log w -> outbox w' = outbox w ++ [msg] ->
    alert_outcome row msg n w (Throw (StoreError e)) w'.

(** Two runs that reach the same alert at the same time: each of them
    checks before the other has recorded. *)
Definition overlappingRuns (env : Env) (row : AlertLogRow) (msg : Message)
  : M (bool * bool) :=
  first <- alreadyLogged env (treatment_id row) (alert_type row)
                         (alert_date row) ;;
  second <- alreadyLogged env (treatment_id row) (alert_type row)
                          (alert_date row) ;;
  _ <- (if negb first then telegramSend env msg else ret tt) ;;
  _ <- (if negb second then telegramSend env msg else ret tt) ;;
  _ <- (if negb first
        then insertLog env (treatment_id row) (alert_type row) (alert_date row)
        else ret tt) ;;
  _ <- (if negb second
        then insertLog env (treatment_id row) (alert_type row) (alert_date row)
        else ret tt) ;;
  ret (first, second).

(** The day offset of a treatment last applied on [lastAppliedOn]. *)
Definition daysFor (nowSP : Date) (t : TreatmentRow) (lastAppliedOn : ISODate)
  : Z :=
  daysToNext (calcNextDate (parseLocalMidnight lastAppliedOn)
                           (interval_value t) (interval_unit t)) nowSP.

(** The alert-log rows of the alerts a treatment is due today. *)
Definition dueRows (env : Env) (nowSP : Date) (todayKey : ISODate)
  (t : TreatmentRow) : list AlertLogRow :=
  match lastApplication env (id t) with
  | [] => []
  | lastAppliedOn :: _ =>
      if nextValid env t lastAppliedOn then
        let days := daysFor nowSP t lastAppliedOn in
        (if includes (resolveAlerts t) days
         then [upcomingRow todayKey t days] else []) ++
        (if days <? 0 then [overdueRow todayKey t] else [])
      else []
  end.

Definition treatmentsOf (env : Env) (petId : string) : list TreatmentRow :=
  order_by_category_name env
    (filter (fun t => treatment_pet_id t =? petId)%string (treatments env)).

Definition ownerPets (env : Env) : list PetRow :=
  match nodup string_dec
          (map member_pet_id
               (filter (fun m => member_role m =? "owner")%string
                       (pet_members env))) with
  | [] => []
  | petIds =>
      filter (fun p => existsb (String.eqb (pet_id p)) petIds) (pets env)
  end.

(** The rows of all alerts due in a run. *)
Definition allDueRows (env : Env) : list AlertLogRow :=
  let nowSP := toZone env (clock env) in
  let todayKey := isoDateSP env nowSP in
  flat_map (fun pet => flat_map (dueRows env nowSP todayKey)
                                (treatmentsOf env (pet_id pet)))
           (ownerPets env).

End ZeusAlertsSpec.

Module SendAlertsSpec.
Import ES DateFns Store StoreSpec SendAlerts.

(** The shape both alert blocks of the loop body share. *)
Definition claimThenNotify (env : Env) (row : AlertLogRow) (msg : Message)
  : M unit :=
  already <- alreadyLogged env (treatment_id row) (alert_type row)
                           (alert_date row) ;;
  if negb already then telegramSend env msg else ret tt.

(** The four ways an alert block ends. *)
Inductive alert_outcome (row : AlertLogRow) (msg : Message) (w : World)
  : Outcome unit -> World -> Prop :=
| already_claimed w' :
    In row (alert_log w) -> same_records w w' ->
    alert_outcome row msg w (Ok tt) w'
| notified w' :
    ~ In row (alert_log w) ->
    alert_log w' = alert_log w ++ [row] -> outbox w' = outbox w ++ [msg] ->
    alert_outcome row msg w (Ok tt) w'
| claim_failed e w' :
    same_records w w' ->
    alert_outcome row msg w (Throw (StoreError e)) w'
| claimed_undelivered e w' :
    ~ In row (alert_log w) -> delivery_failure e ->
    alert_log w' = alert_log w ++ [row] -> outbox w' = outbox w ->
    alert_outcome row msg w (Throw e) w'.

(** Two runs that reach the same alert at the same time: the second claims
    before the first has notified. *)
Definition overlappingRuns (env : Env) (row : AlertLogRow) (msg : Message)
  : M (bool * bool) :=
  first <- alreadyLogged env (treatment_id row) (alert_type row)
                         (alert_date row) ;;
  second <- alreadyLogged env (treatment_id row) (alert_type row)
                          (alert_date row) ;;
  _ <- (if negb first then telegramSend env msg else ret tt) ;;
  _ <- (if negb second then telegramSend env msg else ret tt) ;;
  ret (first, second).

Definition daysFor (nowSP : Date) (t : TreatmentRow) (lastAppliedOn : ISODate)
  : Z :=
  differenceInCalendarDays
    (calcNextDate (parseLocalMidnight lastAppliedOn)
                  (interval_value t) (interval_unit t)) nowSP.

Definition overdueRow (todayISO : ISODate) (t : TreatmentRow) : AlertLogRow :=
  mkAlertLog (id t) "overdue_daily"%string todayISO.

Definition dueRow (todayISO : ISODate) (t : TreatmentRow) (days : Z)
  : AlertLogRow :=
  mkAlertLog (id t) ("due_in_" ++ string_of_Z days)%string todayISO.

(** The alert-log row of the alert a treatment is due today, if any. *)
Definition dueRows (env : Env) (nowSP : Date) (todayISO : ISODate)
  (t : TreatmentRow) : list AlertLogRow :=
  match lastApplication env (id t) with
  | [] => []
  | lastAppliedOn :: _ =>
      if nextValid env t lastAppliedOn then
        let days := daysFor nowSP t lastAppliedOn in
        if days <? 0 then [overdueRow todayISO t]
        else if includes (resolveAlerts t) days then [dueRow todayISO t days]
        else []
      else []
  end.

(** The rows of all alerts due in a run. *)
Definition allDueRows (env : Env) : list AlertLogRow :=
  let nowSP := toZone env (clock env) in
  let todayISO := toISODate nowSP in
  match firstn 1 (filter (fun p => pet_name p =? "Zeus")%string (pets env)) with
  | [] => []
  | zeus :: _ =>
      flat_map (dueRows env nowSP todayISO)
               (filter (fun t => treatment_pet_id t =? pet_id zeus)%string
                       (treatments env))
  end.

End SendAlertsSpec.

Module RunnerSpec.
Import ES Store StoreSpec.

(** The pet has a member with the role owner. *)
Definition hasOwner (env : Env) (p : PetRow) : bool :=
  existsb (fun m => (member_role m =? "owner")%string &&
                    (member_pet_id m =? pet_id p)%string)
          (pet_members env).

(** The error is one a collaborator caused: a fault of the store, a request
    to the channel that failed, or an answer of the channel that is not a
    success. *)
Definition blamed (env : Env) (e : Error) : Prop :=
  (exists n f, store_faults env n = Some f /\ e = StoreError (fault_error f)) \/
  (exists n, channel env n = NetworkError /\ e = FetchFailed) \/
  (exists n status, channel env n = HttpResponse status /\
                    ok status = false /\ e = TelegramError status).

(** The treatments a run of the scheduled script reads: those of the pets
    that have an owner. *)
Definition zeusTreatments (env : Env) : list TreatmentRow :=
  flat_map (fun pet => ZeusAlertsSpec.treatmentsOf env (pet_id pet))
           (ZeusAlertsSpec.ownerPets env).

(** The treatment has an application and no valid next date: its interval
    leaves the range of [Date], or its last application does not read as a
    date. *)
Definition noNextDate (env : Env) (t : TreatmentRow) : Prop :=
  exists lastAppliedOn,
    hd_error (lastApplication env (id t)) = Some lastAppliedOn /\
    nextValid env t lastAppliedOn = false.

(** Store and channel work at every request. *)
Definition healthy (env : Env) : Prop :=
  (forall n, store_faults env n = None) /\
  (forall n, exists status, channel env n = HttpResponse status /\
                            ok status = true).

(** The world [w'] is [w] with [rows] added to the alert log and [msgs] to
    the messages delivered. *)
Definition appended (w w' : World) (rows : list AlertLogRow)
  (msgs : list Message) : Prop :=
  alert_log w' = alert_log w ++ rows /\ outbox w' = outbox w ++ msgs.

(** The accounts of the scheduled script: a computation that starts with the
    count [n] only appends; when it completes, its count has grown by the
    number of rows logged, which is the number of messages delivered; when it
    throws, every row logged has its message delivered, and at most one
    message delivered has no row. *)
Definition zeus_accounted (n : nat) (w : World) (r : Outcome nat) (w' : World)
  : Prop :=
  exists rows msgs,
    appended w w' rows msgs /\
    match r with
    | Ok n' => n' = (n + List.length rows)%nat /\
               List.length msgs = List.length rows
    | Throw _ => (List.length rows <= List.length msgs <= List.length rows + 1)%nat
    end.

(** The accounts of scripts/send-alerts.js: a computation only appends; when
    it completes, every row logged has its message delivered; when it throws,
    every message delivered has its row, and at most one row logged has no
    message. *)
Definition send_accounted {A} (w : World) (r : Outcome A) (w' : World) : Prop :=
  exists rows msgs,
    appended w w' rows msgs /\
    match r with
    | Ok _ => List.length msgs = List.length rows
    | Throw _ => (List.length msgs <= List.length rows <= List.length msgs + 1)%nat
    end.

(** At most one row and one message were added. *)
Definition at_most_one (w w' : World) : Prop :=
  exists rows msgs,
    appended w w' rows msgs /\
    (List.length rows <= 1)%nat /\ (List.length msgs <= 1)%nat.

End RunnerSpec.

Module AgendaSpec.
Import ES DateFnsCalendar Store Agenda.

(** The item is due on the day [key]. *)
Definition dueOn (key : ISODate) (it : AgendaItem) : bool :=
  match nextDate it with
  | Some d => ISODate_eqb (isoDateLocal d) key
  | None => false
  end.

Definition hasStatus (st : Schedule.Status) (it : AgendaItem) : bool :=
  match daysToNext it with
  | Some d => Status_eqb (Schedule.statusFromDays d) st
  | None => false
  end.

Definition count (f : AgendaItem -> bool) (l : list AgendaItem) : Z :=
  Z.of_nat (List.length (filter f l)).

(** The entry of a day that holds exactly the items [group]. *)
Definition entryOf (group : list AgendaItem) : DayEntry :=
  mkEntry group (count (hasStatus Schedule.overdue) group)
          (count (hasStatus Schedule.upcoming) group)
          (Z.of_nat (List.length group)).

Definition sortEntry (byName : list AgendaItem -> list AgendaItem)
  (e : DayEntry) : DayEntry :=
  mkEntry (byName (items e)) (overdueCount e) (upcomingCount e) (total e).

Definition keys (m : DayMap) : list ISODate := map fst m.

(** A consistent comparison, as [Array.prototype.sort] asks for one: the
    sign of the result flips when the arguments are exchanged, and not being
    above is transitive. *)
Definition consistent (localeCompare : string -> string -> Z) : Prop :=
  (forall a b, Z.sgn (localeCompare b a) = - Z.sgn (localeCompare a b)) /\
  (forall a b c, localeCompare a b <= 0 -> localeCompare b c <= 0 ->
                 localeCompare a c <= 0).

(** The name of [a] does not compare above the name of [b]. *)
Definition inNameOrder (localeCompare : string -> string -> Z)
  (a b : AgendaItem) : Prop :=
  localeCompare (treatmentName a) (treatmentName b) <= 0.

(** The name of the item compares equal to [name]. *)
Definition sameName (localeCompare : string -> string -> Z) (name : string)
  (x : AgendaItem) : bool :=
  localeCompare (treatmentName x) name =? 0.

(** The cell of the grid at position [i], counted from 0. *)
Definition cellAt (calMonth : Date) (i : nat) : Date :=
  gridStart calMonth + Z.of_nat i * msPerDay.

(** The number of cells before the first of the month. *)
Definition leadingCells (calMonth : Date) : Z :=
  Day (startOfMonth calMonth) - Day (gridStart calMonth).


End AgendaSpec.

(* ================================================================== *)
(** ** Calendar lemmas *)

Module ESFacts.
Import ES.

Lemma isLeapYear_spec y :
  isLeapYear y = true <->
  (y mod 4 = 0 /\ (y mod 100 <> 0 \/ y mod 400 = 0)).
Proof.
  unfold isLeapYear.
  destruct (Z.eqb_spec (y mod 4) 0), (Z.eqb_spec (y mod 100) 0),
    (Z.eqb_spec (y mod 400) 0); simpl; split; intros; try lia;
    try discriminate; try reflexivity.
Qed.

Lemma DayFromYear_succ y : DayFromYear (y + 1) = DayFromYear y + DaysInYear y.
Proof.
  unfold DayFromYear, DaysInYear, isLeapYear.
  destruct (Z.eqb_spec (y mod 4) 0), (Z.eqb_spec (y mod 100) 0),
    (Z.eqb_spec (y mod 400) 0); cbv [negb]; lia.
Qed.

Lemma DaysInYear_cases y : DaysInYear y = 365 \/ DaysInYear y = 366.
Proof. unfold DaysInYear. destruct (isLeapYear y); auto. Qed.

Lemma DayFromYear_mono a b : a <= b -> DayFromYear a <= DayFromYear b.
Proof. unfold DayFromYear. lia. Qed.

Lemma DayFromYear_lt a b : a < b -> DayFromYear a < DayFromYear b.
Proof. unfold DayFromYear. lia. Qed.

Lemma YearFromDay_bounds d :
  DayFromYear (YearFromDay d) <= d < DayFromYear (YearFromDay d + 1).
Proof.
  unfold YearFromDay.
  set (y := 1970 + 400 * d / 146097).
  assert (Hlo : DayFromYear (y - 1) <= d).
  { unfold DayFromYear, y. lia. }
  assert (Hhi : d < DayFromYear (y + 2)).
  { unfold DayFromYear, y. lia. }
  destruct (Z.ltb_spec d (DayFromYear y)).
  - replace (y - 1 + 1) with y by lia. lia.
  - destruct (Z.leb_spec (DayFromYear (y + 1)) d).
    + replace (y + 1 + 1) with (y + 2) by lia. lia.
    + lia.
Qed.

Lemma YearFromDay_unique d y :
  DayFromYear y <= d < DayFromYear (y + 1) -> YearFromDay d = y.
Proof.
  intros Hy. pose proof (YearFromDay_bounds d) as Hb.
  destruct (Z.lt_trichotomy (YearFromDay d) y) as [Hlt | [Heq | Hgt]]; auto.
  - assert (DayFromYear (YearFromDay d + 1) <= DayFromYear y)
      by (apply DayFromYear_mono; lia). lia.
  - assert (DayFromYear (y + 1) <= DayFromYear (YearFromDay d))
      by (apply DayFromYear_mono; lia). lia.
Qed.

Lemma monthOfDay_range dwy leap : 0 <= monthOfDay dwy leap <= 11.
Proof.
  unfold monthOfDay.
  repeat match goal with |- context [?a <? ?b] => destruct (a <? b) end; lia.
Qed.

Lemma MonthFromTime_range t : 0 <= MonthFromTime t <= 11.
Proof. apply monthOfDay_range. Qed.

Lemma DayWithinYear_range t :
  0 <= DayWithinYear t < DaysInYear (YearFromTime t).
Proof.
  unfold DayWithinYear, YearFromTime.
  pose proof (YearFromDay_bounds (Day t)) as Hb.
  rewrite DayFromYear_succ in Hb. lia.
Qed.

Lemma InLeapYear_DaysInYear t :
  DaysInYear (YearFromTime t) = 365 + InLeapYear t.
Proof. unfold DaysInYear, InLeapYear. destruct (isLeapYear _); reflexivity. Qed.

(** The month of a day lies where the table of month starts puts it. *)
Lemma monthOfDay_spec dwy leap m :
  (leap = 0 \/ leap = 1) -> 0 <= m <= 11 ->
  monthStart m leap <= dwy < monthStart m leap +
    match m with
    | 1 => 28 + leap
    | 3 | 5 | 8 | 10 => 30
    | _ => 31
    end ->
  monthOfDay dwy leap = m.
Proof.
  intros Hl Hm H.
  assert (Hc : m = 0 \/ m = 1 \/ m = 2 \/ m = 3 \/ m = 4 \/ m = 5 \/ m = 6 \/
               m = 7 \/ m = 8 \/ m = 9 \/ m = 10 \/ m = 11) by lia.
  unfold monthOfDay.
  repeat match goal with
         | |- context [?a <? ?b] => destruct (Z.ltb_spec a b)
         end;
    repeat (destruct Hc as [-> | Hc]; [cbn [monthStart] in H; lia |]);
    subst m; cbn [monthStart] in H; lia.
Qed.

Lemma daysInMonth_table y m :
  daysInMonth y m =
    match m with
    | 1 => 28 + (if isLeapYear y then 1 else 0)
    | 3 | 5 | 8 | 10 => 30
    | _ => 31
    end.
Proof.
  unfold daysInMonth.
  destruct (isLeapYear y); destruct m as [| p | p]; try reflexivity;
    do 4 (try (destruct p as [p | p |]; try reflexivity)).
Qed.

(** Every time value decomposes into a valid civil date. *)
Lemma DateFromTime_range t :
  1 <= DateFromTime t <= daysInMonth (YearFromTime t) (MonthFromTime t).
Proof.
  pose proof (DayWithinYear_range t) as Hd.
  rewrite InLeapYear_DaysInYear in Hd.
  rewrite daysInMonth_table.
  unfold DateFromTime, MonthFromTime.
  assert (Hl : InLeapYear t = (if isLeapYear (YearFromTime t) then 1 else 0))
    by reflexivity.
  rewrite <- Hl.
  assert (Hl' : InLeapYear t = 0 \/ InLeapYear t = 1)
    by (rewrite Hl; destruct (isLeapYear _); auto).
  clear Hl. revert Hd Hl'.
  generalize (InLeapYear t) (DayWithinYear t). intros leap dwy Hd Hl'.
  unfold monthOfDay.
  repeat match goal with
         | |- context [?a <? ?b] => destruct (Z.ltb_spec a b)
         end; cbn [monthStart]; lia.
Qed.

(** Composing the civil date of [t] again gives the day of [t]; a day-of-month
    beyond the month's length runs over into the following months. *)
Lemma MakeDay_of_civil t n :
  MakeDay (YearFromTime t) (MonthFromTime t) (DateFromTime t + n) = Day t + n.
Proof.
  pose proof (MonthFromTime_range t) as Hm.
  unfold MakeDay.
  replace (MonthFromTime t / 12) with 0 by lia.
  replace (MonthFromTime t mod 12) with (MonthFromTime t) by lia.
  rewrite Z.add_0_r.
  unfold DateFromTime, DayWithinYear, InLeapYear. lia.
Qed.

Lemma Day_MakeDate d tm : 0 <= tm < msPerDay -> Day (MakeDate d tm) = d.
Proof. unfold Day, MakeDate, msPerDay. lia. Qed.

Lemma TimeWithinDay_MakeDate d tm :
  0 <= tm < msPerDay -> TimeWithinDay (MakeDate d tm) = tm.
Proof. unfold TimeWithinDay, MakeDate, msPerDay. lia. Qed.

Lemma TimeWithinDay_range t : 0 <= TimeWithinDay t < msPerDay.
Proof. unfold TimeWithinDay, msPerDay. lia. Qed.

Lemma MakeDate_Day t : MakeDate (Day t) (TimeWithinDay t) = t.
Proof. unfold MakeDate, Day, TimeWithinDay, msPerDay. lia. Qed.

Lemma MakeDay_in_year y m d :
  0 <= m <= 11 ->
  MakeDay y m d =
  DayFromYear y + monthStart m (if isLeapYear y then 1 else 0) + d - 1.
Proof.
  intros Hm. unfold MakeDay.
  replace (m / 12) with 0 by lia. replace (m mod 12) with m by lia.
  rewrite Z.add_0_r. reflexivity.
Qed.

(** Decomposing a composed civil date gives the date back. *)
Lemma civil_of_MakeDay t y m d :
  0 <= m <= 11 -> 1 <= d <= daysInMonth y m ->
  Day t = MakeDay y m d ->
  YearFromTime t = y /\ MonthFromTime t = m /\ DateFromTime t = d.
Proof.
  intros Hm Hd Ht.
  rewrite daysInMonth_table in Hd.
  unfold MakeDay in Ht.
  replace (m / 12) with 0 in Ht by lia.
  replace (m mod 12) with m in Ht by lia.
  rewrite Z.add_0_r in Ht.
  set (leap := if isLeapYear y then 1 else 0) in *.
  assert (Hl : leap = 0 \/ leap = 1) by (unfold leap; destruct (isLeapYear y); auto).
  assert (Hdy : DaysInYear y = 365 + leap)
    by (unfold DaysInYear, leap; destruct (isLeapYear y); reflexivity).
  assert (Hc : m = 0 \/ m = 1 \/ m = 2 \/ m = 3 \/ m = 4 \/ m = 5 \/ m = 6 \/
               m = 7 \/ m = 8 \/ m = 9 \/ m = 10 \/ m = 11) by lia.
  assert (Hy : YearFromTime t = y).
  { unfold YearFromTime. apply YearFromDay_unique.
    rewrite DayFromYear_succ, Hdy, Ht.
    repeat (destruct Hc as [-> | Hc]; [cbn [monthStart] in *; lia |]).
    subst m; cbn [monthStart] in *; lia. }
  assert (Hw : DayWithinYear t = monthStart m leap + d - 1)
    by (unfold DayWithinYear; rewrite Hy; lia).
  assert (Hil : InLeapYear t = leap) by (unfold InLeapYear; rewrite Hy; reflexivity).
  assert (Hmo : MonthFromTime t = m).
  { unfold MonthFromTime. rewrite Hw, Hil.
    apply monthOfDay_spec; auto.
    repeat (destruct Hc as [-> | Hc]; [cbn [monthStart] in *; lia |]).
    subst m; cbn [monthStart] in *; lia. }
  repeat split; auto.
  unfold DateFromTime. rewrite Hmo, Hw, Hil. lia.
Qed.

(** Day zero of a month is the last day of the month before it. *)
Lemma MakeDay_day_zero year month :
  MakeDay year (month + 1) 0 =
  MakeDay (year + month / 12) (month mod 12)
          (daysInMonth (year + month / 12) (month mod 12)).
Proof.
  rewrite daysInMonth_table.
  unfold MakeDay.
  replace (month mod 12 / 12) with 0 by lia.
  replace (month mod 12 mod 12) with (month mod 12) by lia.
  rewrite !Z.add_0_r.
  assert (Hr : 0 <= month mod 12 < 12) by lia.
  assert (Hc : month mod 12 = 11 \/ month mod 12 < 11) by lia.
  destruct Hc as [H11 | Hlt].
  - replace ((month + 1) / 12) with (month / 12 + 1) by lia.
    replace ((month + 1) mod 12) with 0 by lia.
    rewrite H11. rewrite Z.add_assoc, DayFromYear_succ.
    unfold DaysInYear. cbn [monthStart].
    destruct (isLeapYear (year + month / 12)); lia.
  - replace ((month + 1) / 12) with (month / 12) by lia.
    replace ((month + 1) mod 12) with (month mod 12 + 1) by lia.
    generalize dependent (month mod 12). intros m Hr Hlt.
    assert (Hc : m = 0 \/ m = 1 \/ m = 2 \/ m = 3 \/ m = 4 \/ m = 5 \/ m = 6 \/
                 m = 7 \/ m = 8 \/ m = 9 \/ m = 10) by lia.
    destruct (isLeapYear (year + month / 12));
      repeat (destruct Hc as [Hc | Hc]); subst m;
      match goal with
      | |- context [monthStart (?a + 1) _] =>
          let v := eval compute in (a + 1) in change (a + 1) with v
      end; cbn [monthStart]; lia.
Qed.

End ESFacts.

(* ================================================================== *)
(** ** date-fns lemmas *)

Module DateFnsFacts.
Import ES DateFns ESFacts.

Lemma addDays_spec t n : addDays t n = t + n * msPerDay.
Proof.
  unfold addDays. destruct (Z.eqb_spec n 0) as [-> | _]; [lia |].
  unfold setDate, getDate. rewrite MakeDay_of_civil.
  unfold MakeDate, Day, TimeWithinDay, msPerDay. lia.
Qed.

Lemma Day_addDays t n : Day (addDays t n) = Day t + n.
Proof. rewrite addDays_spec. unfold Day, msPerDay. lia. Qed.

Lemma TimeWithinDay_addDays t n :
  TimeWithinDay (addDays t n) = TimeWithinDay t.
Proof. rewrite addDays_spec. unfold TimeWithinDay, msPerDay. lia. Qed.


Lemma differenceInCalendarDays_spec l r :
  differenceInCalendarDays l r = Day l - Day r.
Proof.
  unfold differenceInCalendarDays, startOfDay, setHours0, MakeDate, msPerDay.
  lia.
Qed.

Lemma differenceInCalendarDays_same_day l r r' :
  Day r = Day r' ->
  differenceInCalendarDays l r = differenceInCalendarDays l r'.
Proof. intros H. rewrite !differenceInCalendarDays_spec. lia. Qed.

Lemma daysInMonth_pos y m : 28 <= daysInMonth y m <= 31.
Proof.
  rewrite daysInMonth_table.
  destruct (isLeapYear y); destruct m as [| p | p]; try lia;
    do 4 (try (destruct p as [p | p |]; try lia)).
Qed.

(** [addMonths] moves the civil date by whole months and clamps the
    day-of-month to the length of the month it arrives in. *)
Lemma addMonths_civil t n :
  let r := addMonths t n in
  getFullYear r = getFullYear t + (getMonth t + n) / 12 /\
  getMonth r = (getMonth t + n) mod 12 /\
  getDate r = Z.min (getDate t) (daysInMonth (getFullYear r) (getMonth r)) /\
  TimeWithinDay r = TimeWithinDay t.
Proof.
  unfold getFullYear, getMonth, getDate.
  pose proof (MonthFromTime_range t) as Hm.
  pose proof (DateFromTime_range t) as Hd.
  pose proof (TimeWithinDay_range t) as Htw.
  unfold addMonths. destruct (Z.eqb_spec n 0) as [-> | Hn]; cbv zeta.
  - rewrite Z.add_0_r.
    replace (MonthFromTime t / 12) with 0 by lia.
    replace (MonthFromTime t mod 12) with (MonthFromTime t) by lia.
    repeat split; lia.
  - unfold getFullYear, getMonth, getDate.
    set (Y := YearFromTime t) in *. set (M := MonthFromTime t) in *.
    set (D := DateFromTime t) in *.
    set (ty := Y + (M + n) / 12). set (tm := (M + n) mod 12).
    set (e := setMonth t (M + n + 1) 0).
    assert (Hday : Day e = MakeDay ty tm (daysInMonth ty tm)).
    { unfold e, setMonth. rewrite Day_MakeDate by assumption.
      fold Y. apply MakeDay_day_zero. }
    pose proof (daysInMonth_pos ty tm) as Hdim.
    assert (Htm : 0 <= tm <= 11) by (unfold tm; lia).
    destruct (civil_of_MakeDay e ty tm (daysInMonth ty tm) Htm
                ltac:(lia) Hday) as (Hey & Hem & Hed).
    rewrite Hey, Hem, Hed.
    destruct (Z.leb_spec (daysInMonth ty tm) D) as [Hle | Hgt].
    + rewrite Hey, Hem, Hed. repeat split; try lia.
      unfold e, setMonth. apply TimeWithinDay_MakeDate; assumption.
    + set (r := setFullYear t ty tm D).
      assert (Hr : Day r = MakeDay ty tm D)
        by (unfold r, setFullYear; apply Day_MakeDate; assumption).
      destruct (civil_of_MakeDay r ty tm D Htm ltac:(lia) Hr)
        as (Hry & Hrm & Hrd).
      rewrite Hry, Hrm, Hrd. repeat split; try lia.
      unfold r, setFullYear. apply TimeWithinDay_MakeDate; assumption.
Qed.

End DateFnsFacts.

(* ================================================================== *)
(** ** The schedule calculator *)

Module ScheduleFacts.
Import ES DateFns Schedule ScheduleSpec ESFacts DateFnsFacts.




Lemma SendAlerts_adjustWeekend d : SendAlerts.adjustWeekend d = adjustWeekend d.
Proof. reflexivity. Qed.

Lemma ZeusAlerts_adjustIfWeekend d :
  ZeusAlerts.adjustIfWeekend d = adjustWeekend d.
Proof. reflexivity. Qed.

(** The copies of [calcNextDate] in the two scripts are the function of the
    schedule module. *)
Lemma SendAlerts_calcNextDate d v unit :
  SendAlerts.calcNextDate d v unit = calcNextDate d v (unitOf unit).
Proof.
  unfold SendAlerts.calcNextDate, SendAlerts.addInterval, calcNextDate, unitOf.
  rewrite SendAlerts_adjustWeekend.
  destruct (unit =? "months")%string; reflexivity.
Qed.

Lemma ZeusAlerts_calcNextDate d v unit :
  ZeusAlerts.calcNextDate d v unit = calcNextDate d v (unitOf unit).
Proof.
  unfold ZeusAlerts.calcNextDate, ZeusAlerts.addInterval, calcNextDate, unitOf.
  cbv zeta. rewrite ZeusAlerts_adjustIfWeekend.
  destruct (unit =? "months")%string; reflexivity.
Qed.

(** C6. [statusFromDays] answers overdue exactly below zero, upcoming exactly
    from 0 to 60, later exactly above 60; in particular -1 is overdue, 0 and
    60 are upcoming and 61 is later. *)
Theorem statusFromDays_boundaries (d : Z) :
  (statusFromDays d = overdue <-> d < 0) /\
  (statusFromDays d = upcoming <-> 0 <= d <= 60) /\
  (statusFromDays d = later <-> d > 60) /\
  statusFromDays (-1) = overdue /\
  statusFromDays 0 = upcoming /\
  statusFromDays 60 = upcoming /\
  statusFromDays 61 = later.
Proof.
  unfold statusFromDays.
  destruct (Z.ltb_spec d 0); [| destruct (Z.leb_spec d 60)];
    repeat split; intros; try lia; try discriminate; reflexivity.
Qed.



(** One month after a January 31 is the last day of that February. *)
Lemma january_31_plus_one_month y jan31 r :
  Day jan31 = MakeDay y 0 31 -> r = addMonths jan31 1 ->
  getFullYear r = y /\ getMonth r = 1 /\ getDate r = daysInMonth y 1 /\
  getMonth (addDays r 1) = 2 /\ getDate (addDays r 1) = 1.
Proof.
  intros Hj ->.
  assert (H31 : 1 <= 31 <= daysInMonth y 0) by (rewrite daysInMonth_table; lia).
  destruct (civil_of_MakeDay jan31 y 0 31 ltac:(lia) H31 Hj)
    as (Hjy & Hjm & Hjd).
  destruct (addMonths_civil jan31 1) as (Hy & Hm & Hd & _).
  revert Hy Hm Hd. generalize (addMonths jan31 1). intros r.
  unfold getFullYear, getMonth, getDate.
  rewrite Hjy, Hjm, Hjd.
  replace ((0 + 1) / 12) with 0 by lia.
  replace ((0 + 1) mod 12) with 1 by lia.
  rewrite Z.add_0_r. intros Hy Hm Hd. rewrite Hy, Hm in Hd.
  assert (Hdim : daysInMonth y 1 = 28 + (if isLeapYear y then 1 else 0))
    by (rewrite daysInMonth_table; reflexivity).
  assert (Hrd : DateFromTime r = daysInMonth y 1)
    by (destruct (isLeapYear y); lia).
  assert (Hn : Day (addDays r 1) = MakeDay y 2 1).
  { rewrite Day_addDays.
    pose proof (MakeDay_of_civil r 0) as Hc.
    rewrite Hy, Hm, Hrd in Hc.
    rewrite MakeDay_in_year in Hc by lia.
    rewrite MakeDay_in_year by lia.
    cbn [monthStart] in Hc |- *. lia. }
  assert (H1 : 1 <= 1 <= daysInMonth y 2) by (rewrite daysInMonth_table; lia).
  destruct (civil_of_MakeDay _ y 2 1 ltac:(lia) H1 Hn) as (_ & Hnm & Hnd).
  repeat split; assumption.
Qed.

(** On the local time line, [addInterval] with the unit days moves a time
    by [value] whole days; with the unit months it moves the civil date by
    [value] months, at the same day of the month unless the month reached is
    shorter, and then at its last day. *)
Lemma addInterval_local_line (d : Date) (value : Z) :
  0 <= value ->
  (addInterval d value days = d + value * msPerDay /\
   daysToNext (addInterval d value days) d = value) /\
  (12 * getFullYear (addInterval d value months)
     + getMonth (addInterval d value months)
   = 12 * getFullYear d + getMonth d + value /\
   0 <= getMonth (addInterval d value months) <= 11 /\
   getDate (addInterval d value months) =
     Z.min (getDate d)
           (daysInMonth (getFullYear (addInterval d value months))
                        (getMonth (addInterval d value months))) /\
   TimeWithinDay (addInterval d value months) = TimeWithinDay d) /\
  (forall y,
     getFullYear (addInterval (MakeDate (MakeDay y 0 31) 0) 1 months) = y /\
     getMonth (addInterval (MakeDate (MakeDay y 0 31) 0) 1 months) = 1 /\
     getDate (addInterval (MakeDate (MakeDay y 0 31) 0) 1 months)
       = daysInMonth y 1 /\
     getMonth (addDays (addInterval (MakeDate (MakeDay y 0 31) 0) 1 months) 1)
       = 2 /\
     getDate (addDays (addInterval (MakeDate (MakeDay y 0 31) 0) 1 months) 1)
       = 1).
Proof.
  intros _. split; [| split].
  - cbn [addInterval]. unfold daysToNext.
    rewrite differenceInCalendarDays_spec, Day_addDays, addDays_spec. lia.
  - cbn [addInterval].
    destruct (addMonths_civil d value) as (Hy & Hm & Hd & Ht).
    pose proof (MonthFromTime_range d) as Hr. unfold getMonth in *.
    repeat split; try assumption; lia.
  - intros y. apply january_31_plus_one_month with (jan31 := MakeDate (MakeDay y 0 31) 0).
    + apply Day_MakeDate. unfold msPerDay. lia.
    + reflexivity.
Qed.

End ScheduleFacts.

(* ================================================================== *)
(** ** Date objects in a zone with a fixed offset *)

Module DateObjectFacts.
Import DateObject DateFnsObject ScheduleObject.
Import ES ESFacts DateFnsFacts ScheduleFacts.

Lemma TimeClip_Some time r :
  TimeClip time = Some r -> r = time /\ Z.abs time <= maxTime.
Proof.
  unfold TimeClip.
  destruct (Z.leb_spec (Z.abs time) maxTime) as [Hle | Hgt]; [| discriminate].
  intros H. inversion H; subst. split; [reflexivity | exact Hle].
Qed.

Lemma TimeClip_valid time : Z.abs time <= maxTime -> TimeClip time = Some time.
Proof.
  intros H. unfold TimeClip.
  destruct (Z.leb_spec (Z.abs time) maxTime) as [Hle | Hgt]; [reflexivity | lia].
Qed.

Lemma addDays_invalid tz n : addDays tz None n = None.
Proof. unfold addDays. destruct (n =? 0); reflexivity. Qed.

Lemma adjustWeekend_invalid tz : adjustWeekend tz None = None.
Proof. reflexivity. Qed.

Lemma addInterval_invalid tz v u : addInterval tz None v u = None.
Proof.
  destruct u; cbn [addInterval]; [apply addDays_invalid |].
  unfold addMonths. destruct (v =? 0); reflexivity.
Qed.

(** An invalid date stays invalid. *)
Lemma calcNextDate_invalid tz v u : calcNextDate tz None v u = None.
Proof. unfold calcNextDate. rewrite addInterval_invalid. reflexivity. Qed.

Section FixedOffset.

Variable tz : TimeZone.
Variable offset : Z.
Hypothesis atUTC : forall t, offsetAtUTC tz t = offset.
Hypothesis atLocal : forall t, offsetAtLocal tz t = offset.

Lemma LocalTime_fixed t : LocalTime tz t = t + offset.
Proof. unfold LocalTime. rewrite atUTC. reflexivity. Qed.

Lemma UTC_fixed t : UTC tz t = t - offset.
Proof. unfold UTC. rewrite atLocal. reflexivity. Qed.

Lemma LocalTime_UTC t : LocalTime tz (UTC tz t) = t.
Proof. rewrite LocalTime_fixed, UTC_fixed. lia. Qed.

(** On a valid date [addDays] is the function of the local time line,
    clipped. *)
Lemma addDays_fixed d n :
  Z.abs d <= maxTime ->
  addDays tz (Some d) n = TimeClip (UTC tz (DateFns.addDays (LocalTime tz d) n)).
Proof.
  intros Hd. unfold addDays, DateFns.addDays.
  destruct (n =? 0).
  - rewrite UTC_fixed, LocalTime_fixed.
    replace (d + offset - offset) with d by lia.
    symmetry. apply TimeClip_valid. exact Hd.
  - reflexivity.
Qed.

(** [addMonths] is the function of the local time line, clipped, as long as
    the last day of the month it reaches is a valid date. *)
Lemma addMonths_fixed d n :
  Z.abs d <= maxTime ->
  addMonths tz (Some d) n =
  if n =? 0 then Some d
  else
    match TimeClip (UTC tz (ES.setMonth (LocalTime tz d)
                              (ES.getMonth (LocalTime tz d) + n + 1) 0)) with
    | Some _ => TimeClip (UTC tz (DateFns.addMonths (LocalTime tz d) n))
    | None => None
    end.
Proof.
  intros Hd. unfold addMonths, DateFns.addMonths.
  destruct (n =? 0); [reflexivity |].
  cbv zeta.
  cbn [DateObject.getMonth DateObject.getDate plus DateObject.setMonth].
  replace (MonthFromTime (LocalTime tz d) + (n + 1))
    with (ES.getMonth (LocalTime tz d) + n + 1) by (unfold ES.getMonth; lia).
  set (e := ES.setMonth (LocalTime tz d) (ES.getMonth (LocalTime tz d) + n + 1) 0).
  destruct (TimeClip (UTC tz e)) as [eu |] eqn:Ee.
  - apply TimeClip_Some in Ee. destruct Ee as [-> He].
    cbn [DateObject.getDate DateObject.getMonth DateObject.getFullYear
         greaterOrEqual DateObject.setFullYear].
    rewrite LocalTime_UTC. unfold ES.getDate, ES.getMonth, ES.getFullYear.
    destruct (DateFromTime e <=? DateFromTime (LocalTime tz d)).
    + symmetry. apply TimeClip_valid. exact He.
    + reflexivity.
  - reflexivity.
Qed.

Lemma adjustWeekend_fixed d :
  Z.abs d <= maxTime ->
  adjustWeekend tz (Some d) =
  TimeClip (UTC tz (Schedule.adjustWeekend (LocalTime tz d))).
Proof.
  intros Hd. unfold adjustWeekend, Schedule.adjustWeekend.
  cbv zeta. cbn [DateObject.getDay strictEquals]. unfold ES.getDay.
  destruct (WeekDay (LocalTime tz d) =? 6); [apply addDays_fixed; exact Hd |].
  destruct (WeekDay (LocalTime tz d) =? 0); [apply addDays_fixed; exact Hd |].
  rewrite UTC_fixed, LocalTime_fixed.
  replace (d + offset - offset) with d by lia.
  symmetry. apply TimeClip_valid. exact Hd.
Qed.

(** A valid result of [addInterval] is the result on the local time line. *)
Lemma addInterval_fixed d v u r :
  Z.abs d <= maxTime ->
  addInterval tz (Some d) v u = Some r ->
  LocalTime tz r = Schedule.addInterval (LocalTime tz d) v u /\
  Z.abs r <= maxTime.
Proof.
  intros Hd. destruct u; cbn [addInterval Schedule.addInterval].
  - rewrite addDays_fixed by exact Hd. intros H.
    apply TimeClip_Some in H. destruct H as [-> H].
    split; [apply LocalTime_UTC | exact H].
  - rewrite addMonths_fixed by exact Hd.
    destruct (Z.eqb_spec v 0) as [-> | Hv].
    + intros H. inversion H; subst. split; [reflexivity | exact Hd].
    + destruct (TimeClip (UTC tz (ES.setMonth _ _ 0))); [| discriminate].
      intros H. apply TimeClip_Some in H. destruct H as [-> H].
      split; [apply LocalTime_UTC | exact H].
Qed.

(** A valid next date is the next date of the local time line. *)
Lemma calcNextDate_fixed d v u r :
  Z.abs d <= maxTime ->
  calcNextDate tz (Some d) v u = Some r ->
  LocalTime tz r = Schedule.calcNextDate (LocalTime tz d) v u /\
  Z.abs r <= maxTime.
Proof.
  intros Hd. unfold calcNextDate, Schedule.calcNextDate.
  destruct (addInterval tz (Some d) v u) as [r1 |] eqn:E1;
    [| rewrite adjustWeekend_invalid; discriminate].
  destruct (addInterval_fixed d v u r1 Hd E1) as [H1 Hr1].
  rewrite adjustWeekend_fixed by exact Hr1. rewrite H1.
  intros H. apply TimeClip_Some in H. destruct H as [-> H].
  split; [apply LocalTime_UTC | exact H].
Qed.

End FixedOffset.

End DateObjectFacts.

(* ================================================================== *)
(** ** The collaborators: what a request does to the world *)

Module StoreFacts.
Import DateObject ES Store StoreSpec.

Lemma ISODate_eqb_spec a b : reflect (a = b) (ISODate_eqb a b).
Proof.
  destruct a as [y m d], b as [y' m' d']. unfold ISODate_eqb. cbn.
  destruct (Z.eqb_spec y y'), (Z.eqb_spec m m'), (Z.eqb_spec d d');
    constructor; congruence.
Qed.

Lemma AlertLogRow_eqb_spec a b : reflect (a = b) (AlertLogRow_eqb a b).
Proof.
  destruct a as [i t d], b as [i' t' d']. unfold AlertLogRow_eqb. cbn.
  destruct (String.eqb_spec i i'), (String.eqb_spec t t'),
    (ISODate_eqb_spec d d'); constructor; congruence.
Qed.

Lemma logged_In row log :
  existsb (AlertLogRow_eqb row) log = true <-> In row log.
Proof.
  rewrite existsb_exists. split.
  - intros (x & Hin & Heq).
    destruct (AlertLogRow_eqb_spec row x); [subst; assumption | discriminate].
  - intros Hin. exists row. split; [assumption |].
    destruct (AlertLogRow_eqb_spec row row); congruence.
Qed.

Lemma first_match_logged row log :
  (0 <? List.length (firstn 1 (filter (AlertLogRow_eqb row) log)))%nat =
  existsb (AlertLogRow_eqb row) log.
Proof.
  induction log as [| x log IH]; [reflexivity |].
  cbn [filter existsb]. destruct (AlertLogRow_eqb row x); [reflexivity |].
  exact IH.
Qed.

Lemma fault_not_unique_violation f :
  (code (fault_error f) =? "23505")%string = false.
Proof. destruct f; reflexivity. Qed.

Lemma same_records_refl w : same_records w w.
Proof. split; reflexivity. Qed.

Lemma same_records_trans a b c :
  same_records a b -> same_records b c -> same_records a c.
Proof. unfold same_records. intros [] []. split; congruence. Qed.

Lemma same_records_next w : same_records w (next_request w).
Proof. split; reflexivity. Qed.

Lemma grows_refl w : grows w w.
Proof. split; apply incl_refl. Qed.

Lemma grows_trans a b c : grows a b -> grows b c -> grows a c.
Proof. intros [] []. split; eapply incl_tran; eassumption. Qed.

Lemma same_records_grows w w' : same_records w w' -> grows w w'.
Proof. intros [Hl Ho]. unfold grows. rewrite Hl, Ho. split; apply incl_refl. Qed.

Lemma select_run {A} env (rows : World -> A) w :
  select env rows w =
  (Ok match store_faults env (requests w) with
      | Some f => Failure (fault_error f)
      | None => Data (rows w)
      end, next_request w).
Proof. unfold select. destruct (store_faults env (requests w)); reflexivity. Qed.

Lemma insertAlertLog_cases env row w :
  (exists f, store_faults env (requests w) = Some f /\
             insertAlertLog env row w =
             (Ok (Some (fault_error f)), next_request w)) \/
  (store_faults env (requests w) = None /\ In row (alert_log w) /\
   insertAlertLog env row w = (Ok (Some unique_violation), next_request w)) \/
  (store_faults env (requests w) = None /\ ~ In row (alert_log w) /\
   insertAlertLog env row w =
   (Ok None, mkWorld (alert_log w ++ [row]) (outbox w) (S (requests w)))).
Proof.
  unfold insertAlertLog.
  destruct (store_faults env (requests w)) as [f |].
  - left. exists f. split; reflexivity.
  - right. destruct (existsb (AlertLogRow_eqb row) (alert_log w)) eqn:E.
    + left. apply logged_In in E. repeat split; assumption.
    + right. repeat split. intros Hin. apply logged_In in Hin. congruence.
Qed.

Lemma fetchSendMessage_cases env text w :
  (exists status, channel env (requests w) = HttpResponse status /\
     ok status = true /\
     fetchSendMessage env text w =
     (Ok status, mkWorld (alert_log w) (outbox w ++ [text]) (S (requests w)))) \/
  (exists status, channel env (requests w) = HttpResponse status /\
     ok status = false /\
     fetchSendMessage env text w = (Ok status, next_request w)) \/
  (channel env (requests w) = NetworkError /\
   fetchSendMessage env text w = (Throw FetchFailed, next_request w)).
Proof.
  unfold fetchSendMessage.
  destruct (channel env (requests w)) as [status |].
  - destruct (ok status) eqn:E.
    + left. exists status. repeat split; assumption.
    + right. left. exists status. repeat split; assumption.
  - right. right. split; reflexivity.
Qed.

(** *** Loops *)

Lemma forEach_forEachWith {A} (l : list A) (body : A -> M unit) w :
  forEach l body w = forEachWith l (fun _ x => body x) tt w.
Proof.
  revert w. induction l as [| x l IH]; intros w; [reflexivity |].
  cbn [forEach forEachWith]. unfold bind.
  destruct (body x w) as [[[] | e] w1]; [apply IH | reflexivity].
Qed.

(** *** The alert-log rows a computation claims *)

Lemma claims_quiet {A} w (r : Outcome A) w' :
  same_records w w' -> claims [] w r w'.
Proof.
  intros Hs. pose proof Hs as [Hl Ho]. repeat split.
  - rewrite Hl. apply incl_refl.
  - rewrite Ho. apply incl_refl.
  - intros x Hx. left. rewrite <- Hl. exact Hx.
  - intros _ x [].
  - assumption.
  - assumption.
Qed.

Lemma claims_throw {A B} rows w e w' :
  claims rows w (@Throw A e) w' -> claims rows w (@Throw B e) w'.
Proof.
  intros (H1 & H2 & _ & H4).
  split; [exact H1 |]. split; [exact H2 |]. split; [intros [] | exact H4].
Qed.

Lemma claims_more {A} rows rows' w (r : Outcome A) w' :
  claims rows w r w' -> ~ completed r -> claims (rows ++ rows') w r w'.
Proof.
  intros (H1 & H2 & _ & H4) Hn.
  split; [exact H1 |]. split; [| split].
  - intros x Hx. destruct (H2 x Hx); [left | right; apply in_or_app; left];
      assumption.
  - intros Hc. contradiction.
  - intros Hin. apply H4. intros x Hx. apply Hin, in_or_app. left. exact Hx.
Qed.

Lemma claims_seq {A B} rows1 rows2 w (a : A) w1 (r : Outcome B) w2 :
  claims rows1 w (Ok a) w1 -> claims rows2 w1 r w2 ->
  claims (rows1 ++ rows2) w r w2.
Proof.
  intros (G1 & N1 & C1 & S1) (G2 & N2 & C2 & S2).
  split; [eapply grows_trans; eassumption |]. split; [| split].
  - intros x Hx. destruct (N2 x Hx) as [Hx1 | Hx2].
    + destruct (N1 x Hx1); [left | right; apply in_or_app; left]; assumption.
    + right. apply in_or_app. right. exact Hx2.
  - intros Hc x Hx. apply in_app_or in Hx. destruct Hx as [Hx | Hx].
    + apply (proj1 G2). apply (C1 I). exact Hx.
    + apply (C2 Hc). exact Hx.
  - intros Hin.
    assert (H1 : same_records w w1)
      by (apply S1; intros x Hx; apply Hin, in_or_app; left; exact Hx).
    eapply same_records_trans; [exact H1 |].
    apply S2. intros x Hx. rewrite (proj1 H1). apply Hin, in_or_app.
    right. exact Hx.
Qed.

Lemma claims_bind {A B} rows1 rows2 (m : M A) (k : A -> M B) w r w' :
  (forall r1 w1, m w = (r1, w1) -> claims rows1 w r1 w1) ->
  (forall a w1 r2 w2, k a w1 = (r2, w2) -> claims rows2 w1 r2 w2) ->
  bind m k w = (r, w') -> claims (rows1 ++ rows2) w r w'.
Proof.
  intros Hm Hk Hrun. unfold bind in Hrun.
  destruct (m w) as [[a | e] w1] eqn:Em.
  - eapply claims_seq; [apply Hm; reflexivity | eapply Hk; exact Hrun].
  - inversion Hrun; subst. apply claims_more; [| intros []].
    apply (@claims_throw A B). apply Hm. reflexivity.
Qed.

Lemma forEachWith_claims {A S} (rowsOf : A -> list AlertLogRow)
  (l : list A) (body : S -> A -> M S) :
  (forall s x w r w', In x l -> body s x w = (r, w') ->
                      claims (rowsOf x) w r w') ->
  forall s w r w', forEachWith l body s w = (r, w') ->
                   claims (flat_map rowsOf l) w r w'.
Proof.
  induction l as [| x l IH]; intros Hbody s w r w' Hrun.
  - cbn in Hrun. unfold ret in Hrun. inversion Hrun; subst.
    apply claims_quiet, same_records_refl.
  - cbn [forEachWith] in Hrun. cbn [flat_map].
    eapply claims_bind; [| | exact Hrun].
    + intros r1 w1 H1. eapply Hbody; [left; reflexivity | exact H1].
    + intros a w1 r2 w2 H2. eapply IH; [| exact H2].
      intros s0 x0 w0 r0 w0' Hin. apply Hbody. right. exact Hin.
Qed.

Lemma claims_after_request {A} rows w (r : Outcome A) w' :
  claims rows (next_request w) r w' -> claims rows w r w'.
Proof.
  intros H.
  apply (claims_seq [] rows w tt (next_request w) r w');
    [apply claims_quiet, same_records_next | exact H].
Qed.

(** *** The dates of a run *)

Lemma zone_atUTC env t : offsetAtUTC (zone env) t = process_offset env.
Proof. reflexivity. Qed.

Lemma zone_atLocal env t : offsetAtLocal (zone env) t = process_offset env.
Proof. reflexivity. Qed.

(** A date string that gives a valid date gives local midnight of its
    fields. *)
Lemma newDate_local env iso d :
  newDate (zone env) (lenient_parse env) iso = Some d ->
  LocalTime (zone env) d = parseLocalMidnight iso /\ Z.abs d <= maxTime.
Proof.
  unfold newDate.
  destruct (wellFormed iso || lenient_parse env iso); [| discriminate].
  intros H. apply DateObjectFacts.TimeClip_Some in H. destruct H as [-> H].
  split; [| exact H].
  apply (DateObjectFacts.LocalTime_UTC (zone env) (process_offset env));
    intros; reflexivity.
Qed.

(** A valid next date is the one the schedule module computes on the local
    time line from local midnight of the last application, which is then a
    valid date too. *)
Lemma next_date_local env iso v u nextDate :
  localValue env
    (ScheduleObject.calcNextDate (zone env)
       (newDate (zone env) (lenient_parse env) iso) v u) = Some nextDate ->
  localValue env (newDate (zone env) (lenient_parse env) iso)
  = Some (parseLocalMidnight iso) /\
  nextDate = Schedule.calcNextDate (parseLocalMidnight iso) v u.
Proof.
  destruct (newDate (zone env) (lenient_parse env) iso) as [d |] eqn:Ed.
  - destruct (newDate_local env iso d Ed) as [Hl Hd].
    cbn [localValue]. rewrite Hl.
    destruct (ScheduleObject.calcNextDate (zone env) (Some d) v u)
      as [r |] eqn:Er; [| discriminate].
    destruct (DateObjectFacts.calcNextDate_fixed (zone env) (process_offset env)
                (zone_atUTC env) (zone_atLocal env) d v u r Hd Er) as [Hr _].
    cbn [localValue]. intros H. inversion H; subst.
    split; [reflexivity |]. rewrite Hr, Hl. reflexivity.
  - rewrite DateObjectFacts.calcNextDate_invalid. discriminate.
Qed.

(** Splits a turn of a loop over the treatments on whether the next date is
    valid; in the first case the dates are those of the local time line. *)
Ltac next_date_cases env t lastAppliedOn :=
  try unfold nextValid;
  destruct (localValue env
              (ScheduleObject.calcNextDate (zone env)
                 (newDate (zone env) (lenient_parse env) lastAppliedOn)
                 (interval_value t) (Schedule.unitOf (interval_unit t))))
    as [nextDate |] eqn:Enext;
  [ let El := fresh "Elast" in
    destruct (next_date_local env lastAppliedOn _ _ nextDate Enext)
      as [El ->];
    rewrite ?El
  | ].

End StoreFacts.

(* ================================================================== *)
(** ** The scheduled alert script: query, send, then insert *)

Module ZeusAlertsFacts.
Import ES DateFns Store StoreSpec StoreFacts ZeusAlerts ZeusAlertsSpec.

Lemma zeus_telegramSend_cases env msg w :
  (exists status, channel env (requests w) = HttpResponse status /\
     ok status = true /\
     telegramSend env msg w =
     (Ok tt, mkWorld (alert_log w) (outbox w ++ [msg]) (S (requests w)))) \/
  (exists e, delivery_failure e /\
     telegramSend env msg w = (Throw e, next_request w)).
Proof.
  unfold telegramSend, bind.
  destruct (fetchSendMessage_cases env msg w)
    as [(st & Hc & Hok & ->) | [(st & Hc & Hok & ->) | (Hc & ->)]];
    rewrite ?Hok.
  - left. exists st. repeat split; assumption.
  - right. exists (TelegramError st). split; [| reflexivity].
    right. exists st. split; [assumption | reflexivity].
  - right. exists FetchFailed. split; [left |]; reflexivity.
Qed.

Lemma alreadyLogged_run env treatmentId alertType alertDate w :
  alreadyLogged env treatmentId alertType alertDate w =
  (match store_faults env (requests w) with
   | Some f => Throw (StoreError (fault_error f))
   | None => Ok (existsb (AlertLogRow_eqb
                            (mkAlertLog treatmentId alertType alertDate))
                         (alert_log w))
   end, next_request w).
Proof.
  unfold alreadyLogged, bind, selectAlertLog. rewrite select_run.
  destruct (store_faults env (requests w)); [reflexivity |].
  unfold ret. rewrite first_match_logged. reflexivity.
Qed.

Lemma insertLog_cases env treatmentId alertType alertDate w :
  let row := mkAlertLog treatmentId alertType alertDate in
  (exists f, store_faults env (requests w) = Some f /\
     insertLog env treatmentId alertType alertDate w =
     (Throw (StoreError (fault_error f)), next_request w)) \/
  (store_faults env (requests w) = None /\ In row (alert_log w) /\
   insertLog env treatmentId alertType alertDate w =
   (Throw (StoreError unique_violation), next_request w)) \/
  (store_faults env (requests w) = None /\ ~ In row (alert_log w) /\
   insertLog env treatmentId alertType alertDate w =
   (Ok tt, mkWorld (alert_log w ++ [row]) (outbox w) (S (requests w)))).
Proof.
  intros row. unfold insertLog, bind.
  destruct (insertAlertLog_cases env row w)
    as [(f & Hf & Hr) | [(Hf & Hin & Hr) | (Hf & Hin & Hr)]];
    fold row; rewrite Hr.
  - left. exists f. split; [assumption | reflexivity].
  - right. left. repeat split; assumption.
  - right. right. repeat split; assumption.
Qed.

Lemma upcomingAlert_notifyOnce env pet todayKey t lastApplied nextDate days n :
  upcomingAlert env pet todayKey t lastApplied nextDate days n =
  notifyOnce env (upcomingRow todayKey t days)
             (upcomingMessage env pet t lastApplied nextDate days) n.
Proof. reflexivity. Qed.

Lemma overdueAlert_notifyOnce env pet todayKey t lastApplied nextDate days n :
  overdueAlert env pet todayKey t lastApplied nextDate days n =
  notifyOnce env (overdueRow todayKey t)
             (overdueMessage env pet t lastApplied nextDate days) n.
Proof. reflexivity. Qed.

Lemma notifyOnce_outcome env row msg n w r w' :
  notifyOnce env row msg n w = (r, w') -> alert_outcome row msg n w r w'.
Proof.
  destruct row as [tid ty date].
  unfold notifyOnce, bind. cbn [treatment_id alert_type alert_date].
  rewrite alreadyLogged_run.
  destruct (store_faults env (requests w)) as [f |].
  { intros H. inversion H; subst. apply check_failed, same_records_next. }
  destruct (existsb _ (alert_log w)) eqn:E; cbn [negb].
  { intros H. inversion H; subst. apply logged_In in E.
    apply already_claimed; [assumption | apply same_records_next]. }
  assert (Hnot : ~ In (mkAlertLog tid ty date) (alert_log w))
    by (intros Hin; apply logged_In in Hin; congruence).
  destruct (zeus_telegramSend_cases env msg (next_request w))
    as [(st & _ & _ & ->) | (e & He & ->)].
  - match goal with
    | |- context [insertLog env tid ty date ?w1] =>
        destruct (insertLog_cases env tid ty date w1)
          as [(f & _ & ->) | [(_ & Hin & ->) | (_ & _ & ->)]]
    end.
    + intros H. inversion H; subst.
      apply record_failed; [assumption | reflexivity | reflexivity].
    + contradiction.
    + intros H. inversion H; subst.
      apply notified; [assumption | reflexivity | reflexivity].
  - intros H. inversion H; subst.
    apply delivery_failed; [assumption | assumption | split; reflexivity].
Qed.

Lemma zeus_alert_outcome_claims row msg n w r w' :
  alert_outcome row msg n w r w' -> claims [row] w r w'.
Proof.
  intros H. destruct H as [w' Hin Hs | w' Hn Hl Ho | e w' Hs
                          | e w' Hn He Hs | e w' Hn Hl Ho].
  - split; [apply same_records_grows; assumption |]. split; [| split].
    + intros x Hx. left. rewrite <- (proj1 Hs). exact Hx.
    + intros _ x [<- | []]. rewrite (proj1 Hs). exact Hin.
    + intros _. exact Hs.
  - split; [| split; [| split]].
    + unfold grows. rewrite Hl, Ho. split; apply incl_appl, incl_refl.
    + intros x Hx. rewrite Hl in Hx. apply in_app_or in Hx. tauto.
    + intros _ x [<- | []]. rewrite Hl. apply in_or_app. right. left. reflexivity.
    + intros Hin. exfalso. apply Hn, Hin. left. reflexivity.
  - split; [apply same_records_grows; assumption |]. split; [| split].
    + intros x Hx. left. rewrite <- (proj1 Hs). exact Hx.
    + intros [].
    + intros _. exact Hs.
  - split; [apply same_records_grows; assumption |]. split; [| split].
    + intros x Hx. left. rewrite <- (proj1 Hs). exact Hx.
    + intros [].
    + intros _. exact Hs.
  - split; [| split; [| split]].
    + unfold grows. rewrite Hl, Ho. split; [apply incl_refl |].
      apply incl_appl, incl_refl.
    + intros x Hx. left. rewrite <- Hl. exact Hx.
    + intros [].
    + intros Hin. exfalso. apply Hn, Hin. left. reflexivity.
Qed.

Lemma getLastApplicationDate_run env treatmentId w :
  getLastApplicationDate env treatmentId w =
  (match store_faults env (requests w) with
   | Some f => Throw (StoreError (fault_error f))
   | None => Ok (hd_error (lastApplication env treatmentId))
   end, next_request w).
Proof.
  unfold getLastApplicationDate, bind, selectLastApplication.
  rewrite select_run.
  destruct (store_faults env (requests w)); [reflexivity |].
  destruct (lastApplication env treatmentId); reflexivity.
Qed.

Lemma getTreatmentsByPet_run env petId w :
  getTreatmentsByPet env petId w =
  (match store_faults env (requests w) with
   | Some f => Throw (StoreError (fault_error f))
   | None => Ok (treatmentsOf env petId)
   end, next_request w).
Proof.
  unfold getTreatmentsByPet, bind, selectTreatmentsByPetOrdered.
  rewrite select_run.
  destruct (store_faults env (requests w)); reflexivity.
Qed.

Lemma getOwnerPets_cases env w r w' :
  getOwnerPets env w = (r, w') ->
  same_records w w' /\ (r = Ok (ownerPets env) \/ exists e, r = Throw e).
Proof.
  unfold getOwnerPets, bind, selectMembersByRole, ownerPets.
  rewrite select_run.
  destruct (store_faults env (requests w)) as [f |].
  { intros H. inversion H; subst. split; [apply same_records_next |].
    right. eexists. reflexivity. }
  destruct (nodup string_dec _) as [| i ids] eqn:En.
  { intros H. inversion H; subst. split; [apply same_records_next |].
    left. reflexivity. }
  unfold selectPetsIn. rewrite select_run. cbn [requests next_request].
  destruct (store_faults env (S (requests w))) as [f |];
    intros H; inversion H; subst; (split; [split; reflexivity |]).
  - right. eexists. reflexivity.
  - left. reflexivity.
Qed.

Lemma zeus_notifyOnce_claims env row msg n w r w' :
  notifyOnce env row msg n w = (r, w') -> claims [row] w r w'.
Proof. intros H. apply (zeus_alert_outcome_claims row msg n), notifyOnce_outcome with env. exact H. Qed.

(** One turn of the loop over the treatments claims the rows of the alerts
    the treatment is due. *)
Lemma zeus_processTreatment_claims env pet nowSP todayKey n t w r w' :
  processTreatment env pet nowSP todayKey n t w = (r, w') ->
  claims (dueRows env nowSP todayKey t) w r w'.
Proof.
  unfold processTreatment, dueRows. unfold bind at 1.
  rewrite getLastApplicationDate_run.
  destruct (store_faults env (requests w)) as [f |].
  { intros H. inversion H; subst.
    apply claims_after_request.
    apply (claims_more [] _ _ (Throw (StoreError (fault_error f))));
      [apply claims_quiet, same_records_refl | intros []]. }
  destruct (lastApplication env (id t)) as [| lastAppliedOn rest];
    cbn [hd_error].
  { intros H. inversion H; subst. apply claims_quiet, same_records_next. }
  cbv zeta. next_date_cases env t lastAppliedOn.
  2: { intros H. inversion H; subst. apply claims_quiet, same_records_next. }
  rewrite <- !ScheduleFacts.ZeusAlerts_calcNextDate.
  fold (daysFor nowSP t lastAppliedOn).
  set (days := daysFor nowSP t lastAppliedOn).
  intros H. apply claims_after_request.
  eapply claims_bind; [| | exact H].
  - intros r1 w1. destruct (includes (resolveAlerts t) days).
    + rewrite upcomingAlert_notifyOnce. apply zeus_notifyOnce_claims.
    + intros H1. inversion H1; subst. apply claims_quiet, same_records_refl.
  - intros n1 w1 r2 w2. destruct (days <? 0).
    + rewrite overdueAlert_notifyOnce. apply zeus_notifyOnce_claims.
    + intros H1. inversion H1; subst. apply claims_quiet, same_records_refl.
Qed.

Lemma zeus_processPet_claims env nowSP todayKey n pet w r w' :
  processPet env nowSP todayKey n pet w = (r, w') ->
  claims (flat_map (dueRows env nowSP todayKey) (treatmentsOf env (pet_id pet)))
         w r w'.
Proof.
  unfold processPet. unfold bind at 1. rewrite getTreatmentsByPet_run.
  destruct (store_faults env (requests w)) as [f |].
  { intros H. inversion H; subst. apply claims_after_request.
    apply (claims_more [] _ _ (Throw (StoreError (fault_error f))));
      [apply claims_quiet, same_records_refl | intros []]. }
  intros H. apply claims_after_request.
  eapply forEachWith_claims; [| exact H].
  intros s x w0 r0 w0' _. apply zeus_processTreatment_claims.
Qed.

(** A run claims the rows of the alerts due in it. *)
Lemma zeus_main_claims env w r w' :
  main env w = (r, w') -> claims (allDueRows env) w r w'.
Proof.
  unfold main, allDueRows. cbv zeta. unfold bind at 1.
  destruct (getOwnerPets env w) as [r0 w0] eqn:E0.
  destruct (getOwnerPets_cases env w r0 w0 E0) as [Hs [-> | [e ->]]].
  - intros H.
    assert (H' : forEachWith (ownerPets env)
                   (processPet env (toZone env (clock env))
                      (isoDateSP env (toZone env (clock env)))) 0%nat w0
                 = (r, w'))
      by (destruct (ownerPets env); exact H).
    apply (claims_seq [] _ w tt w0); [apply claims_quiet; exact Hs |].
    eapply forEachWith_claims; [| exact H'].
    intros s x w1 r1 w1' _. apply zeus_processPet_claims.
  - intros H. inversion H; subst.
    apply (claims_more [] _ _ (Throw e));
      [apply claims_quiet; exact Hs | intros []].
Qed.

End ZeusAlertsFacts.

(* ================================================================== *)
(** ** scripts/send-alerts.js: insert first, then send *)

Module SendAlertsFacts.
Import ES DateFns Store StoreSpec StoreFacts SendAlerts SendAlertsSpec.

Lemma send_telegramSend_cases env msg w :
  (exists status, channel env (requests w) = HttpResponse status /\
     ok status = true /\
     telegramSend env msg w =
     (Ok tt, mkWorld (alert_log w) (outbox w ++ [msg]) (S (requests w)))) \/
  (exists e, delivery_failure e /\
     telegramSend env msg w = (Throw e, next_request w)).
Proof.
  unfold telegramSend, bind.
  destruct (fetchSendMessage_cases env msg w)
    as [(st & Hc & Hok & ->) | [(st & Hc & Hok & ->) | (Hc & ->)]];
    rewrite ?Hok.
  - left. exists st. repeat split; assumption.
  - right. exists (TelegramError st). split; [| reflexivity].
    right. exists st. split; [assumption | reflexivity].
  - right. exists FetchFailed. split; [left |]; reflexivity.
Qed.

Lemma alreadyLogged_cases env treatmentId alertType alertDate w :
  let row := mkAlertLog treatmentId alertType alertDate in
  (exists f, store_faults env (requests w) = Some f /\
     alreadyLogged env treatmentId alertType alertDate w =
     (Throw (StoreError (fault_error f)), next_request w)) \/
  (store_faults env (requests w) = None /\ In row (alert_log w) /\
   alreadyLogged env treatmentId alertType alertDate w =
   (Ok true, next_request w)) \/
  (store_faults env (requests w) = None /\ ~ In row (alert_log w) /\
   alreadyLogged env treatmentId alertType alertDate w =
   (Ok false, mkWorld (alert_log w ++ [row]) (outbox w) (S (requests w)))).
Proof.
  intros row. unfold alreadyLogged, bind.
  destruct (insertAlertLog_cases env row w)
    as [(f & Hf & Hr) | [(Hf & Hin & Hr) | (Hf & Hin & Hr)]];
    fold row; rewrite Hr.
  - left. exists f. rewrite fault_not_unique_violation.
    split; [assumption | reflexivity].
  - right. left. repeat split; assumption.
  - right. right. repeat split; assumption.
Qed.

Lemma claimThenNotify_outcome env row msg w r w' :
  claimThenNotify env row msg w = (r, w') -> alert_outcome row msg w r w'.
Proof.
  destruct row as [tid ty date].
  unfold claimThenNotify, bind. cbn [treatment_id alert_type alert_date].
  destruct (alreadyLogged_cases env tid ty date w)
    as [(f & _ & ->) | [(_ & Hin & ->) | (_ & Hn & ->)]]; cbn [negb].
  - intros H. inversion H; subst. apply claim_failed, same_records_next.
  - intros H. inversion H; subst.
    apply already_claimed; [assumption | apply same_records_next].
  - match goal with
    | |- context [telegramSend env msg ?w1] =>
        destruct (send_telegramSend_cases env msg w1)
          as [(st & _ & _ & ->) | (e & He & ->)]
    end; intros H; inversion H; subst.
    + apply notified; [assumption | reflexivity | reflexivity].
    + apply claimed_undelivered;
        [assumption | assumption | reflexivity | reflexivity].
Qed.

Lemma send_alert_outcome_claims row msg w r w' :
  alert_outcome row msg w r w' -> claims [row] w r w'.
Proof.
  intros H. destruct H as [w' Hin Hs | w' Hn Hl Ho | e w' Hs
                          | e w' Hn He Hl Ho].
  - split; [apply same_records_grows; assumption |]. split; [| split].
    + intros x Hx. left. rewrite <- (proj1 Hs). exact Hx.
    + intros _ x [<- | []]. rewrite (proj1 Hs). exact Hin.
    + intros _. exact Hs.
  - split; [| split; [| split]].
    + unfold grows. rewrite Hl, Ho. split; apply incl_appl, incl_refl.
    + intros x Hx. rewrite Hl in Hx. apply in_app_or in Hx. tauto.
    + intros _ x [<- | []]. rewrite Hl. apply in_or_app. right. left. reflexivity.
    + intros Hin. exfalso. apply Hn, Hin. left. reflexivity.
  - split; [apply same_records_grows; assumption |]. split; [| split].
    + intros x Hx. left. rewrite <- (proj1 Hs). exact Hx.
    + intros [].
    + intros _. exact Hs.
  - split; [| split; [| split]].
    + unfold grows. rewrite Hl, Ho. split; [| apply incl_refl].
      apply incl_appl, incl_refl.
    + intros x Hx. rewrite Hl in Hx. apply in_app_or in Hx. tauto.
    + intros [].
    + intros Hin. exfalso. apply Hn, Hin. left. reflexivity.
Qed.

Lemma send_claimThenNotify_claims env row msg w r w' :
  claimThenNotify env row msg w = (r, w') -> claims [row] w r w'.
Proof.
  intros H. apply (send_alert_outcome_claims row msg).
  apply claimThenNotify_outcome with env. exact H.
Qed.

Lemma send_processTreatment_claims env zeus nowSP todayISO t w r w' :
  processTreatment env zeus nowSP todayISO t w = (r, w') ->
  claims (dueRows env nowSP todayISO t) w r w'.
Proof.
  unfold processTreatment, dueRows. unfold bind at 1.
  unfold selectLastApplication. rewrite select_run.
  destruct (store_faults env (requests w)) as [f |].
  { intros H. inversion H; subst. apply claims_after_request.
    apply (claims_more [] _ _ (Throw (StoreError (fault_error f))));
      [apply claims_quiet, same_records_refl | intros []]. }
  destruct (lastApplication env (id t)) as [| lastAppliedOn rest].
  { intros H. inversion H; subst. apply claims_quiet, same_records_next. }
  cbv zeta. next_date_cases env t lastAppliedOn.
  2: { intros H. inversion H; subst. apply claims_quiet, same_records_next. }
  rewrite <- !ScheduleFacts.SendAlerts_calcNextDate.
  fold (daysFor nowSP t lastAppliedOn).
  set (days := daysFor nowSP t lastAppliedOn).
  intros H. apply claims_after_request. revert H.
  destruct (days <? 0).
  - apply (send_claimThenNotify_claims env (overdueRow todayISO t)).
  - destruct (includes (resolveAlerts t) days).
    + apply (send_claimThenNotify_claims env (dueRow todayISO t days)).
    + intros H. inversion H; subst. apply claims_quiet, same_records_refl.
Qed.

(** A run claims the rows of the alerts due in it. *)
Lemma send_main_claims env w r w' :
  main env w = (r, w') -> claims (allDueRows env) w r w'.
Proof.
  unfold main, allDueRows. cbv zeta. unfold bind at 1.
  unfold selectPetsByName. rewrite select_run.
  destruct (store_faults env (requests w)) as [f |].
  { intros H. inversion H; subst. apply claims_after_request.
    apply (claims_more [] _ _ (Throw (StoreError (fault_error f))));
      [apply claims_quiet, same_records_refl | intros []]. }
  destruct (firstn 1 _) as [| zeus others].
  { intros H. inversion H; subst. apply claims_after_request.
    apply claims_quiet, same_records_refl. }
  intros H. apply claims_after_request. revert H.
  unfold bind at 1. unfold selectTreatmentsByPet. rewrite select_run.
  destruct (store_faults env (requests (next_request w))) as [f |].
  { intros H. inversion H; subst. apply claims_after_request.
    apply (claims_more [] _ _ (Throw (StoreError (fault_error f))));
      [apply claims_quiet, same_records_refl | intros []]. }
  rewrite forEach_forEachWith. intros H. apply claims_after_request.
  eapply forEachWith_claims; [| exact H].
  intros s x w0 r0 w0' _. apply send_processTreatment_claims.
Qed.

End SendAlertsFacts.

(* ================================================================== *)
(** ** The alert runner *)

Module AlertRunner.
Import ES DateFns Store StoreSpec StoreFacts ESFacts DateFnsFacts Scenario.

Module SA := SendAlerts.
Module SAF := SendAlertsFacts.
Module ZA := ZeusAlerts.
Module ZAF := ZeusAlertsFacts.
Module ZAS := ZeusAlertsSpec.
Module SAS := SendAlertsSpec.

Lemma not_delivery_failure_store e : ~ delivery_failure (StoreError e).
Proof. intros [H | (st & _ & H)]; discriminate. Qed.

Lemma localISODate_same_day a b : Day a = Day b -> localISODate a = localISODate b.
Proof.
  intros H.
  unfold localISODate, getFullYear, getMonth, getDate, MonthFromTime,
    DateFromTime, MonthFromTime, InLeapYear, DayWithinYear, YearFromTime.
  rewrite H. reflexivity.
Qed.

(** *** What the rows due say about their treatment *)

Lemma zeus_dueRows_inv env nowSP todayKey t row :
  In row (ZAS.dueRows env nowSP todayKey t) ->
  exists lastAppliedOn,
    hd_error (lastApplication env (id t)) = Some lastAppliedOn /\
    treatment_id row = id t /\ alert_date row = todayKey /\
    ((alert_type row =
        ("upcoming_" ++ string_of_Z (ZAS.daysFor nowSP t lastAppliedOn))%string /\
      In (ZAS.daysFor nowSP t lastAppliedOn) (ZA.resolveAlerts t)) \/
     (alert_type row = "overdue_daily"%string /\
      ZAS.daysFor nowSP t lastAppliedOn < 0)).
Proof.
  unfold ZAS.dueRows.
  destruct (lastApplication env (id t)) as [| lastAppliedOn rest]; [intros [] |].
  cbv zeta. destruct (nextValid env t lastAppliedOn); [| intros []].
  intros Hin. exists lastAppliedOn. split; [reflexivity |].
  apply in_app_or in Hin. destruct Hin as [Hin | Hin].
  - destruct (ZA.includes _ _) eqn:E; [| destruct Hin].
    destruct Hin as [<- | []]. repeat split. left. split; [reflexivity |].
    unfold ZA.includes in E. apply existsb_exists in E.
    destruct E as (x & Hx & Heq). apply Z.eqb_eq in Heq. subst x. exact Hx.
  - destruct (Z.ltb_spec (ZAS.daysFor nowSP t lastAppliedOn) 0); [| destruct Hin].
    destruct Hin as [<- | []]. repeat split. right. split; [reflexivity | assumption].
Qed.

Lemma send_dueRows_inv env nowSP todayISO t row :
  In row (SAS.dueRows env nowSP todayISO t) ->
  exists lastAppliedOn,
    hd_error (lastApplication env (id t)) = Some lastAppliedOn /\
    treatment_id row = id t /\ alert_date row = todayISO /\
    ((alert_type row =
        ("due_in_" ++ string_of_Z (SAS.daysFor nowSP t lastAppliedOn))%string /\
      0 <= SAS.daysFor nowSP t lastAppliedOn /\
      In (SAS.daysFor nowSP t lastAppliedOn) (SA.resolveAlerts t)) \/
     (alert_type row = "overdue_daily"%string /\
      SAS.daysFor nowSP t lastAppliedOn < 0)).
Proof.
  unfold SAS.dueRows.
  destruct (lastApplication env (id t)) as [| lastAppliedOn rest]; [intros [] |].
  cbv zeta. destruct (nextValid env t lastAppliedOn); [| intros []].
  intros Hin. exists lastAppliedOn. split; [reflexivity |].
  destruct (Z.ltb_spec (SAS.daysFor nowSP t lastAppliedOn) 0).
  - destruct Hin as [<- | []]. repeat split. right. split; [reflexivity | assumption].
  - destruct (SA.includes _ _) eqn:E; [| destruct Hin].
    destruct Hin as [<- | []]. repeat split. left. split; [reflexivity |].
    split; [assumption |].
    unfold SA.includes in E. apply existsb_exists in E.
    destruct E as (x & Hx & Heq). apply Z.eqb_eq in Heq. subst x. exact Hx.
Qed.

Lemma zeus_allDueRows_inv env row :
  In row (ZAS.allDueRows env) ->
  exists t, In row (ZAS.dueRows env (toZone env (clock env))
                      (ZA.isoDateSP env (toZone env (clock env))) t).
Proof.
  unfold ZAS.allDueRows. cbv zeta. intros Hin.
  apply in_flat_map in Hin. destruct Hin as (pet & _ & Hin).
  apply in_flat_map in Hin. destruct Hin as (t & _ & Hin).
  exists t. exact Hin.
Qed.

Lemma send_allDueRows_inv env row :
  In row (SAS.allDueRows env) ->
  exists t, In row (SAS.dueRows env (toZone env (clock env))
                      (SA.toISODate (toZone env (clock env))) t).
Proof.
  unfold SAS.allDueRows. cbv zeta. intros Hin.
  destruct (firstn 1 _) as [| zeus others]; [destruct Hin |].
  apply in_flat_map in Hin. destruct Hin as (t & _ & Hin).
  exists t. exact Hin.
Qed.

(** *** A later run on the same calendar date is due the same rows *)

Lemma zeus_dueRows_same_day env clock' faults' answers' nowSP nowSP' todayKey t :
  Day nowSP' = Day nowSP ->
  ZAS.dueRows (later_run env clock' faults' answers') nowSP' todayKey t =
  ZAS.dueRows env nowSP todayKey t.
Proof.
  intros H. unfold ZAS.dueRows, ZAS.daysFor, ZA.daysToNext.
  change (lastApplication (later_run env clock' faults' answers') (id t))
    with (lastApplication env (id t)).
  destruct (lastApplication env (id t)) as [| lastAppliedOn rest];
    [reflexivity |].
  rewrite (differenceInCalendarDays_same_day _ nowSP' nowSP H). reflexivity.
Qed.

Lemma send_dueRows_same_day env clock' faults' answers' nowSP nowSP' todayISO t :
  Day nowSP' = Day nowSP ->
  SAS.dueRows (later_run env clock' faults' answers') nowSP' todayISO t =
  SAS.dueRows env nowSP todayISO t.
Proof.
  intros H. unfold SAS.dueRows, SAS.daysFor.
  change (lastApplication (later_run env clock' faults' answers') (id t))
    with (lastApplication env (id t)).
  destruct (lastApplication env (id t)) as [| lastAppliedOn rest];
    [reflexivity |].
  rewrite (differenceInCalendarDays_same_day _ nowSP' nowSP H). reflexivity.
Qed.

Lemma zeus_allDueRows_same_day env clock' faults' answers' :
  Day (toZone env clock') = Day (toZone env (clock env)) ->
  Day (toZone env (toZone env clock')) =
  Day (toZone env (toZone env (clock env))) ->
  ZAS.allDueRows (later_run env clock' faults' answers') = ZAS.allDueRows env.
Proof.
  intros H1 H2. unfold ZAS.allDueRows. cbv zeta.
  change (ZAS.ownerPets (later_run env clock' faults' answers'))
    with (ZAS.ownerPets env).
  change (clock (later_run env clock' faults' answers')) with clock'.
  change (toZone (later_run env clock' faults' answers')) with (toZone env).
  apply flat_map_ext. intros pet.
  change (ZAS.treatmentsOf (later_run env clock' faults' answers') (pet_id pet))
    with (ZAS.treatmentsOf env (pet_id pet)).
  apply flat_map_ext. intros t.
  unfold ZA.isoDateSP.
  change (toZone (later_run env clock' faults' answers')) with (toZone env).
  rewrite (localISODate_same_day _ _ H2).
  apply zeus_dueRows_same_day. exact H1.
Qed.

Lemma send_allDueRows_same_day env clock' faults' answers' :
  Day (toZone env clock') = Day (toZone env (clock env)) ->
  SAS.allDueRows (later_run env clock' faults' answers') = SAS.allDueRows env.
Proof.
  intros H1. unfold SAS.allDueRows. cbv zeta.
  change (clock (later_run env clock' faults' answers')) with clock'.
  change (toZone (later_run env clock' faults' answers')) with (toZone env).
  change (pets (later_run env clock' faults' answers')) with (pets env).
  change (treatments (later_run env clock' faults' answers'))
    with (treatments env).
  destruct (firstn 1 _) as [| zeus others]; [reflexivity |].
  apply flat_map_ext. intros t.
  unfold SA.toISODate. rewrite (localISODate_same_day _ _ H1).
  apply send_dueRows_same_day. exact H1.
Qed.

(** *** No history, no alert *)

(** C9. A treatment with no application on record is skipped, whatever its
    interval and thresholds: its turn of the loop makes the one query for the
    last application and nothing else, so it delivers no message and writes
    no alert-log row, and completes unless that query fails; and no run adds
    an alert-log row for the treatment. *)
Theorem no_history_skipped (env : Env) (t : TreatmentRow) (w : World) :
  lastApplication env (id t) = [] ->
  (forall zeus nowSP todayISO,
     SA.processTreatment env zeus nowSP todayISO t w =
     (match store_faults env (requests w) with
      | Some f => Throw (StoreError (fault_error f))
      | None => Ok tt
      end, next_request w)) /\
  (forall pet nowSP todayKey sentCount,
     ZA.processTreatment env pet nowSP todayKey sentCount t w =
     (match store_faults env (requests w) with
      | Some f => Throw (StoreError (fault_error f))
      | None => Ok sentCount
      end, next_request w)) /\
  alert_log (next_request w) = alert_log w /\
  outbox (next_request w) = outbox w /\
  (forall r w' row,
     SA.main env w = (r, w') -> In row (alert_log w') ->
     treatment_id row = id t -> In row (alert_log w)) /\
  (forall r w' row,
     ZA.main env w = (r, w') -> In row (alert_log w') ->
     treatment_id row = id t -> In row (alert_log w)).
Proof.
  intros Hnone. split; [| split; [| split; [| split; [| split]]]].
  - intros zeus nowSP todayISO.
    unfold SA.processTreatment, bind, selectLastApplication.
    rewrite select_run, Hnone.
    destruct (store_faults env (requests w)); reflexivity.
  - intros pet nowSP todayKey sentCount.
    unfold ZA.processTreatment, bind.
    rewrite ZAF.getLastApplicationDate_run, Hnone.
    destruct (store_faults env (requests w)); reflexivity.
  - reflexivity.
  - reflexivity.
  - intros r w' row Hrun Hin Hid.
    destruct (SAF.send_main_claims env w r w' Hrun) as (_ & Hnew & _).
    destruct (Hnew row Hin) as [Hold | Hdue]; [exact Hold |].
    apply send_allDueRows_inv in Hdue. destruct Hdue as (t' & Hdue).
    apply send_dueRows_inv in Hdue.
    destruct Hdue as (last & Hlast & Hid' & _).
    rewrite <- Hid', Hid, Hnone in Hlast. discriminate.
  - intros r w' row Hrun Hin Hid.
    destruct (ZAF.zeus_main_claims env w r w' Hrun) as (_ & Hnew & _).
    destruct (Hnew row Hin) as [Hold | Hdue]; [exact Hold |].
    apply zeus_allDueRows_inv in Hdue. destruct Hdue as (t' & Hdue).
    apply zeus_dueRows_inv in Hdue.
    destruct Hdue as (last & Hlast & Hid' & _).
    rewrite <- Hid', Hid, Hnone in Hlast. discriminate.
Qed.

Lemma no_history_skipped_witness :
  lastApplication (household None delivering) (id dewormer) = [] /\
  ZA.processTreatment (household None delivering) (mkPet "p1" "Zeus")
    june_1_2024_noon (mkISO 2024 6 1) 0%nat dewormer fresh =
  (Ok 0%nat, next_request fresh).
Proof.
  split; [reflexivity |].
  exact (proj1 (proj2 (no_history_skipped (household None delivering) dewormer
                         fresh eq_refl))
           (mkPet "p1" "Zeus") june_1_2024_noon (mkISO 2024 6 1) 0%nat).
Defined.

(** *** Idempotence *)

(** After a run of scripts/send-alerts.js that completed, a second run on
    the same calendar date of Sao Paulo over the same tables delivers no
    further message and adds no alert-log row, whatever the store and the
    channel answer this time: every claim it attempts finds the triple
    logged. *)
Lemma send_alerts_idempotent (env : Env) (clock' : Date)
  (faults' : nat -> option Fault) (answers' : nat -> FetchOutcome)
  (w0 w1 : World) :
  Day (toZone env clock') = Day (toZone env (clock env)) ->
  SA.main env w0 = (Ok tt, w1) ->
  forall r w2,
    SA.main (later_run env clock' faults' answers') w1 = (r, w2) ->
    alert_log w2 = alert_log w1 /\ outbox w2 = outbox w1.
Proof.
  intros H1 Hfirst r w2 Hsecond.
  destruct (SAF.send_main_claims env w0 (Ok tt) w1 Hfirst) as (_ & _ & Hall & _).
  destruct (SAF.send_main_claims _ w1 r w2 Hsecond) as (_ & _ & _ & Hsame).
  rewrite (send_allDueRows_same_day env clock' faults' answers' H1) in Hsame.
  exact (Hsame (Hall I)).
Qed.

(** The scheduled script has that property between two runs that also agree
    on the day of the clock moved twice to the zone of Sao Paulo, the day its
    key is made of. *)
Lemma zeus_alerts_idempotent_under_one_key (env : Env) (clock' : Date)
  (faults' : nat -> option Fault) (answers' : nat -> FetchOutcome)
  (w0 w1 : World) :
  Day (toZone env clock') = Day (toZone env (clock env)) ->
  Day (toZone env (toZone env clock')) =
  Day (toZone env (toZone env (clock env))) ->
  forall sentCount,
    ZA.main env w0 = (Ok sentCount, w1) ->
    forall r w2,
      ZA.main (later_run env clock' faults' answers') w1 = (r, w2) ->
      alert_log w2 = alert_log w1 /\ outbox w2 = outbox w1.
Proof.
  intros H1 H2 n Hfirst r w2 Hsecond.
  destruct (ZAF.zeus_main_claims env w0 (Ok n) w1 Hfirst) as (_ & _ & Hall & _).
  destruct (ZAF.zeus_main_claims _ w1 r w2 Hsecond) as (_ & _ & _ & Hsame).
  rewrite (zeus_allDueRows_same_day env clock' faults' answers' H1 H2)
    in Hsame.
  exact (Hsame (Hall I)).
Qed.

(** C5, on the scheduled script.  A process in UTC runs it at 04:00 and
    again at 15:00 on 1 June 2024, which is 01:00 and 12:00 of 1 June in the
    zone of Sao Paulo; store and channel work.  The key of the day is the
    date in Sao Paulo of the clock already moved to Sao Paulo: 31 May for the
    first run, 1 June for the second.  The first run completes with the alert
    for the vaccine logged under 31 May; the second run, on the same calendar
    date, finds nothing under its key, delivers the message again and logs a
    second row.  scripts/send-alerts.js keys its rows on the date of the clock
    moved once: its second run adds nothing. *)
Theorem zeus_alerts_second_run_same_day :
  localISODate (toZone (utc_runner four_am delivering)
                       (clock (utc_runner four_am delivering)))
  = mkISO 2024 6 1 /\
  localISODate (toZone (utc_runner three_pm delivering)
                       (clock (utc_runner three_pm delivering)))
  = mkISO 2024 6 1 /\
  fst (ZA.main (utc_runner four_am delivering) fresh) = Ok 1%nat /\
  alert_log (snd (ZA.main (utc_runner four_am delivering) fresh))
  = [mkAlertLog "t1" "upcoming_30" (mkISO 2024 5 31)] /\
  fst (ZA.main (utc_runner three_pm delivering)
         (snd (ZA.main (utc_runner four_am delivering) fresh))) = Ok 1%nat /\
  alert_log (snd (ZA.main (utc_runner three_pm delivering)
                    (snd (ZA.main (utc_runner four_am delivering) fresh))))
  = [mkAlertLog "t1" "upcoming_30" (mkISO 2024 5 31);
     mkAlertLog "t1" "upcoming_30" (mkISO 2024 6 1)] /\
  List.length
    (outbox (snd (ZA.main (utc_runner three_pm delivering)
                    (snd (ZA.main (utc_runner four_am delivering) fresh)))))
  = 2%nat /\
  fst (SA.main (utc_runner four_am delivering) fresh) = Ok tt /\
  alert_log (snd (SA.main (utc_runner three_pm delivering)
                    (snd (SA.main (utc_runner four_am delivering) fresh))))
  = [mkAlertLog "t1" "due_in_30" (mkISO 2024 6 1)] /\
  List.length
    (outbox (snd (SA.main (utc_runner three_pm delivering)
                    (snd (SA.main (utc_runner four_am delivering) fresh)))))
  = 1%nat.
Proof. repeat split; vm_compute; reflexivity. Qed.

(** *** The claim operation *)

(** What the two claim operations report.  In scripts/send-alerts.js the
    claim is an insert:
    it reports false exactly when the store answers the insert without error,
    which is when no fault hits it and the triple was not logged, and the
    triple is logged from then on; it reports true exactly when the store
    answers with the unique violation 23505, which is when no fault hits it
    and the triple was logged; every other error is thrown.  In the scheduled
    script the check is a query that inspects no error code: it reports true
    exactly when no fault hits it and the triple is logged, false exactly
    when no fault hits it and the triple is not logged, throws every error
    of the store and leaves the log as it is; the insert that follows the
    delivery throws every error, the unique violation included. *)
Theorem alreadyLogged_reports (env : Env) (treatmentId alertType : string)
  (alertDate : ISODate) (w : World) :
  ((fst (SA.alreadyLogged env treatmentId alertType alertDate w) = Ok false <->
    fst (insertAlertLog env (mkAlertLog treatmentId alertType alertDate) w)
    = Ok None) /\
   (fst (SA.alreadyLogged env treatmentId alertType alertDate w) = Ok false <->
    store_faults env (requests w) = None /\
    ~ In (mkAlertLog treatmentId alertType alertDate) (alert_log w)) /\
   (fst (SA.alreadyLogged env treatmentId alertType alertDate w) = Ok false ->
    In (mkAlertLog treatmentId alertType alertDate)
       (alert_log (snd (SA.alreadyLogged env treatmentId alertType alertDate w)))) /\
   (fst (SA.alreadyLogged env treatmentId alertType alertDate w) = Ok true <->
    fst (insertAlertLog env (mkAlertLog treatmentId alertType alertDate) w)
    = Ok (Some unique_violation)) /\
   (fst (SA.alreadyLogged env treatmentId alertType alertDate w) = Ok true <->
    store_faults env (requests w) = None /\
    In (mkAlertLog treatmentId alertType alertDate) (alert_log w)) /\
   (forall e,
      fst (insertAlertLog env (mkAlertLog treatmentId alertType alertDate) w)
      = Ok (Some e) ->
      code e <> "23505"%string ->
      fst (SA.alreadyLogged env treatmentId alertType alertDate w)
      = Throw (StoreError e))) /\
  ((fst (ZA.alreadyLogged env treatmentId alertType alertDate w) = Ok true <->
    store_faults env (requests w) = None /\
    In (mkAlertLog treatmentId alertType alertDate) (alert_log w)) /\
   (fst (ZA.alreadyLogged env treatmentId alertType alertDate w) = Ok false <->
    store_faults env (requests w) = None /\
    ~ In (mkAlertLog treatmentId alertType alertDate) (alert_log w)) /\
   (forall e,
      fst (selectAlertLog env treatmentId alertType alertDate w)
      = Ok (Failure e) ->
      fst (ZA.alreadyLogged env treatmentId alertType alertDate w)
      = Throw (StoreError e)) /\
   snd (ZA.alreadyLogged env treatmentId alertType alertDate w)
   = next_request w /\
   (forall e,
      fst (insertAlertLog env (mkAlertLog treatmentId alertType alertDate) w)
      = Ok (Some e) ->
      fst (ZA.insertLog env treatmentId alertType alertDate w)
      = Throw (StoreError e))).
Proof.
  set (row := mkAlertLog treatmentId alertType alertDate).
  split.
  - unfold SA.alreadyLogged, bind. fold row.
    destruct (insertAlertLog_cases env row w)
      as [(f & Hf & Hi) | [(Hf & Hin & Hi) | (Hf & Hin & Hi)]];
      rewrite Hi; rewrite ?fault_not_unique_violation;
      cbn [fst snd alert_log code unique_violation String.eqb Ascii.eqb
             Bool.eqb ret throw];
      (split; [| split; [| split; [| split; [| split]]]]).
    + split; discriminate.
    + split; [discriminate | intros [H _]; congruence].
    + discriminate.
    + split; [discriminate |]. intros H. destruct f; discriminate.
    + split; [discriminate | intros [H _]; congruence].
    + intros e He _. congruence.
    + split; discriminate.
    + split; [discriminate | intros [_ H]; contradiction].
    + discriminate.
    + split; reflexivity.
    + split; [intros _; split; assumption | reflexivity].
    + intros e He Hc. exfalso. apply Hc. inversion He. reflexivity.
    + split; reflexivity.
    + split; [intros _; split; assumption | reflexivity].
    + intros _. apply in_or_app. right. left. reflexivity.
    + split; discriminate.
    + split; [discriminate | intros [_ H]; contradiction].
    + intros e He. discriminate.
  - assert (Hins : forall e,
               fst (insertAlertLog env row w) = Ok (Some e) ->
               fst (ZA.insertLog env treatmentId alertType alertDate w)
               = Throw (StoreError e)).
    { intros e He. unfold ZA.insertLog, bind. fold row.
      destruct (insertAlertLog env row w) as [[[e' |] | x] w1];
        cbn [fst] in He; inversion He; subst; reflexivity. }
    rewrite ZAF.alreadyLogged_run. unfold selectAlertLog. rewrite select_run.
    cbn [fst snd]. fold row.
    destruct (store_faults env (requests w)) as [f |] eqn:Hf;
      (split; [| split; [| split; [| split]]]); try exact Hins;
      try reflexivity.
    + split; [discriminate | intros [H _]; discriminate].
    + split; [discriminate | intros [H _]; discriminate].
    + intros e He. congruence.
    + split.
      * intros H. inversion H as [E]. apply logged_In in E. split; auto.
      * intros [_ H]. apply logged_In in H. rewrite H. reflexivity.
    + split.
      * intros H. inversion H as [E]. split; [reflexivity |].
        intros Hin. apply logged_In in Hin. congruence.
      * intros [_ H].
        destruct (existsb (AlertLogRow_eqb row) (alert_log w)) eqn:E;
          [| reflexivity].
        apply logged_In in E. contradiction.
    + intros e He. discriminate.
Qed.

(** In the scheduled script the check reports true with no conflict
    signalled: with the triple in the log the store answered the query with
    the row. *)
Lemma zeus_alreadyLogged_without_conflict :
  ~ (forall w,
       fst (ZA.alreadyLogged (household None delivering) "t1" "upcoming_30"
              (mkISO 2024 6 1) w) = Ok true <->
       fst (selectAlertLog (household None delivering) "t1" "upcoming_30"
              (mkISO 2024 6 1) w) = Ok (Failure unique_violation)).
Proof.
  intros H.
  specialize (H (mkWorld [mkAlertLog "t1" "upcoming_30" (mkISO 2024 6 1)] [] 0)).
  destruct H as [H _]. specialize (H eq_refl). discriminate.
Qed.

(** C4, on the scheduled script.  Two runs reach the alert for the vaccine
    at the same time, with an empty alert log and a store and a channel that
    work.  Its check is a query, so both runs are told that the triple is not
    claimed; both deliver the message; the insert of the second run then
    meets the row of the first, and the unique violation, which the script
    never inspects, is thrown as a hard error.  In scripts/send-alerts.js the
    claim is the insert itself: the second run is told that the triple is
    claimed, and one message is delivered. *)
Theorem zeus_overlapping_runs_both_notify :
  (first <- ZA.alreadyLogged (household None delivering) "t1" "upcoming_30"
                             (mkISO 2024 6 1) ;;
   second <- ZA.alreadyLogged (household None delivering) "t1" "upcoming_30"
                              (mkISO 2024 6 1) ;;
   ret (first, second)) fresh
  = (Ok (false, false), mkWorld [] [] 2) /\
  ZAS.overlappingRuns (household None delivering) upcoming_30 vaccine_due fresh
  = (Throw (StoreError unique_violation),
     mkWorld [upcoming_30] [vaccine_due; vaccine_due] 6) /\
  code unique_violation = "23505"%string /\
  SAS.overlappingRuns (household None delivering) upcoming_30 vaccine_due fresh
  = (Ok (false, true), mkWorld [upcoming_30] [vaccine_due] 3).
Proof. repeat split; vm_compute; reflexivity. Qed.

(** *** Failed deliveries *)

Lemma zeus_notifyOnce_failed_delivery env row msg n w e w' :
  ZAS.notifyOnce env row msg n w = (Throw e, w') -> delivery_failure e ->
  ~ In row (alert_log w) /\ same_records w w'.
Proof.
  intros Hrun He. apply ZAF.notifyOnce_outcome in Hrun.
  inversion Hrun; subst.
  - exfalso. exact (not_delivery_failure_store _ He).
  - split; assumption.
  - exfalso. exact (not_delivery_failure_store _ He).
Qed.

(** X17. In the scheduled script a treatment whose delivery fails leaves the
    failed alert unlogged: its triple is in the log neither before nor after
    the turn, so the next run attempts it again. *)
Lemma zeus_failed_delivery_not_logged env pet nowSP todayKey n t w e w' :
  ZA.processTreatment env pet nowSP todayKey n t w = (Throw e, w') ->
  delivery_failure e ->
  exists row, In row (ZAS.dueRows env nowSP todayKey t) /\
              ~ In row (alert_log w) /\ ~ In row (alert_log w').
Proof.
  unfold ZA.processTreatment, ZAS.dueRows. unfold bind at 1.
  rewrite ZAF.getLastApplicationDate_run.
  destruct (store_faults env (requests w)) as [f |].
  { intros H He. inversion H; subst.
    exfalso. exact (not_delivery_failure_store _ He). }
  destruct (lastApplication env (id t)) as [| lastAppliedOn rest];
    cbn [hd_error]; [intros H; discriminate |].
  cbv zeta. next_date_cases env t lastAppliedOn.
  2: { intros H He. inversion H; subst.
       destruct He as [He | (st & _ & He)]; discriminate. }
  rewrite <- !ScheduleFacts.ZeusAlerts_calcNextDate.
  fold (ZAS.daysFor nowSP t lastAppliedOn).
  set (days := ZAS.daysFor nowSP t lastAppliedOn).
  unfold bind.
  destruct (ZA.includes (ZA.resolveAlerts t) days).
  - rewrite ZAF.upcomingAlert_notifyOnce.
    destruct (ZAS.notifyOnce env _ _ n (next_request w)) as [[n1 | e1] w1] eqn:Hu.
    + pose proof (ZAF.zeus_notifyOnce_claims _ _ _ _ _ _ _ Hu) as ([Hg _] & _).
      destruct (days <? 0); [| intros H; discriminate].
      rewrite ZAF.overdueAlert_notifyOnce. intros Ho He.
      destruct (zeus_notifyOnce_failed_delivery _ _ _ _ _ _ _ Ho He)
        as [Hn [Hl _]].
      exists (ZAS.overdueRow todayKey t). split; [| split].
      * apply in_or_app. right. left. reflexivity.
      * intros Hin. apply Hn, Hg. exact Hin.
      * rewrite Hl. exact Hn.
    + intros H He. inversion H; subst.
      destruct (zeus_notifyOnce_failed_delivery _ _ _ _ _ _ _ Hu He)
        as [Hn [Hl _]].
      exists (ZAS.upcomingRow todayKey t days). split; [| split].
      * apply in_or_app. left. left. reflexivity.
      * exact Hn.
      * rewrite Hl. exact Hn.
  - unfold ret at 1. destruct (days <? 0); [| intros H; discriminate].
    rewrite ZAF.overdueAlert_notifyOnce. intros Ho He.
    destruct (zeus_notifyOnce_failed_delivery _ _ _ _ _ _ _ Ho He)
      as [Hn [Hl _]].
    exists (ZAS.overdueRow todayKey t). split; [| split].
    + left. reflexivity.
    + exact Hn.
    + rewrite Hl. exact Hn.
Qed.

(** C1, on scripts/send-alerts.js.  The channel answers 500 to the alert for
    the vaccine due in 30 days: the run throws, no message is delivered, and
    yet the triple stays in the alert log; the next run of the day, with the
    channel working again, finds the triple logged and sends nothing. *)
Theorem send_alerts_claim_outlives_failed_delivery :
  SA.main (household None refusing) fresh =
  (Throw (TelegramError 500),
   mkWorld [mkAlertLog "t1" "due_in_30" (mkISO 2024 6 1)] [] 5) /\
  SA.main (household None delivering)
          (mkWorld [mkAlertLog "t1" "due_in_30" (mkISO 2024 6 1)] [] 5) =
  (Ok tt, mkWorld [mkAlertLog "t1" "due_in_30" (mkISO 2024 6 1)] [] 10).
Proof. split; vm_compute; reflexivity. Qed.

(** The scheduled script on the same day: the failed delivery leaves the
    log empty and the next run delivers the alert. *)
Lemma zeus_alerts_retry_after_failed_delivery :
  ZA.main (household None refusing) fresh =
  (Throw (TelegramError 500), mkWorld [] [] 7) /\
  alert_log (snd (ZA.main (household None delivering) (mkWorld [] [] 7))) =
  [mkAlertLog "t1" "upcoming_30" (mkISO 2024 6 1)] /\
  List.length (outbox (snd (ZA.main (household None delivering)
                              (mkWorld [] [] 7)))) = 1%nat.
Proof. repeat split; vm_compute; reflexivity. Qed.

(** *** Thresholds *)

(** In the scheduled script a treatment with no thresholds, or with an empty
    list of them, is evaluated as one configured with 30, 15 and 5. *)
Lemma zeus_default_thresholds env pet nowSP todayKey n t :
  alerts_days t = None \/ alerts_days t = Some [] ->
  ZA.processTreatment env pet nowSP todayKey n t =
  ZA.processTreatment env pet nowSP todayKey n
    (with_alerts t (Some [30; 15; 5])).
Proof.
  destruct t as [i p c nm v u a]. cbn [alerts_days].
  intros [-> | ->]; reflexivity.
Qed.

(** In scripts/send-alerts.js that holds of a treatment with no thresholds. *)
Lemma send_default_thresholds_when_absent env zeus nowSP todayISO t :
  alerts_days t = None ->
  SA.processTreatment env zeus nowSP todayISO t =
  SA.processTreatment env zeus nowSP todayISO
    (with_alerts t (Some [30; 15; 5])).
Proof.
  destruct t as [i p c nm v u a]. cbn [alerts_days].
  intros ->. reflexivity.
Qed.

(** C2, on scripts/send-alerts.js.  With an empty list of thresholds the
    list stays empty: thirty days before the due date the run sends nothing
    and logs nothing, while the same treatment configured with 30, 15 and 5
    is alerted. *)
Theorem send_alerts_empty_thresholds_not_defaulted :
  SA.resolveAlerts (vaccine (Some [])) = [] /\
  SA.main (household (Some []) delivering) fresh = (Ok tt, mkWorld [] [] 4) /\
  alert_log (snd (SA.main (household (Some [30; 15; 5]) delivering) fresh)) =
  [mkAlertLog "t1" "due_in_30" (mkISO 2024 6 1)] /\
  List.length
    (outbox (snd (SA.main (household (Some [30; 15; 5]) delivering) fresh)))
  = 1%nat.
Proof. repeat split; vm_compute; reflexivity. Qed.

(** *** Alert types *)



(** C3, on scripts/send-alerts.js.  Thirty days before the due date, with 30
    among the thresholds, the row the run records and deduplicates on has
    the type due_in_30, which is neither upcoming_30 nor overdue_daily; the
    scheduled script records upcoming_30 for the same household. *)
Theorem send_alerts_records_due_in :
  alert_log (snd (SA.main (household None delivering) fresh)) =
  [mkAlertLog "t1" "due_in_30" (mkISO 2024 6 1)] /\
  "due_in_30"%string <> ("upcoming_" ++ string_of_Z 30)%string /\
  "due_in_30"%string <> "overdue_daily"%string /\
  alert_log (snd (ZA.main (household None delivering) fresh)) =
  [mkAlertLog "t1" "upcoming_30" (mkISO 2024 6 1)].
Proof. repeat split; try (vm_compute; reflexivity); discriminate. Qed.

End AlertRunner.

(* ================================================================== *)
(** ** More on the schedule calculator *)

Module ScheduleExtras.
Import ES DateFns Schedule ScheduleSpec Store ESFacts DateFnsFacts ScheduleFacts.

Lemma MakeDay_month_index y m d :
  0 <= m <= 11 -> MakeDay y m d = MakeDay 0 (12 * y + m) 1 + d - 1.
Proof.
  intros Hm. unfold MakeDay.
  replace (m / 12) with 0 by lia. replace (m mod 12) with m by lia.
  replace ((12 * y + m) / 12) with y by lia.
  replace ((12 * y + m) mod 12) with m by lia.
  rewrite Z.add_0_r, Z.add_0_l. lia.
Qed.

Lemma first_of_month_step k :
  MakeDay 0 (k + 1) 1 = MakeDay 0 k 1 + daysInMonth (k / 12) (k mod 12).
Proof.
  pose proof (MakeDay_day_zero 0 k) as H. rewrite Z.add_0_l in H.
  assert (Hk : 0 <= k mod 12 <= 11) by lia.
  rewrite (MakeDay_month_index (k / 12) (k mod 12) _ Hk) in H.
  replace (12 * (k / 12) + k mod 12) with k in H by lia.
  unfold MakeDay in H |- *. lia.
Qed.

Lemma first_of_month_span k (n : nat) :
  28 * Z.of_nat n <= MakeDay 0 (k + Z.of_nat n) 1 - MakeDay 0 k 1
  <= 31 * Z.of_nat n.
Proof.
  induction n as [| n IH].
  - rewrite Z.add_0_r. lia.
  - replace (k + Z.of_nat (S n)) with (k + Z.of_nat n + 1) by lia.
    rewrite first_of_month_step.
    pose proof (daysInMonth_pos ((k + Z.of_nat n) / 12)
                  ((k + Z.of_nat n) mod 12)). lia.
Qed.

Lemma Day_civil t :
  Day t = MakeDay 0 (12 * YearFromTime t + MonthFromTime t) 1
          + DateFromTime t - 1.
Proof.
  pose proof (MakeDay_of_civil t 0) as H. rewrite !Z.add_0_r in H.
  rewrite <- H. apply MakeDay_month_index, MonthFromTime_range.
Qed.

(** Adding [v] months moves a date forward by 28 to 31 days a month. *)
Lemma Day_addMonths_bounds t v :
  0 <= v -> 28 * v <= Day (addMonths t v) - Day t <= 31 * v.
Proof.
  intros Hv.
  destruct (addMonths_civil t v) as (Hy & Hm & Hd & _).
  unfold getFullYear, getMonth, getDate in Hy, Hm, Hd.
  pose proof (MonthFromTime_range t) as HM.
  pose proof (DateFromTime_range t) as HD.
  rewrite (Day_civil (addMonths t v)), (Day_civil t).
  set (k := 12 * YearFromTime t + MonthFromTime t) in *.
  assert (Hk : 12 * YearFromTime (addMonths t v) + MonthFromTime (addMonths t v)
               = k + v) by (rewrite Hy, Hm; unfold k; lia).
  rewrite Hk.
  pose proof (daysInMonth_pos (YearFromTime (addMonths t v))
                (MonthFromTime (addMonths t v))) as Hdim.
  destruct (Z.eq_dec v 0) as [-> | Hpos].
  - rewrite Z.add_0_r in *.
    assert (YearFromTime (addMonths t 0) = YearFromTime t)
      by (unfold k in Hk; pose proof (MonthFromTime_range (addMonths t 0)); lia).
    assert (MonthFromTime (addMonths t 0) = MonthFromTime t)
      by (unfold k in Hk; lia).
    replace (YearFromTime (addMonths t 0)) with (YearFromTime t) in Hd.
    replace (MonthFromTime (addMonths t 0)) with (MonthFromTime t) in Hd.
    lia.
  - pose proof (first_of_month_span (k + 1) (Z.to_nat (v - 1))) as Hspan.
    rewrite Z2Nat.id in Hspan by lia.
    replace (k + 1 + (v - 1)) with (k + v) in Hspan by lia.
    rewrite first_of_month_step in Hspan.
    replace (k / 12) with (YearFromTime t) in Hspan by (unfold k; lia).
    replace (k mod 12) with (MonthFromTime t) in Hspan by (unfold k; lia).
    pose proof (daysInMonth_pos (YearFromTime t) (MonthFromTime t)). lia.
Qed.

(** X1. [daysToNext] counts calendar days: it is zero exactly between two
    times of the same day, whatever the time of day, changes sign when its
    arguments are swapped, and adds up along a chain of dates. *)
Theorem daysToNext_calendar_days (a b c : Date) :
  daysToNext a a = 0 /\
  (daysToNext a b = 0 <-> Day a = Day b) /\
  daysToNext a b = - daysToNext b a /\
  daysToNext a c = daysToNext a b + daysToNext b c /\
  daysToNext (startOfDay a) (startOfDay b) = daysToNext a b /\
  ZeusAlerts.daysToNext a b = daysToNext a b.
Proof.
  unfold daysToNext, ZeusAlerts.daysToNext.
  rewrite !differenceInCalendarDays_spec.
  unfold startOfDay, setHours0.
  rewrite !Day_MakeDate by (unfold msPerDay; lia).
  repeat split; lia.
Qed.


(** X3. The date the agenda prints and the date the scripts read back agree:
    reading the printed fields of a date as local midnight gives the start
    of its day, two dates print alike exactly when they lie on the same
    calendar day, and the alert script prints the same fields. *)
Theorem isoDateLocal_round_trip (d d' : Date) :
  parseLocalMidnight (Agenda.isoDateLocal d) = startOfDay d /\
  Agenda.isoDateLocal (parseLocalMidnight (Agenda.isoDateLocal d))
  = Agenda.isoDateLocal d /\
  (Agenda.isoDateLocal d = Agenda.isoDateLocal d' <-> Day d = Day d') /\
  SendAlerts.toISODate d = Agenda.isoDateLocal d.
Proof.
  assert (Hparse : forall x, parseLocalMidnight (Agenda.isoDateLocal x)
                             = startOfDay x).
  { intros x. unfold parseLocalMidnight, Agenda.isoDateLocal, startOfDay,
      setHours0. cbn [iso_year iso_month iso_day].
    unfold getFullYear, getMonth, getDate.
    replace (MonthFromTime x + 1 - 1) with (MonthFromTime x) by lia.
    pose proof (MakeDay_of_civil x 0) as H. rewrite !Z.add_0_r in H.
    rewrite H. reflexivity. }
  assert (Hsame : forall x y, Day x = Day y ->
                              Agenda.isoDateLocal x = Agenda.isoDateLocal y).
  { intros x y H.
    unfold Agenda.isoDateLocal, getFullYear, getMonth, getDate, MonthFromTime,
      DateFromTime, MonthFromTime, InLeapYear, DayWithinYear, YearFromTime.
    rewrite H. reflexivity. }
  split; [apply Hparse |]. split; [| split; [split |]].
  - apply Hsame. rewrite Hparse. unfold startOfDay, setHours0.
    apply Day_MakeDate. unfold msPerDay. lia.
  - intros H.
    assert (H' : startOfDay d = startOfDay d')
      by (rewrite <- !Hparse, H; reflexivity).
    unfold startOfDay, setHours0, MakeDate, msPerDay in H'. lia.
  - apply Hsame.
  - reflexivity.
Qed.


End ScheduleExtras.

(* ================================================================== *)
(** ** The schedule calculator on Date objects *)

Module ScheduleObjectFacts.
Import DateObject.
Import ES DateFns Schedule ScheduleSpec Store.
Import ESFacts DateFnsFacts ScheduleFacts ScheduleExtras DateObjectFacts.

(** The last day of the month that [addMonths] reaches lies between the
    date it starts from and 31 days a month later. *)
Lemma endOfDesiredMonth_bounds t value :
  1 <= value ->
  0 <= Day (setMonth t (getMonth t + value + 1) 0) - Day t <= 31 * value + 30 /\
  0 <= Day (addMonths t value) - Day t <= 31 * value.
Proof.
  intros Hv.
  pose proof (Day_addMonths_bounds t value ltac:(lia)) as Hb.
  destruct (addMonths_civil t value) as (Hy & Hm & Hdt & _).
  pose proof (MonthFromTime_range t) as Hrange.
  pose proof (DateFromTime_range (addMonths t value)) as Hdr.
  pose proof (MakeDay_of_civil (addMonths t value)
                (daysInMonth (YearFromTime (addMonths t value))
                             (MonthFromTime (addMonths t value))
                 - DateFromTime (addMonths t value))) as Hlast.
  split; [| lia].
  unfold setMonth. rewrite Day_MakeDate by apply TimeWithinDay_range.
  unfold getMonth, getFullYear, getDate in *.
  rewrite MakeDay_day_zero, <- Hy, <- Hm.
  replace (DateFromTime (addMonths t value)
           + (daysInMonth (YearFromTime (addMonths t value))
                          (MonthFromTime (addMonths t value))
              - DateFromTime (addMonths t value)))
    with (daysInMonth (YearFromTime (addMonths t value))
                      (MonthFromTime (addMonths t value))) in Hlast by lia.
  rewrite Hlast.
  pose proof (daysInMonth_pos (YearFromTime (addMonths t value))
                (MonthFromTime (addMonths t value))). lia.
Qed.

Lemma same_time_shift t t' :
  TimeWithinDay t' = TimeWithinDay t ->
  t' = t + (Day t' - Day t) * msPerDay.
Proof. unfold TimeWithinDay, Day, msPerDay. lia. Qed.

Section FixedOffset.

Variable tz : TimeZone.
Variable offset : Z.
Hypothesis atUTC : forall t, offsetAtUTC tz t = offset.
Hypothesis atLocal : forall t, offsetAtLocal tz t = offset.

Lemma addInterval_days_clipped d value :
  Z.abs d <= maxTime ->
  ScheduleObject.addInterval tz (Some d) value days
  = TimeClip (d + value * msPerDay).
Proof.
  intros Hd. cbn [ScheduleObject.addInterval].
  rewrite (addDays_fixed tz offset atUTC atLocal) by exact Hd.
  rewrite (UTC_fixed tz offset atLocal), addDays_spec,
    (LocalTime_fixed tz offset atUTC).
  f_equal. lia.
Qed.

End FixedOffset.

(** *** Zones that keep the calendar day *)

(** The fields of a date are those of its day. *)
Lemma fields_of_day a b :
  Day a = Day b ->
  YearFromTime a = YearFromTime b /\ MonthFromTime a = MonthFromTime b /\
  DateFromTime a = DateFromTime b /\ WeekDay a = WeekDay b.
Proof.
  intros H.
  unfold DateFromTime, MonthFromTime, InLeapYear, DayWithinYear, YearFromTime,
    WeekDay.
  rewrite H. repeat split; reflexivity.
Qed.

Lemma addDays_object tz d n :
  DateFnsObject.addDays tz (Some d) n =
  if n =? 0 then Some d
  else TimeClip (UTC tz (addDays (LocalTime tz d) n)).
Proof.
  unfold DateFnsObject.addDays, addDays. destruct (n =? 0); reflexivity.
Qed.


Lemma near_bound d l e u k n :
  Z.abs l <= Z.abs d + msPerDay -> e = l + k * msPerDay -> 0 <= k <= n ->
  Z.abs u <= Z.abs e + msPerDay ->
  Z.abs u <= Z.abs d + (n + 2) * msPerDay.
Proof. unfold msPerDay. lia. Qed.

Section KeepsDay.

Variable tz : TimeZone.
Hypothesis keeps : keepsDay tz.

(** [addMonths] is the function of the local time line, clipped, as long as
    the last day of the month it reaches is a valid date. *)
Lemma addMonths_object d n :
  DateFnsObject.addMonths tz (Some d) n =
  if n =? 0 then Some d
  else
    match TimeClip (UTC tz (setMonth (LocalTime tz d)
                              (getMonth (LocalTime tz d) + n + 1) 0)) with
    | Some _ => TimeClip (UTC tz (addMonths (LocalTime tz d) n))
    | None => None
    end.
Proof.
  unfold DateFnsObject.addMonths, addMonths.
  destruct (n =? 0); [reflexivity |].
  cbv zeta.
  cbn [DateObject.getMonth DateObject.getDate plus DateObject.setMonth].
  replace (MonthFromTime (LocalTime tz d) + (n + 1))
    with (getMonth (LocalTime tz d) + n + 1) by (unfold getMonth; lia).
  generalize (setMonth (LocalTime tz d) (getMonth (LocalTime tz d) + n + 1) 0).
  intros e.
  destruct (TimeClip (UTC tz e)) as [eu |] eqn:Ee.
  - apply TimeClip_Some in Ee. destruct Ee as [-> He].
    cbn [DateObject.getDate DateObject.getMonth DateObject.getFullYear
         greaterOrEqual DateObject.setFullYear].
    destruct (fields_of_day _ _ (keeps e)) as (Hy & Hm & Hdt & _).
    rewrite Hy, Hm, Hdt. unfold getDate, getMonth, getFullYear.
    destruct (DateFromTime e <=? DateFromTime (LocalTime tz d)).
    + symmetry. apply TimeClip_valid. exact He.
    + reflexivity.
  - reflexivity.
Qed.

(** A valid result of [addInterval] falls on the day that the local time
    line gives. *)
Lemma addInterval_day d v u r :
  Z.abs d <= maxTime ->
  ScheduleObject.addInterval tz (Some d) v u = Some r ->
  Day (LocalTime tz r) = Day (addInterval (LocalTime tz d) v u) /\
  Z.abs r <= maxTime.
Proof.
  intros Hd. destruct u; cbn [ScheduleObject.addInterval addInterval].
  - rewrite addDays_object. destruct (Z.eqb_spec v 0) as [-> | Hv].
    + intros H. inversion H; subst. rewrite addDays_spec.
      split; [f_equal; lia | exact Hd].
    + intros H. apply TimeClip_Some in H. destruct H as [-> H].
      split; [apply keeps | exact H].
  - rewrite addMonths_object. destruct (Z.eqb_spec v 0) as [-> | Hv].
    + intros H. inversion H; subst. split; [reflexivity | exact Hd].
    + destruct (TimeClip (UTC tz (setMonth _ _ 0))); [| discriminate].
      intros H. apply TimeClip_Some in H. destruct H as [-> H].
      split; [apply keeps | exact H].
Qed.



Lemma addInterval_months_day_fields d value r :
  Z.abs d <= maxTime ->
  ScheduleObject.addInterval tz (Some d) value months = Some r ->
  12 * getFullYear (LocalTime tz r) + getMonth (LocalTime tz r)
  = 12 * getFullYear (LocalTime tz d) + getMonth (LocalTime tz d) + value /\
  getDate (LocalTime tz r) =
    Z.min (getDate (LocalTime tz d))
          (daysInMonth (getFullYear (LocalTime tz r))
                       (getMonth (LocalTime tz r))).
Proof.
  intros Hd Hr.
  destruct (addInterval_day d value months r Hd Hr) as [Hday _].
  destruct (fields_of_day _ _ Hday) as (Fy & Fm & Fd & _).
  cbn [addInterval] in Fy, Fm, Fd.
  destruct (addMonths_civil (LocalTime tz d) value) as (Hy & Hm & Hdt & _).
  pose proof (MonthFromTime_range (LocalTime tz d)) as Hrange.
  unfold getFullYear, getMonth, getDate in *.
  rewrite Fy, Fm, Fd. split; [lia | exact Hdt].
Qed.

(** *** The dates that stay in the range *)

Hypothesis bounded : offsetsWithinDay tz.

Lemma LocalTime_near t : Z.abs (LocalTime tz t) <= Z.abs t + msPerDay.
Proof. unfold LocalTime. destruct (bounded t) as [H _]. lia. Qed.

Lemma UTC_near t : Z.abs (UTC tz t) <= Z.abs t + msPerDay.
Proof. unfold UTC. destruct (bounded t) as [_ H]. lia. Qed.

Lemma addInterval_in_range d v u :
  0 <= v ->
  Z.abs d + (match u with days => v + 2 | months => 31 * v + 32 end) * msPerDay
  <= maxTime ->
  exists r,
    ScheduleObject.addInterval tz (Some d) v u = Some r /\
    Z.abs r
    <= Z.abs d + (match u with days => v | months => 31 * v end + 2) * msPerDay.
Proof.
  intros Hv Hmax. destruct u; cbn [ScheduleObject.addInterval].
  - rewrite addDays_object.
    destruct (Z.eqb_spec v 0) as [-> | Hne];
      [exists d; split; [reflexivity | unfold msPerDay; lia] |].
    assert (Hb : Z.abs (UTC tz (addDays (LocalTime tz d) v))
                 <= Z.abs d + (v + 2) * msPerDay).
    { apply (near_bound d (LocalTime tz d) (addDays (LocalTime tz d) v) _ v v);
        [apply LocalTime_near | apply addDays_spec | lia | apply UTC_near]. }
    eexists. split; [apply TimeClip_valid; lia | exact Hb].
  - rewrite addMonths_object.
    destruct (Z.eqb_spec v 0) as [-> | Hne];
      [exists d; split; [reflexivity | unfold msPerDay; lia] |].
    destruct (endOfDesiredMonth_bounds (LocalTime tz d) v ltac:(lia))
      as [He Hr].
    destruct (addMonths_civil (LocalTime tz d) v) as (_ & _ & _ & Ht).
    assert (Hte : TimeWithinDay
                    (setMonth (LocalTime tz d)
                              (getMonth (LocalTime tz d) + v + 1) 0)
                  = TimeWithinDay (LocalTime tz d))
      by (apply TimeWithinDay_MakeDate, TimeWithinDay_range).
    assert (Hbe : Z.abs (UTC tz (setMonth (LocalTime tz d)
                                   (getMonth (LocalTime tz d) + v + 1) 0))
                  <= Z.abs d + (31 * v + 30 + 2) * msPerDay).
    { apply (near_bound d (LocalTime tz d) _ _ _ (31 * v + 30)
               (LocalTime_near d) (same_time_shift _ _ Hte));
        [lia | apply UTC_near]. }
    assert (Hbr : Z.abs (UTC tz (addMonths (LocalTime tz d) v))
                  <= Z.abs d + (31 * v + 2) * msPerDay).
    { apply (near_bound d (LocalTime tz d) _ _ _ (31 * v)
               (LocalTime_near d) (same_time_shift _ _ Ht));
        [lia | apply UTC_near]. }
    assert (Hve : Z.abs (UTC tz (setMonth (LocalTime tz d)
                                   (getMonth (LocalTime tz d) + v + 1) 0))
                  <= maxTime)
      by (clear - Hbe Hmax; unfold msPerDay in *; lia).
    assert (Hvr : Z.abs (UTC tz (addMonths (LocalTime tz d) v)) <= maxTime)
      by (clear - Hbr Hmax Hv; unfold msPerDay in *; lia).
    rewrite (TimeClip_valid _ Hve), (TimeClip_valid _ Hvr).
    eexists. split; [reflexivity | exact Hbr].
Qed.



End KeepsDay.

(** A zone with a fixed offset keeps the calendar day. *)
Lemma fixedOffset_keepsDay tz offset :
  (forall t, offsetAtUTC tz t = offset) ->
  (forall t, offsetAtLocal tz t = offset) -> keepsDay tz.
Proof.
  intros atUTC atLocal t.
  rewrite (LocalTime_UTC tz offset atUTC atLocal). reflexivity.
Qed.

(** So does the zone of Sao Paulo across the transition of 2018. *)
Lemma sao_paulo_2018_keepsDay : keepsDay Scenario.sao_paulo_2018.
Proof.
  intros t. unfold LocalTime, UTC, Scenario.sao_paulo_2018.
  cbn [offsetAtUTC offsetAtLocal].
  change (MakeDate (MakeDay 2018 10 4) 10800000) with 1541300400000.
  change (MakeDate (MakeDay 2018 10 4) 3600000) with 1541293200000.
  destruct (Z.ltb_spec t 1541293200000) as [H1 | H1];
    match goal with
    | |- context [?u <? 1541300400000] =>
        destruct (Z.ltb_spec u 1541300400000) as [H2 | H2]
    end;
    unfold Day, msPerDay; lia.
Qed.


(** Across that transition a day after midnight of 3 November is 01:00 of
    4 November: the day is the next one, the time of day is not kept. *)
Lemma addInterval_across_transition :
  ScheduleObject.addInterval Scenario.sao_paulo_2018
    (Some Scenario.november_3_2018) 1 days
  = Some (MakeDate (MakeDay 2018 10 4) 10800000) /\
  LocalTime Scenario.sao_paulo_2018 (MakeDate (MakeDay 2018 10 4) 10800000)
  = MakeDate (MakeDay 2018 10 4) 3600000 /\
  newDate Scenario.sao_paulo_2018 (fun _ => false) (mkISO 2018 11 4)
  = Some (MakeDate (MakeDay 2018 10 4) 10800000).
Proof. repeat split; vm_compute; reflexivity. Qed.

Section FixedOffsetTime.

Variable tz : TimeZone.
Variable offset : Z.
Hypothesis atUTC : forall t, offsetAtUTC tz t = offset.
Hypothesis atLocal : forall t, offsetAtLocal tz t = offset.

(** With a fixed offset the time of day is kept. *)
Lemma addInterval_time_of_day d v u r :
  Z.abs d <= maxTime ->
  ScheduleObject.addInterval tz (Some d) v u = Some r ->
  TimeWithinDay (LocalTime tz r) = TimeWithinDay (LocalTime tz d).
Proof.
  intros Hd Hr.
  destruct (addInterval_fixed tz offset atUTC atLocal d v u r Hd Hr) as [Hl _].
  rewrite Hl. destruct u; cbn [addInterval].
  - rewrite addDays_spec. unfold TimeWithinDay, msPerDay. lia.
  - destruct (addMonths_civil (LocalTime tz d) v) as (_ & _ & _ & Ht).
    exact Ht.
Qed.

End FixedOffsetTime.

(** Not every interval gives a date: 2147483647, which the page of the
    settings accepts, leaves the range of [Date], and [addInterval] gives the
    invalid date in either unit. *)
Lemma addInterval_leaves_range :
  ~ (forall value, 0 <= value ->
       exists r,
         ScheduleObject.addInterval Scenario.sao_paulo
           (Some Scenario.january_31_2024) value days = Some r /\
         daysToNext (LocalTime Scenario.sao_paulo r)
                    (LocalTime Scenario.sao_paulo Scenario.january_31_2024)
         = value) /\
  ScheduleObject.addInterval Scenario.sao_paulo
    (Some Scenario.january_31_2024) 2147483647 days = None /\
  ScheduleObject.addInterval Scenario.sao_paulo
    (Some Scenario.january_31_2024) 2147483647 months = None.
Proof.
  assert (Hdays : ScheduleObject.addInterval Scenario.sao_paulo
                    (Some Scenario.january_31_2024) 2147483647 days = None)
    by (vm_compute; reflexivity).
  split; [| split; [exact Hdays | vm_compute; reflexivity]].
  intros H. destruct (H 2147483647 ltac:(lia)) as (r & Hr & _).
  rewrite Hdays in Hr. discriminate.
Qed.

(** C8. For a valid date [d] and a non-negative [value], in a zone that
    keeps the calendar day: a date that [addInterval] gives with the unit
    days falls exactly [value] calendar days after [d]; one it gives with the
    unit months falls [value] calendar months after [d], on the same day of
    the month unless the month reached is shorter, and then on its last day.
    It gives a date whenever [value + 2] days, or 31 days a month and 32
    more, stay in the range of [Date] around [d].  One month after a
    January 31 is the last day of February of that year.  In a zone with a
    fixed offset the date it gives with the unit days is exactly [value]
    days later, or the invalid date when that leaves the range, and in
    either unit the time of day is kept. *)
Theorem addInterval_calendar (tz : TimeZone) (d value : Z) :
  keepsDay tz ->
  Z.abs d <= maxTime ->
  0 <= value ->
  (forall r,
     ScheduleObject.addInterval tz (Some d) value days = Some r ->
     daysToNext (LocalTime tz r) (LocalTime tz d) = value) /\
  (forall r,
     ScheduleObject.addInterval tz (Some d) value months = Some r ->
     12 * getFullYear (LocalTime tz r) + getMonth (LocalTime tz r)
     = 12 * getFullYear (LocalTime tz d) + getMonth (LocalTime tz d) + value /\
     getDate (LocalTime tz r) =
       Z.min (getDate (LocalTime tz d))
             (daysInMonth (getFullYear (LocalTime tz r))
                          (getMonth (LocalTime tz r)))) /\
  (offsetsWithinDay tz ->
   (Z.abs d + (value + 2) * msPerDay <= maxTime ->
    exists r, ScheduleObject.addInterval tz (Some d) value days = Some r) /\
   (Z.abs d + (31 * value + 32) * msPerDay <= maxTime ->
    exists r, ScheduleObject.addInterval tz (Some d) value months = Some r)) /\
  (getMonth (LocalTime tz d) = 0 -> getDate (LocalTime tz d) = 31 ->
   forall r,
     ScheduleObject.addInterval tz (Some d) 1 months = Some r ->
     getFullYear (LocalTime tz r) = getFullYear (LocalTime tz d) /\
     getMonth (LocalTime tz r) = 1 /\
     getDate (LocalTime tz r) = daysInMonth (getFullYear (LocalTime tz d)) 1) /\
  (forall offset,
     (forall t, offsetAtUTC tz t = offset) ->
     (forall t, offsetAtLocal tz t = offset) ->
     ScheduleObject.addInterval tz (Some d) value days
     = TimeClip (d + value * msPerDay) /\
     forall unit r,
       ScheduleObject.addInterval tz (Some d) value unit = Some r ->
       TimeWithinDay (LocalTime tz r) = TimeWithinDay (LocalTime tz d)).
Proof.
  intros keeps Hd Hv.
  split; [| split; [| split; [| split]]].
  - intros r Hr.
    destruct (addInterval_day tz keeps d value days r Hd Hr) as [Hday _].
    cbn [addInterval] in Hday. rewrite Day_addDays in Hday.
    unfold daysToNext. rewrite differenceInCalendarDays_spec. lia.
  - intros r Hr.
    exact (addInterval_months_day_fields tz keeps d value r Hd Hr).
  - intros bounded. split; intros Hmax.
    + destruct (addInterval_in_range tz keeps bounded d value days Hv Hmax)
        as (r & Hr & _).
      exists r. exact Hr.
    + destruct (addInterval_in_range tz keeps bounded d value months Hv Hmax)
        as (r & Hr & _).
      exists r. exact Hr.
  - intros Hjan H31 r Hr.
    destruct (addInterval_months_day_fields tz keeps d 1 r Hd Hr)
      as (Hym & Hdt).
    pose proof (MonthFromTime_range (LocalTime tz r)) as Hrange.
    unfold getMonth, getFullYear, getDate in *.
    assert (Hy : YearFromTime (LocalTime tz r) = YearFromTime (LocalTime tz d))
      by lia.
    assert (Hm : MonthFromTime (LocalTime tz r) = 1) by lia.
    rewrite Hy, Hm in Hdt. rewrite Hdt, H31.
    pose proof (daysInMonth_table (YearFromTime (LocalTime tz d)) 1) as Hdim.
    repeat split; try assumption.
    rewrite Hdim. destruct (isLeapYear _); reflexivity.
  - intros offset atUTC atLocal.
    split; [apply (addInterval_days_clipped tz offset atUTC atLocal); exact Hd |].
    intros unit r Hr.
    exact (addInterval_time_of_day tz offset atUTC atLocal d value unit r Hd Hr).
Qed.

Lemma addInterval_calendar_witness :
  keepsDay Scenario.sao_paulo_2018 /\
  Z.abs Scenario.november_3_2018 <= maxTime /\
  0 <= 1 /\
  forall r,
    ScheduleObject.addInterval Scenario.sao_paulo_2018
      (Some Scenario.november_3_2018) 1 days = Some r ->
    daysToNext (LocalTime Scenario.sao_paulo_2018 r)
               (LocalTime Scenario.sao_paulo_2018 Scenario.november_3_2018)
    = 1.
Proof.
  assert (Hd : Z.abs Scenario.november_3_2018 <= maxTime)
    by (vm_compute; discriminate).
  split; [exact sao_paulo_2018_keepsDay |].
  split; [exact Hd |]. split; [exact Z.le_0_1 |].
  exact (proj1 (addInterval_calendar Scenario.sao_paulo_2018
                  Scenario.november_3_2018 1
                  sao_paulo_2018_keepsDay Hd Z.le_0_1)).
Defined.







End ScheduleObjectFacts.

(* ================================================================== *)
(** ** More on the alert runner *)

Module RunnerExtras.
Import ES DateFns Store StoreSpec RunnerSpec StoreFacts ESFacts DateFnsFacts.
Import Scenario.

Module SA := SendAlerts.
Module SAF := SendAlertsFacts.
Module SAS := SendAlertsSpec.
Module ZA := ZeusAlerts.
Module ZAF := ZeusAlertsFacts.
Module ZAS := ZeusAlertsSpec.

(** *** The pets of the owners *)

Lemma existsb_nodup (x : string) (l : list string) :
  existsb (String.eqb x) (nodup string_dec l) = existsb (String.eqb x) l.
Proof.
  destruct (existsb (String.eqb x) l) eqn:E.
  - apply existsb_exists in E. destruct E as (y & Hy & Heq).
    apply existsb_exists. exists y. split; [| exact Heq].
    apply nodup_In. exact Hy.
  - destruct (existsb (String.eqb x) (nodup string_dec l)) eqn:E'; [| reflexivity].
    apply existsb_exists in E'. destruct E' as (y & Hy & Heq).
    apply nodup_In in Hy.
    assert (existsb (String.eqb x) l = true)
      by (apply existsb_exists; exists y; split; assumption).
    congruence.
Qed.

Lemma hasOwner_ids env p :
  existsb (String.eqb (pet_id p))
          (map member_pet_id
               (filter (fun m => member_role m =? "owner")%string
                       (pet_members env)))
  = hasOwner env p.
Proof.
  unfold hasOwner. induction (pet_members env) as [| m ms IH]; [reflexivity |].
  cbn [filter existsb]. destruct (member_role m =? "owner")%string.
  - cbn [map existsb andb]. rewrite IH.
    rewrite (String.eqb_sym (pet_id p) (member_pet_id m)). reflexivity.
  - cbn [andb orb]. exact IH.
Qed.

Lemma ownerPets_filter env :
  ZAS.ownerPets env = filter (hasOwner env) (pets env).
Proof.
  unfold ZAS.ownerPets.
  set (ids := map member_pet_id _).
  assert (Hext : forall p, existsb (String.eqb (pet_id p)) (nodup string_dec ids)
                           = hasOwner env p)
    by (intros p; rewrite existsb_nodup; apply hasOwner_ids).
  destruct (nodup string_dec ids) as [| i rest] eqn:En.
  - symmetry. induction (pets env) as [| p ps IH]; [reflexivity |].
    cbn [filter]. rewrite <- Hext. cbn [existsb]. exact IH.
  - apply filter_ext. exact Hext.
Qed.

Lemma hasOwner_spec env p :
  hasOwner env p = true <->
  exists m, In m (pet_members env) /\ member_role m = "owner"%string /\
            member_pet_id m = pet_id p.
Proof.
  unfold hasOwner. rewrite existsb_exists. split.
  - intros (m & Hin & H). apply andb_true_iff in H. destruct H as [Hr Hp].
    apply String.eqb_eq in Hr, Hp. exists m. repeat split; assumption.
  - intros (m & Hin & Hr & Hp). exists m. split; [assumption |].
    apply andb_true_iff. split; apply String.eqb_eq; assumption.
Qed.

(** X5. [getOwnerPets] yields, in the order of the table, exactly the pets
    that have a member with the role owner; it changes neither the alert log
    nor the messages, makes at most two requests, and throws only the error
    of a fault that hit one of them. *)
Theorem getOwnerPets_owned (env : Env) (w : World) :
  match ZA.getOwnerPets env w with
  | (Ok owned, w') =>
      owned = filter (hasOwner env) (pets env) /\
      (forall p, In p owned <->
                 In p (pets env) /\
                 exists m, In m (pet_members env) /\
                           member_role m = "owner"%string /\
                           member_pet_id m = pet_id p) /\
      same_records w w' /\
      (requests w < requests w' <= requests w + 2)%nat
  | (Throw e, w') =>
      (exists f, e = StoreError (fault_error f) /\
                 (store_faults env (requests w) = Some f \/
                  store_faults env (S (requests w)) = Some f)) /\
      same_records w w'
  end.
Proof.
  assert (Hiff : forall p, In p (filter (hasOwner env) (pets env)) <->
                 In p (pets env) /\
                 exists m, In m (pet_members env) /\
                           member_role m = "owner"%string /\
                           member_pet_id m = pet_id p)
    by (intros p; rewrite filter_In, hasOwner_spec; reflexivity).
  pose proof (ownerPets_filter env) as Hown. unfold ZAS.ownerPets in Hown.
  unfold ZA.getOwnerPets, bind, selectMembersByRole.
  rewrite select_run.
  destruct (store_faults env (requests w)) as [f |] eqn:Hf.
  { split; [| apply same_records_next]. exists f. split; [reflexivity | left; reflexivity]. }
  destruct (nodup string_dec _) as [| i ids] eqn:En.
  { unfold ret. rewrite <- Hown.
    split; [reflexivity |]. split; [rewrite Hown; exact Hiff |].
    split; [apply same_records_next |]. cbn. lia. }
  unfold selectPetsIn. rewrite select_run. cbn [requests next_request].
  destruct (store_faults env (S (requests w))) as [f |] eqn:Hf'.
  - split; [| split; reflexivity].
    exists f. split; [reflexivity | right; reflexivity].
  - unfold ret. rewrite <- Hown.
    split; [reflexivity |]. split; [rewrite Hown; exact Hiff |].
    split; [split; reflexivity |]. cbn. lia.
Qed.

(** *** The accounts of a run *)

Lemma appended_nil w w' : same_records w w' -> appended w w' [] [].
Proof. intros [Hl Ho]. split; rewrite ?Hl, ?Ho, app_nil_r; reflexivity. Qed.

Lemma appended_trans w w1 w2 rows1 msgs1 rows2 msgs2 :
  appended w w1 rows1 msgs1 -> appended w1 w2 rows2 msgs2 ->
  appended w w2 (rows1 ++ rows2) (msgs1 ++ msgs2).
Proof.
  intros [Hl1 Ho1] [Hl2 Ho2]. split.
  - rewrite Hl2, Hl1, app_assoc. reflexivity.
  - rewrite Ho2, Ho1, app_assoc. reflexivity.
Qed.

Lemma zeus_accounted_quiet n w w' :
  same_records w w' -> zeus_accounted n w (Ok n) w'.
Proof.
  intros H. exists [], []. split; [apply appended_nil; exact H |].
  cbn. split; [lia | reflexivity].
Qed.

Lemma zeus_accounted_quiet_throw n w e w' :
  same_records w w' -> zeus_accounted n w (Throw e) w'.
Proof.
  intros H. exists [], []. split; [apply appended_nil; exact H |]. cbn. lia.
Qed.

Lemma zeus_accounted_seq n w n1 w1 r w2 :
  zeus_accounted n w (Ok n1) w1 -> zeus_accounted n1 w1 r w2 ->
  zeus_accounted n w r w2.
Proof.
  intros (rows1 & msgs1 & Ha1 & Hn1 & Hm1) (rows2 & msgs2 & Ha2 & H2).
  exists (rows1 ++ rows2), (msgs1 ++ msgs2).
  split; [eapply appended_trans; eassumption |].
  rewrite !length_app. destruct r as [n2 | e]; lia.
Qed.

Lemma zeus_accounted_after_request n w r w' :
  zeus_accounted n (next_request w) r w' -> zeus_accounted n w r w'.
Proof.
  intros H. eapply zeus_accounted_seq; [| exact H].
  apply zeus_accounted_quiet, same_records_next.
Qed.

Lemma zeus_notifyOnce_accounted env row msg n w r w' :
  ZAS.notifyOnce env row msg n w = (r, w') -> zeus_accounted n w r w'.
Proof.
  intros H. apply ZAF.notifyOnce_outcome in H.
  destruct H as [w' Hin Hs | w' Hn Hl Ho | e w' Hs
                | e w' Hn He Hs | e w' Hn Hl Ho].
  - apply zeus_accounted_quiet. exact Hs.
  - exists [row], [msg]. split; [split; assumption |]. cbn. lia.
  - apply zeus_accounted_quiet_throw. exact Hs.
  - apply zeus_accounted_quiet_throw. exact Hs.
  - exists [], [msg]. split; [split; rewrite ?app_nil_r; assumption |].
    cbn. lia.
Qed.

Lemma zeus_processTreatment_accounted env pet nowSP todayKey n t w r w' :
  ZA.processTreatment env pet nowSP todayKey n t w = (r, w') ->
  zeus_accounted n w r w'.
Proof.
  unfold ZA.processTreatment. unfold bind at 1.
  rewrite ZAF.getLastApplicationDate_run.
  destruct (store_faults env (requests w)) as [f |].
  { intros H. inversion H; subst.
    apply zeus_accounted_quiet_throw, same_records_next. }
  destruct (lastApplication env (id t)) as [| lastAppliedOn rest];
    cbn [hd_error].
  { intros H. inversion H; subst.
    apply zeus_accounted_quiet, same_records_next. }
  cbv zeta. next_date_cases env t lastAppliedOn.
  2: { intros H. inversion H; subst.
       apply zeus_accounted_quiet_throw, same_records_next. }
  unfold bind.
  match goal with
  | |- context [ZA.includes ?a ?d] => destruct (ZA.includes a d); set (days := d)
  end.
  - rewrite ZAF.upcomingAlert_notifyOnce.
    destruct (ZAS.notifyOnce env _ _ n (next_request w)) as [[n1 | e1] w1] eqn:Hu;
      apply zeus_notifyOnce_accounted in Hu.
    + destruct (days <? 0).
      * rewrite ZAF.overdueAlert_notifyOnce. intros Ho.
        apply zeus_notifyOnce_accounted in Ho.
        apply zeus_accounted_after_request.
        eapply zeus_accounted_seq; eassumption.
      * intros H. inversion H; subst.
        apply zeus_accounted_after_request. exact Hu.
    + intros H. inversion H; subst.
      apply zeus_accounted_after_request. exact Hu.
  - unfold ret at 1. destruct (days <? 0).
    + rewrite ZAF.overdueAlert_notifyOnce. intros Ho.
      apply zeus_notifyOnce_accounted in Ho.
      apply zeus_accounted_after_request. exact Ho.
    + intros H. inversion H; subst.
      apply zeus_accounted_quiet. split; reflexivity.
Qed.

Lemma forEachWith_zeus_accounted {A} (l : list A) (body : nat -> A -> M nat) :
  (forall n x w r w', body n x w = (r, w') -> zeus_accounted n w r w') ->
  forall n w r w', forEachWith l body n w = (r, w') -> zeus_accounted n w r w'.
Proof.
  intros Hbody. induction l as [| x l IH]; intros n w r w' Hrun.
  - cbn in Hrun. unfold ret in Hrun. inversion Hrun; subst.
    apply zeus_accounted_quiet, same_records_refl.
  - cbn [forEachWith] in Hrun. unfold bind in Hrun.
    destruct (body n x w) as [[n1 | e] w1] eqn:Hb.
    + eapply zeus_accounted_seq; [eapply Hbody; exact Hb |].
      eapply IH. exact Hrun.
    + inversion Hrun; subst. eapply Hbody. exact Hb.
Qed.

Lemma zeus_processPet_accounted env nowSP todayKey n pet w r w' :
  ZA.processPet env nowSP todayKey n pet w = (r, w') ->
  zeus_accounted n w r w'.
Proof.
  unfold ZA.processPet. unfold bind at 1. rewrite ZAF.getTreatmentsByPet_run.
  destruct (store_faults env (requests w)) as [f |].
  { intros H. inversion H; subst.
    apply zeus_accounted_quiet_throw, same_records_next. }
  intros H. apply zeus_accounted_after_request.
  eapply forEachWith_zeus_accounted; [| exact H].
  intros n0 x w0 r0 w0'. apply zeus_processTreatment_accounted.
Qed.

Lemma zeus_main_accounted env w r w' :
  ZA.main env w = (r, w') -> zeus_accounted 0 w r w'.
Proof.
  unfold ZA.main. cbv zeta. unfold bind at 1.
  destruct (ZA.getOwnerPets env w) as [r0 w0] eqn:E0.
  destruct (ZAF.getOwnerPets_cases env w r0 w0 E0) as [Hs [-> | [e ->]]].
  - intros H.
    assert (H' : forEachWith (ZAS.ownerPets env)
                   (ZA.processPet env (toZone env (clock env))
                      (ZA.isoDateSP env (toZone env (clock env)))) 0%nat w0
                 = (r, w'))
      by (destruct (ZAS.ownerPets env); exact H).
    eapply zeus_accounted_seq; [apply zeus_accounted_quiet; exact Hs |].
    eapply forEachWith_zeus_accounted; [| exact H'].
    intros n0 x w1 r1 w1'. apply zeus_processPet_accounted.
  - intros H. inversion H; subst.
    apply zeus_accounted_quiet_throw. exact Hs.
Qed.

(** X6. A run of the scheduled script only appends to the alert log and to
    the messages delivered.  When it completes, the count it reports is the
    number of messages it delivered and the number of rows it logged; when
    it throws, every row it logged has its message delivered, and at most one
    message delivered is left without its row. *)
Theorem zeus_run_accounts (env : Env) (w : World) :
  exists rows msgs,
    alert_log (snd (ZA.main env w)) = alert_log w ++ rows /\
    outbox (snd (ZA.main env w)) = outbox w ++ msgs /\
    match fst (ZA.main env w) with
    | Ok sentCount =>
        sentCount = List.length msgs /\ sentCount = List.length rows
    | Throw _ =>
        (List.length rows <= List.length msgs <= List.length rows + 1)%nat
    end.
Proof.
  destruct (ZA.main env w) as [r w'] eqn:E.
  destruct (zeus_main_accounted env w r w' E) as (rows & msgs & [Hl Ho] & H).
  exists rows, msgs. cbn [fst snd]. split; [exact Hl |]. split; [exact Ho |].
  destruct r; [lia | exact H].
Qed.

Lemma send_accounted_quiet {A} w (r : Outcome A) w' :
  same_records w w' -> send_accounted w r w'.
Proof.
  intros H. exists [], []. split; [apply appended_nil; exact H |].
  destruct r; cbn; lia.
Qed.

Lemma send_accounted_seq {A B} w (a : A) w1 (r : Outcome B) w2 :
  send_accounted w (Ok a) w1 -> send_accounted w1 r w2 ->
  send_accounted w r w2.
Proof.
  intros (rows1 & msgs1 & Ha1 & H1) (rows2 & msgs2 & Ha2 & H2).
  exists (rows1 ++ rows2), (msgs1 ++ msgs2).
  split; [eapply appended_trans; eassumption |].
  rewrite !length_app. destruct r; cbn in *; lia.
Qed.

Lemma send_accounted_after_request {A} w (r : Outcome A) w' :
  send_accounted (next_request w) r w' -> send_accounted w r w'.
Proof.
  intros H. eapply (send_accounted_seq w tt); [| exact H].
  apply send_accounted_quiet, same_records_next.
Qed.

Lemma send_claimThenNotify_accounted env row msg w r w' :
  SAS.claimThenNotify env row msg w = (r, w') -> send_accounted w r w'.
Proof.
  intros H. apply SAF.claimThenNotify_outcome in H.
  destruct H as [w' Hin Hs | w' Hn Hl Ho | e w' Hs | e w' Hn He Hl Ho].
  - apply send_accounted_quiet. exact Hs.
  - exists [row], [msg]. split; [split; assumption |]. reflexivity.
  - apply send_accounted_quiet. exact Hs.
  - exists [row], []. split; [split; rewrite ?app_nil_r; assumption |].
    cbn. lia.
Qed.

Lemma send_processTreatment_accounted env zeus nowSP todayISO t w r w' :
  SA.processTreatment env zeus nowSP todayISO t w = (r, w') ->
  send_accounted w r w'.
Proof.
  unfold SA.processTreatment. unfold bind at 1.
  unfold selectLastApplication. rewrite select_run.
  destruct (store_faults env (requests w)) as [f |].
  { intros H. inversion H; subst.
    apply send_accounted_quiet, same_records_next. }
  destruct (lastApplication env (id t)) as [| lastAppliedOn rest].
  { intros H. inversion H; subst.
    apply send_accounted_quiet, same_records_next. }
  cbv zeta. next_date_cases env t lastAppliedOn.
  2: { intros H. inversion H; subst.
       apply send_accounted_quiet, same_records_next. }
  intros H. apply send_accounted_after_request. revert H.
  match goal with
  | |- context [(?d <? 0)] => destruct (d <? 0); set (days := d)
  end.
  - apply (send_claimThenNotify_accounted env (SAS.overdueRow todayISO t)).
  - destruct (SA.includes (SA.resolveAlerts t) days).
    + apply (send_claimThenNotify_accounted env (SAS.dueRow todayISO t days)).
    + intros H. inversion H; subst.
      apply send_accounted_quiet, same_records_refl.
Qed.

Lemma forEach_send_accounted {A} (l : list A) (body : A -> M unit) :
  (forall x w r w', body x w = (r, w') -> send_accounted w r w') ->
  forall w r w', forEach l body w = (r, w') -> send_accounted w r w'.
Proof.
  intros Hbody. induction l as [| x l IH]; intros w r w' Hrun.
  - cbn in Hrun. unfold ret in Hrun. inversion Hrun; subst.
    apply send_accounted_quiet, same_records_refl.
  - cbn [forEach] in Hrun. unfold bind in Hrun.
    destruct (body x w) as [[[] | e] w1] eqn:Hb.
    + eapply (send_accounted_seq w tt); [eapply Hbody; exact Hb |].
      eapply IH. exact Hrun.
    + inversion Hrun; subst. eapply Hbody. exact Hb.
Qed.

Lemma send_main_accounted env w r w' :
  SA.main env w = (r, w') -> send_accounted w r w'.
Proof.
  unfold SA.main. cbv zeta. unfold bind at 1.
  unfold selectPetsByName. rewrite select_run.
  destruct (store_faults env (requests w)) as [f |].
  { intros H. inversion H; subst.
    apply send_accounted_quiet, same_records_next. }
  destruct (firstn 1 _) as [| zeus others].
  { intros H. inversion H; subst.
    apply send_accounted_quiet, same_records_next. }
  intros H. apply send_accounted_after_request. revert H.
  unfold bind at 1. unfold selectTreatmentsByPet. rewrite select_run.
  destruct (store_faults env (requests (next_request w))) as [f |].
  { intros H. inversion H; subst.
    apply send_accounted_quiet, same_records_next. }
  intros H. apply send_accounted_after_request.
  eapply forEach_send_accounted; [| exact H].
  intros x w0 r0 w0'. apply send_processTreatment_accounted.
Qed.

(** X7. A run of scripts/send-alerts.js only appends to the alert log and
    to the messages delivered.  When it completes, it has delivered one
    message for each row it logged; when it throws, every message delivered
    has its row, and at most one row logged is left without its message. *)
Theorem send_run_accounts (env : Env) (w : World) :
  exists rows msgs,
    alert_log (snd (SA.main env w)) = alert_log w ++ rows /\
    outbox (snd (SA.main env w)) = outbox w ++ msgs /\
    match fst (SA.main env w) with
    | Ok _ => List.length msgs = List.length rows
    | Throw _ =>
        (List.length msgs <= List.length rows <= List.length msgs + 1)%nat
    end.
Proof.
  destruct (SA.main env w) as [r w'] eqn:E.
  destruct (send_main_accounted env w r w' E) as (rows & msgs & [Hl Ho] & H).
  exists rows, msgs. cbn [fst snd]. split; [exact Hl |]. split; [exact Ho |].
  exact H.
Qed.

(** *** What makes a run throw *)

Lemma blamed_fault env n f :
  store_faults env n = Some f -> blamed env (StoreError (fault_error f)).
Proof. intros H. left. exists n, f. split; [exact H | reflexivity]. Qed.

Lemma healthy_not_blamed env e : healthy env -> ~ blamed env e.
Proof.
  intros [Hs Hc] [(n & f & Hf & _) | [(n & Hn & _) | (n & st & Hn & Hok & _)]].
  - rewrite Hs in Hf. discriminate.
  - destruct (Hc n) as (st & Hst & _). congruence.
  - destruct (Hc n) as (st' & Hst & Hok'). congruence.
Qed.

Lemma forEachWith_throws {A S} (P : Error -> Prop) (l : list A)
  (body : S -> A -> M S) :
  (forall s x w e w', body s x w = (Throw e, w') -> P e) ->
  forall s w e w', forEachWith l body s w = (Throw e, w') -> P e.
Proof.
  intros Hbody. induction l as [| x l IH]; intros s w e w' Hrun.
  - discriminate.
  - cbn [forEachWith] in Hrun. unfold bind in Hrun.
    destruct (body s x w) as [[s1 | e1] w1] eqn:Hb.
    + eapply IH. exact Hrun.
    + inversion Hrun; subst. eapply Hbody. exact Hb.
Qed.

Lemma telegramSend_blame env msg w e w' :
  ZA.telegramSend env msg w = (Throw e, w') -> blamed env e.
Proof.
  unfold ZA.telegramSend, bind.
  destruct (fetchSendMessage_cases env msg w)
    as [(st & Hc & Hok & ->) | [(st & Hc & Hok & ->) | (Hc & ->)]];
    rewrite ?Hok; intros H; inversion H; subst.
  - right. right. exists (requests w), st. repeat split; assumption.
  - right. left. exists (requests w). split; [assumption | reflexivity].
Qed.

Lemma zeus_notifyOnce_blame env row msg n w e w' :
  ZAS.notifyOnce env row msg n w = (Throw e, w') -> blamed env e.
Proof.
  destruct row as [tid ty date].
  unfold ZAS.notifyOnce, bind. cbn [treatment_id alert_type alert_date].
  rewrite ZAF.alreadyLogged_run.
  destruct (store_faults env (requests w)) as [f |] eqn:Hf.
  { intros H. inversion H; subst. eapply blamed_fault. exact Hf. }
  destruct (existsb _ (alert_log w)) eqn:E; cbn [negb]; [discriminate |].
  assert (Hnot : ~ In (mkAlertLog tid ty date) (alert_log w))
    by (intros Hin; apply logged_In in Hin; congruence).
  destruct (ZA.telegramSend env msg (next_request w)) as [[[] | e1] w1] eqn:Ht.
  - destruct (ZAF.zeus_telegramSend_cases env msg (next_request w))
      as [(st & _ & _ & Hr) | (e2 & _ & Hr)]; rewrite Hr in Ht;
      inversion Ht; subst.
    match goal with
    | |- context [ZA.insertLog env tid ty date ?w1] =>
        destruct (ZAF.insertLog_cases env tid ty date w1)
          as [(f & Hf' & ->) | [(_ & Hin & ->) | (_ & _ & ->)]]
    end.
    + intros H. inversion H; subst. eapply blamed_fault. exact Hf'.
    + contradiction.
    + discriminate.
  - intros H. inversion H; subst. eapply telegramSend_blame. exact Ht.
Qed.

Lemma forEachWith_throws_in {A S} (P : Error -> Prop) (l : list A)
  (body : S -> A -> M S) :
  (forall s x w e w', In x l -> body s x w = (Throw e, w') -> P e) ->
  forall s w e w', forEachWith l body s w = (Throw e, w') -> P e.
Proof.
  induction l as [| x l IH]; intros Hbody s w e w' Hrun.
  - discriminate.
  - cbn [forEachWith] in Hrun. unfold bind in Hrun.
    destruct (body s x w) as [[s1 | e1] w1] eqn:Hb.
    + eapply IH; [| exact Hrun].
      intros s0 x0 w0 e0 w0' Hin. apply Hbody. right. exact Hin.
    + inversion Hrun; subst. eapply Hbody; [left; reflexivity | exact Hb].
Qed.

(** A turn of the loop of the scheduled script throws what a collaborator
    made it throw, or the RangeError of a next date that is not valid. *)
Lemma zeus_processTreatment_blame env pet nowSP todayKey n t w e w' :
  ZA.processTreatment env pet nowSP todayKey n t w = (Throw e, w') ->
  blamed env e \/ (e = RangeError /\ noNextDate env t).
Proof.
  unfold ZA.processTreatment. unfold bind at 1.
  rewrite ZAF.getLastApplicationDate_run.
  destruct (store_faults env (requests w)) as [f |] eqn:Hf.
  { intros H. inversion H; subst. left. eapply blamed_fault. exact Hf. }
  destruct (lastApplication env (id t)) as [| lastAppliedOn rest] eqn:Hlast;
    cbn [hd_error]; [discriminate |].
  cbv zeta.
  destruct (nextValid env t lastAppliedOn) eqn:Hvalid.
  2: { intros H. right. split.
       - revert H. unfold nextValid in Hvalid.
         destruct (localValue env _) as [nextDate |]; [discriminate |].
         intros H. inversion H. reflexivity.
       - exists lastAppliedOn. rewrite Hlast. split; [reflexivity | exact Hvalid]. }
  clear Hvalid. next_date_cases env t lastAppliedOn.
  2: { intros H. right. split; [inversion H; reflexivity |].
       exists lastAppliedOn. rewrite Hlast. split; [reflexivity |].
       unfold nextValid. rewrite Enext. reflexivity. }
  intros H. left. revert H. unfold bind.
  match goal with
  | |- context [ZA.includes ?a ?d] => destruct (ZA.includes a d); set (days := d)
  end.
  - rewrite ZAF.upcomingAlert_notifyOnce.
    destruct (ZAS.notifyOnce env _ _ n (next_request w)) as [[n1 | e1] w1] eqn:Hu.
    + destruct (days <? 0); [| discriminate].
      rewrite ZAF.overdueAlert_notifyOnce. apply zeus_notifyOnce_blame.
    + intros H. inversion H; subst. eapply zeus_notifyOnce_blame. exact Hu.
  - unfold ret at 1. destruct (days <? 0); [| discriminate].
    rewrite ZAF.overdueAlert_notifyOnce. apply zeus_notifyOnce_blame.
Qed.

Lemma getOwnerPets_blame env w e w' :
  ZA.getOwnerPets env w = (Throw e, w') -> blamed env e.
Proof.
  unfold ZA.getOwnerPets, bind, selectMembersByRole. rewrite select_run.
  destruct (store_faults env (requests w)) as [f |] eqn:Hf.
  { intros H. inversion H; subst. eapply blamed_fault. exact Hf. }
  destruct (nodup string_dec _) as [| i ids]; [discriminate |].
  unfold selectPetsIn. rewrite select_run.
  destruct (store_faults env (requests (next_request w))) as [f |] eqn:Hf';
    [| discriminate].
  intros H. inversion H; subst. eapply blamed_fault. exact Hf'.
Qed.

Lemma zeus_main_blame env w e w' :
  ZA.main env w = (Throw e, w') ->
  blamed env e \/
  (e = RangeError /\
   exists t, In t (zeusTreatments env) /\ noNextDate env t).
Proof.
  unfold ZA.main. cbv zeta. unfold bind at 1.
  destruct (ZA.getOwnerPets env w) as [[owned | e0] w0] eqn:E0.
  - destruct (ZAF.getOwnerPets_cases env w _ w0 E0) as [_ [Ho | [e1 He1]]];
      [| discriminate].
    inversion Ho; subst owned. intros H.
    assert (H' : forEachWith (ZAS.ownerPets env)
                   (ZA.processPet env (toZone env (clock env))
                      (ZA.isoDateSP env (toZone env (clock env)))) 0%nat w0
                 = (Throw e, w'))
      by (destruct (ZAS.ownerPets env); [discriminate | exact H]).
    eapply (forEachWith_throws_in
              (fun e => blamed env e \/
                        (e = RangeError /\
                         exists t, In t (zeusTreatments env) /\
                                   noNextDate env t)));
      [| exact H'].
    intros n pet w1 e1 w1' Hpet. unfold ZA.processPet. unfold bind at 1.
    rewrite ZAF.getTreatmentsByPet_run.
    destruct (store_faults env (requests w1)) as [f |] eqn:Hf.
    { intros H1. inversion H1; subst. left. eapply blamed_fault. exact Hf. }
    apply (forEachWith_throws_in
             (fun e => blamed env e \/
                       (e = RangeError /\
                        exists t, In t (zeusTreatments env) /\
                                  noNextDate env t))).
    intros n2 t w2 e2 w2' Ht Hrun.
    destruct (zeus_processTreatment_blame _ _ _ _ _ _ _ _ _ Hrun)
      as [Hb | [-> Hno]]; [left; exact Hb | right].
    split; [reflexivity |]. exists t. split; [| exact Hno].
    unfold zeusTreatments. apply in_flat_map. exists pet.
    split; assumption.
  - intros H. inversion H; subst. left. eapply getOwnerPets_blame. exact E0.
Qed.

Lemma send_claimThenNotify_blame env row msg w e w' :
  SAS.claimThenNotify env row msg w = (Throw e, w') -> blamed env e.
Proof.
  destruct row as [tid ty date].
  unfold SAS.claimThenNotify, bind. cbn [treatment_id alert_type alert_date].
  destruct (SAF.alreadyLogged_cases env tid ty date w)
    as [(f & Hf & ->) | [(_ & Hin & ->) | (_ & Hn & ->)]]; cbn [negb].
  - intros H. inversion H; subst. eapply blamed_fault. exact Hf.
  - discriminate.
  - apply telegramSend_blame.
Qed.

Lemma send_processTreatment_blame env zeus nowSP todayISO t w e w' :
  SA.processTreatment env zeus nowSP todayISO t w = (Throw e, w') ->
  blamed env e.
Proof.
  unfold SA.processTreatment. unfold bind at 1.
  unfold selectLastApplication. rewrite select_run.
  destruct (store_faults env (requests w)) as [f |] eqn:Hf.
  { intros H. inversion H; subst. eapply blamed_fault. exact Hf. }
  destruct (lastApplication env (id t)) as [| lastAppliedOn rest];
    [discriminate |].
  cbv zeta. next_date_cases env t lastAppliedOn; [| discriminate].
  match goal with
  | |- context [(?d <? 0)] => destruct (d <? 0); set (days := d)
  end.
  - apply (send_claimThenNotify_blame env (SAS.overdueRow todayISO t)).
  - destruct (SA.includes (SA.resolveAlerts t) days); [| discriminate].
    apply (send_claimThenNotify_blame env (SAS.dueRow todayISO t days)).
Qed.

Lemma send_main_blame env w e w' :
  SA.main env w = (Throw e, w') ->
  blamed env e \/
  (e = PetNotFound /\
   filter (fun p => pet_name p =? "Zeus")%string (pets env) = []).
Proof.
  unfold SA.main. cbv zeta. unfold bind at 1.
  unfold selectPetsByName. rewrite select_run.
  destruct (store_faults env (requests w)) as [f |] eqn:Hf.
  { intros H. inversion H; subst. left. eapply blamed_fault. exact Hf. }
  destruct (filter _ (pets env)) as [| zeus others] eqn:Ez; cbn [firstn].
  { intros H. inversion H; subst. right. split; reflexivity. }
  unfold bind at 1. unfold selectTreatmentsByPet. rewrite select_run.
  destruct (store_faults env (requests (next_request w))) as [f |] eqn:Hf'.
  { intros H. inversion H; subst. left. eapply blamed_fault. exact Hf'. }
  rewrite forEach_forEachWith. intros H. left.
  eapply (forEachWith_throws (blamed env)); [| exact H].
  intros s t w1 e1 w1'. apply send_processTreatment_blame.
Qed.

(** X8. A run of the scheduled script that no other run overlaps throws only
    what a collaborator made it throw (the error of a fault that hit a
    request to the store, or a request to the channel that failed or was
    answered without success) or the RangeError of formatting a next date
    that is not valid, for a treatment it read.  scripts/send-alerts.js throws
    what a collaborator made it throw, or that no pet is named Zeus, and then
    before any treatment is read; it never throws for an invalid next
    date. *)
Theorem runs_throw_for_collaborators_or_dates (env : Env) (w : World) :
  match fst (ZA.main env w) with
  | Throw e =>
      blamed env e \/
      (e = RangeError /\
       exists t, In t (zeusTreatments env) /\ noNextDate env t)
  | Ok _ => True
  end /\
  match fst (SA.main env w) with
  | Throw e =>
      blamed env e \/
      (e = PetNotFound /\
       filter (fun p => pet_name p =? "Zeus")%string (pets env) = [] /\
       snd (SA.main env w) = next_request w)
  | Ok _ => True
  end.
Proof.
  split.
  - destruct (ZA.main env w) as [[n | e] w'] eqn:E; cbn [fst]; [exact I |].
    exact (zeus_main_blame env w e w' E).
  - destruct (SA.main env w) as [[u | e] w'] eqn:E; cbn [fst snd]; [exact I |].
    destruct (send_main_blame env w e w' E) as [Hb | [-> Hz]];
      [left; exact Hb | right].
    split; [reflexivity |]. split; [exact Hz |].
    revert E. unfold SA.main. cbv zeta. unfold bind at 1.
    unfold selectPetsByName. rewrite select_run, Hz. cbn [firstn].
    destruct (store_faults env (requests w)); intros H; inversion H;
      reflexivity.
Qed.

(** X9. With a store and a channel that work at every request, no other run
    writing to the alert log meanwhile, and a valid next date for every
    treatment it reads that has an application, a run of the scheduled script
    completes.  Afterwards the alert log holds, for
    every such treatment, the rows of its alerts under the key the script
    computes for today, which is the date in the zone of Sao Paulo of the
    clock already moved to that zone; and the run has delivered as many
    messages, and logged as many rows, as the count it reports.
    scripts/send-alerts.js completes as soon as a pet is named Zeus, and then
    holds the rows of its alerts under the Sao Paulo date of the clock. *)
Theorem healthy_run_completes (env : Env) (w : World) :
  healthy env ->
  (forall t, In t (zeusTreatments env) -> ~ noNextDate env t) ->
  (exists sentCount w',
     ZA.main env w = (Ok sentCount, w') /\
     (forall pet t row,
        In pet (ZAS.ownerPets env) ->
        In t (ZAS.treatmentsOf env (pet_id pet)) ->
        In row (ZAS.dueRows env (toZone env (clock env))
                  (localISODate (toZone env (toZone env (clock env)))) t) ->
        In row (alert_log w')) /\
     List.length (outbox w') = (List.length (outbox w) + sentCount)%nat /\
     List.length (alert_log w') = (List.length (alert_log w) + sentCount)%nat) /\
  (filter (fun p => pet_name p =? "Zeus")%string (pets env) <> [] ->
   exists w',
     SA.main env w = (Ok tt, w') /\
     (forall zeus others t row,
        filter (fun p => pet_name p =? "Zeus")%string (pets env)
        = zeus :: others ->
        In t (filter (fun t => treatment_pet_id t =? pet_id zeus)%string
                     (treatments env)) ->
        In row (SAS.dueRows env (toZone env (clock env))
                  (localISODate (toZone env (clock env))) t) ->
        In row (alert_log w'))).
Proof.
  intros Hh Hdates. split.
  - destruct (ZA.main env w) as [[n | e] w'] eqn:E.
    + exists n, w'. split; [reflexivity |].
      destruct (ZAF.zeus_main_claims env w (Ok n) w' E) as (_ & _ & Hall & _).
      split.
      * intros pet t row Hpet Ht Hrow. apply (Hall I).
        unfold ZAS.allDueRows. cbv zeta. apply in_flat_map. exists pet.
        split; [exact Hpet |]. apply in_flat_map. exists t.
        split; [exact Ht | exact Hrow].
      * destruct (zeus_main_accounted env w (Ok n) w' E)
          as (rows & msgs & [Hl Ho] & Hn & Hm).
        rewrite Hl, Ho, !length_app. lia.
    + exfalso. destruct (zeus_main_blame env w e w' E)
        as [Hb | (_ & t & Ht & Hno)].
      * eapply healthy_not_blamed; eassumption.
      * exact (Hdates t Ht Hno).
  - intros Hz. destruct (SA.main env w) as [[[] | e] w'] eqn:E.
    + exists w'. split; [reflexivity |].
      destruct (SAF.send_main_claims env w (Ok tt) w' E) as (_ & _ & Hall & _).
      intros zeus others t row Hzeus Ht Hrow. apply (Hall I).
      unfold SAS.allDueRows. cbv zeta. rewrite Hzeus. cbn [firstn].
      apply in_flat_map. exists t. split; [exact Ht | exact Hrow].
    + exfalso. destruct (send_main_blame env w e w' E) as [Hb | [_ Hz']].
      * eapply healthy_not_blamed; eassumption.
      * contradiction.
Qed.

Lemma healthy_utc_runner : healthy (utc_runner four_am delivering).
Proof.
  split; [intros n; reflexivity |].
  intros n. exists 200. split; reflexivity.
Defined.

Lemma utc_runner_dates_valid :
  forall t, In t (zeusTreatments (utc_runner four_am delivering)) ->
            ~ noNextDate (utc_runner four_am delivering) t.
Proof.
  intros t Hin (lastAppliedOn & Hlast & Hvalid).
  vm_compute in Hin. destruct Hin as [<- | [<- | []]].
  - vm_compute in Hlast. discriminate Hlast.
  - vm_compute in Hlast. inversion Hlast; subst lastAppliedOn.
    vm_compute in Hvalid. discriminate Hvalid.
Defined.

Lemma healthy_run_completes_witness :
  healthy (utc_runner four_am delivering) /\
  (forall t, In t (zeusTreatments (utc_runner four_am delivering)) ->
             ~ noNextDate (utc_runner four_am delivering) t) /\
  exists sentCount w',
    ZA.main (utc_runner four_am delivering) fresh = (Ok sentCount, w') /\
    (forall pet t row,
       In pet (ZAS.ownerPets (utc_runner four_am delivering)) ->
       In t (ZAS.treatmentsOf (utc_runner four_am delivering) (pet_id pet)) ->
       In row (ZAS.dueRows (utc_runner four_am delivering)
                 (toZone (utc_runner four_am delivering)
                         (clock (utc_runner four_am delivering)))
                 (localISODate
                    (toZone (utc_runner four_am delivering)
                       (toZone (utc_runner four_am delivering)
                               (clock (utc_runner four_am delivering))))) t) ->
       In row (alert_log w')) /\
    List.length (outbox w')
    = (List.length (outbox fresh) + sentCount)%nat /\
    List.length (alert_log w')
    = (List.length (alert_log fresh) + sentCount)%nat.
Proof.
  split; [exact healthy_utc_runner |].
  split; [exact utc_runner_dates_valid |].
  exact (proj1 (healthy_run_completes (utc_runner four_am delivering) fresh
                  healthy_utc_runner utc_runner_dates_valid)).
Defined.

(** *** One alert for a treatment *)

Lemma at_most_one_quiet w w' : same_records w w' -> at_most_one w w'.
Proof.
  intros H. exists [], []. split; [apply appended_nil; exact H |]. cbn. lia.
Qed.

Lemma at_most_one_after_request w w' :
  at_most_one (next_request w) w' -> at_most_one w w'.
Proof. intros H. exact H. Qed.

Lemma zeus_notifyOnce_at_most_one env row msg n w r w' :
  ZAS.notifyOnce env row msg n w = (r, w') -> at_most_one w w'.
Proof.
  intros H. apply ZAF.notifyOnce_outcome in H.
  destruct H as [w' Hin Hs | w' Hn Hl Ho | e w' Hs
                | e w' Hn He Hs | e w' Hn Hl Ho].
  - apply at_most_one_quiet. exact Hs.
  - exists [row], [msg]. split; [split; assumption |]. cbn. lia.
  - apply at_most_one_quiet. exact Hs.
  - apply at_most_one_quiet. exact Hs.
  - exists [], [msg]. split; [split; rewrite ?app_nil_r; assumption |].
    cbn. lia.
Qed.

Lemma send_claimThenNotify_at_most_one env row msg w r w' :
  SAS.claimThenNotify env row msg w = (r, w') -> at_most_one w w'.
Proof.
  intros H. apply SAF.claimThenNotify_outcome in H.
  destruct H as [w' Hin Hs | w' Hn Hl Ho | e w' Hs | e w' Hn He Hl Ho].
  - apply at_most_one_quiet. exact Hs.
  - exists [row], [msg]. split; [split; assumption |]. cbn. lia.
  - apply at_most_one_quiet. exact Hs.
  - exists [row], []. split; [split; rewrite ?app_nil_r; assumption |].
    cbn. lia.
Qed.

(** X10. One evaluation of a treatment adds at most one row to the alert log
    and delivers at most one message: in scripts/send-alerts.js always, since
    the overdue branch ends the turn, and in the scheduled script whenever no
    threshold of the treatment is negative, since then the upcoming and the
    overdue alert never fire together. *)
Theorem one_alert_per_treatment (env : Env) (t : TreatmentRow) (w : World) :
  ((forall x, In x (ZA.resolveAlerts t) -> 0 <= x) ->
   forall pet nowSP todayKey sentCount,
     at_most_one w (snd (ZA.processTreatment env pet nowSP todayKey
                           sentCount t w))) /\
  (forall zeus nowSP todayISO,
     at_most_one w (snd (SA.processTreatment env zeus nowSP todayISO t w))).
Proof.
  split.
  - intros Hpos pet nowSP todayKey n.
    unfold ZA.processTreatment. unfold bind at 1.
    rewrite ZAF.getLastApplicationDate_run.
    destruct (store_faults env (requests w)) as [f |].
    { apply at_most_one_quiet, same_records_next. }
    destruct (lastApplication env (id t)) as [| lastAppliedOn rest];
      cbn [hd_error].
    { apply at_most_one_quiet, same_records_next. }
    cbv zeta. next_date_cases env t lastAppliedOn.
    2: { apply at_most_one_quiet, same_records_next. }
    unfold bind.
    match goal with
    | |- context [ZA.includes ?a ?d] =>
        destruct (ZA.includes a d) eqn:Ei; set (days := d) in *
    end.
    + assert (Hd : (days <? 0) = false).
      { unfold ZA.includes in Ei. apply existsb_exists in Ei.
        destruct Ei as (x & Hx & Heq). apply Z.eqb_eq in Heq. subst x.
        apply Z.ltb_ge. apply Hpos. exact Hx. }
      rewrite Hd. rewrite ZAF.upcomingAlert_notifyOnce.
      destruct (ZAS.notifyOnce env _ _ n (next_request w))
        as [[n1 | e1] w1] eqn:Hu; cbn [snd];
        apply at_most_one_after_request;
        eapply zeus_notifyOnce_at_most_one; exact Hu.
    + unfold ret at 1. destruct (days <? 0).
      * rewrite ZAF.overdueAlert_notifyOnce.
        destruct (ZAS.notifyOnce env _ _ n (next_request w))
          as [r1 w1] eqn:Ho; cbn [snd].
        apply at_most_one_after_request.
        eapply zeus_notifyOnce_at_most_one; exact Ho.
      * apply at_most_one_quiet, same_records_next.
  - intros zeus nowSP todayISO.
    unfold SA.processTreatment. unfold bind at 1.
    unfold selectLastApplication. rewrite select_run.
    destruct (store_faults env (requests w)) as [f |].
    { apply at_most_one_quiet, same_records_next. }
    destruct (lastApplication env (id t)) as [| lastAppliedOn rest].
    { apply at_most_one_quiet, same_records_next. }
    cbv zeta. next_date_cases env t lastAppliedOn.
    2: { apply at_most_one_quiet, same_records_next. }
    match goal with
    | |- context [(?d <? 0)] => destruct (d <? 0); set (days := d)
    end.
    + match goal with
      | |- at_most_one w (snd (?m ?w1)) => destruct (m w1) as [r1 w2] eqn:Ho
      end. cbn [snd]. apply at_most_one_after_request.
      eapply (send_claimThenNotify_at_most_one env (SAS.overdueRow todayISO t)).
      exact Ho.
    + destruct (SA.includes (SA.resolveAlerts t) days).
      * match goal with
        | |- at_most_one w (snd (?m ?w1)) => destruct (m w1) as [r1 w2] eqn:Ho
        end. cbn [snd]. apply at_most_one_after_request.
        eapply (send_claimThenNotify_at_most_one env
                  (SAS.dueRow todayISO t days)).
        exact Ho.
      * apply at_most_one_quiet, same_records_next.
Qed.

Lemma one_alert_per_treatment_witness :
  (forall x, In x (ZA.resolveAlerts (vaccine None)) -> 0 <= x) /\
  at_most_one fresh
    (snd (ZA.processTreatment (household None delivering) (mkPet "p1" "Zeus")
            june_1_2024_noon (mkISO 2024 6 1) 0%nat (vaccine None) fresh)).
Proof.
  assert (H : forall x, In x (ZA.resolveAlerts (vaccine None)) -> 0 <= x).
  { intros x [<- | [<- | [<- | []]]]; discriminate. }
  split; [exact H |].
  exact (proj1 (one_alert_per_treatment (household None delivering)
                  (vaccine None) fresh) H
           (mkPet "p1" "Zeus") june_1_2024_noon (mkISO 2024 6 1) 0%nat).
Defined.

(** *** Instances of the lemmas on alert types and failed deliveries *)



Lemma refused_is_delivery_failure : delivery_failure (TelegramError 500).
Proof. right. exists 500. split; reflexivity. Defined.

Lemma zeus_failed_delivery_not_logged_witness :
  delivery_failure (TelegramError 500) /\
  exists row,
    In row (ZAS.dueRows (household None refusing) june_1_2024_noon
              (mkISO 2024 6 1) (vaccine None)) /\
    ~ In row (alert_log fresh) /\
    ~ In row (alert_log (mkWorld [] [] 3)).
Proof.
  split; [exact refused_is_delivery_failure |].
  refine (AlertRunner.zeus_failed_delivery_not_logged
            (household None refusing) (mkPet "p1" "Zeus") june_1_2024_noon
            (mkISO 2024 6 1) 0%nat (vaccine None) fresh (TelegramError 500)
            (mkWorld [] [] 3) _ refused_is_delivery_failure).
  vm_compute. reflexivity.
Defined.

End RunnerExtras.

(* ================================================================== *)
(** ** The agenda page *)

Module AgendaFacts.
Import ES DateFns DateFnsCalendar Store Agenda AgendaSpec.
Import ESFacts DateFnsFacts StoreFacts.

Lemma Status_eqb_spec a b : reflect (a = b) (Status_eqb a b).
Proof. destruct a, b; constructor; congruence. Qed.


Lemma agendaItem_history today t apps :
  (lastAppliedOn (agendaItem today t apps) = None <-> apps = []) /\
  (daysToNext (agendaItem today t apps) = None <-> apps = []) /\
  (nextDate (agendaItem today t apps) = None <-> apps = []).
Proof.
  unfold agendaItem. destruct apps as [| row rest]; cbn;
    repeat split; intros; congruence.
Qed.



(** *** The events of a day *)

Lemma mapGet_mapSet_same m k e : mapGet (mapSet m k e) k = Some e.
Proof.
  induction m as [| [k' e'] m IH]; cbn.
  - destruct (ISODate_eqb_spec k k); congruence.
  - destruct (ISODate_eqb_spec k' k) as [-> | Hne]; cbn.
    + destruct (ISODate_eqb_spec k k); congruence.
    + destruct (ISODate_eqb_spec k' k); [contradiction | exact IH].
Qed.

Lemma mapGet_mapSet_other m k e k' :
  k <> k' -> mapGet (mapSet m k e) k' = mapGet m k'.
Proof.
  intros Hne. induction m as [| [k0 e0] m IH]; cbn.
  - destruct (ISODate_eqb_spec k k'); [contradiction | reflexivity].
  - destruct (ISODate_eqb_spec k0 k) as [-> | Hne0]; cbn.
    + destruct (ISODate_eqb_spec k k'); [contradiction | reflexivity].
    + destruct (ISODate_eqb_spec k0 k'); [reflexivity | exact IH].
Qed.

Lemma keys_mapSet m k e :
  keys (mapSet m k e) = if existsb (ISODate_eqb k) (keys m)
                        then keys m else keys m ++ [k].
Proof.
  unfold keys. induction m as [| [k0 e0] m IH]; cbn; [reflexivity |].
  destruct (ISODate_eqb_spec k0 k) as [-> | Hne]; cbn.
  - destruct (ISODate_eqb_spec k k); [reflexivity | congruence].
  - destruct (ISODate_eqb_spec k k0); [congruence |]. cbn.
    rewrite IH. destruct (existsb _ _); reflexivity.
Qed.

Lemma existsb_key_In k l : existsb (ISODate_eqb k) l = true <-> In k l.
Proof.
  rewrite existsb_exists. split.
  - intros (x & Hx & E). destruct (ISODate_eqb_spec k x); [subst; exact Hx | discriminate].
  - intros H. exists k. split; [exact H |].
    destruct (ISODate_eqb_spec k k); congruence.
Qed.

Lemma NoDup_keys_mapSet m k e : NoDup (keys m) -> NoDup (keys (mapSet m k e)).
Proof.
  intros H. rewrite keys_mapSet.
  destruct (existsb (ISODate_eqb k) (keys m)) eqn:E; [exact H |].
  apply NoDup_app; [exact H | constructor; [intros [] | constructor] |].
  intros x Hx [<- | []]. apply existsb_key_In in Hx. congruence.
Qed.

Lemma keys_addEvent_NoDup m it : NoDup (keys m) -> NoDup (keys (addEvent m it)).
Proof.
  intros H. unfold addEvent. destruct (nextDate it); [| exact H].
  apply NoDup_keys_mapSet. exact H.
Qed.

Lemma keys_build_NoDup its m :
  NoDup (keys m) -> NoDup (keys (fold_left addEvent its m)).
Proof.
  revert m. induction its as [| it its IH]; intros m H; [exact H |].
  cbn [fold_left]. apply IH, keys_addEvent_NoDup, H.
Qed.

(** The entry a group of items has in the map: none for no item. *)
Lemma entryOf_snoc group it :
  entryOf (group ++ [it]) =
  mkEntry (group ++ [it])
          (overdueCount (entryOf group)
           + (if hasStatus Schedule.overdue it then 1 else 0))
          (upcomingCount (entryOf group)
           + (if hasStatus Schedule.upcoming it then 1 else 0))
          (total (entryOf group) + 1).
Proof.
  unfold entryOf, count. cbn [overdueCount upcomingCount total].
  rewrite !filter_app, !length_app. cbn [filter].
  destruct (hasStatus Schedule.overdue it), (hasStatus Schedule.upcoming it);
    cbn [List.length]; f_equal; lia.
Qed.

Lemma addEvent_get m it group_of :
  (forall k, mapGet m k =
             match group_of k with
             | [] => None
             | g => Some (entryOf g)
             end) ->
  forall k, mapGet (addEvent m it) k =
            match group_of k ++ (if dueOn k it then [it] else []) with
            | [] => None
            | g => Some (entryOf g)
            end.
Proof.
  intros Hm k. unfold addEvent, dueOn.
  destruct (nextDate it) as [next |]; [| rewrite app_nil_r; apply Hm].
  cbv zeta. destruct (ISODate_eqb_spec (isoDateLocal next) k) as [<- | Hne].
  - rewrite mapGet_mapSet_same.
    assert (He : match mapGet m (isoDateLocal next) with
                 | Some e => e
                 | None => mkEntry [] 0 0 0
                 end = entryOf (group_of (isoDateLocal next))).
    { rewrite Hm. destruct (group_of (isoDateLocal next)); reflexivity. }
    rewrite He.
    assert (Hne' : forall (a : AgendaItem) l, l ++ [a] <> [])
      by (intros a l; destruct l; discriminate).
    destruct (group_of (isoDateLocal next) ++ [it]) as [| x g] eqn:Eg;
      [exfalso; eapply Hne'; exact Eg |].
    rewrite <- Eg. f_equal. rewrite entryOf_snoc.
    unfold hasStatus.
    destruct (daysToNext it) as [d |]; cbn [items overdueCount upcomingCount total].
    + destruct (Status_eqb_spec (Schedule.statusFromDays d) Schedule.overdue)
        as [E | E];
        destruct (Status_eqb_spec (Schedule.statusFromDays d) Schedule.upcoming)
          as [E' | E'];
        cbn [items overdueCount upcomingCount total];
        try congruence; f_equal; lia.
    + f_equal; lia.
  - rewrite mapGet_mapSet_other by exact Hne.
    rewrite app_nil_r. apply Hm.
Qed.

Lemma build_get its :
  forall m group_of,
    (forall k, mapGet m k =
               match group_of k with
               | [] => None
               | g => Some (entryOf g)
               end) ->
    forall k, mapGet (fold_left addEvent its m) k =
              match group_of k ++ filter (dueOn k) its with
              | [] => None
              | g => Some (entryOf g)
              end.
Proof.
  induction its as [| it its IH]; intros m group_of Hm k.
  - cbn. rewrite app_nil_r. apply Hm.
  - cbn [fold_left filter].
    rewrite (IH (addEvent m it)
                (fun k => group_of k ++ (if dueOn k it then [it] else []))
                (addEvent_get m it group_of Hm) k).
    rewrite <- app_assoc. destruct (dueOn k it); reflexivity.
Qed.

Lemma resort_get (f : DayEntry -> DayEntry) :
  forall suf pre,
    NoDup (keys (pre ++ suf)) ->
    fold_left (fun m' ke => mapSet m' (fst ke) (f (snd ke))) suf
              (map (fun ke => (fst ke, f (snd ke))) pre ++ suf)
    = map (fun ke => (fst ke, f (snd ke))) (pre ++ suf).
Proof.
  induction suf as [| [k e] suf IH]; intros pre Hnd.
  - cbn. rewrite !app_nil_r. reflexivity.
  - cbn [fold_left fst snd].
    assert (Hset : mapSet (map (fun ke => (fst ke, f (snd ke))) pre
                           ++ (k, e) :: suf) k (f e)
                   = map (fun ke => (fst ke, f (snd ke))) (pre ++ [(k, e)])
                     ++ suf).
    { assert (Hk : ~ In k (keys pre)).
      { unfold keys in Hnd. rewrite map_app in Hnd. cbn in Hnd.
        apply NoDup_remove_2 in Hnd. intros Hin. apply Hnd.
        apply in_or_app. left. exact Hin. }
      clear Hnd IH. induction pre as [| [k0 e0] pre IHp]; cbn.
      - destruct (ISODate_eqb_spec k k); congruence.
      - destruct (ISODate_eqb_spec k0 k) as [-> | Hne].
        + exfalso. apply Hk. left. reflexivity.
        + f_equal. apply IHp. intros Hin. apply Hk. right. exact Hin. }
    rewrite Hset.
    replace (pre ++ (k, e) :: suf) with ((pre ++ [(k, e)]) ++ suf)
      by (rewrite <- app_assoc; reflexivity).
    apply IH. rewrite <- app_assoc. exact Hnd.
Qed.

Lemma mapGet_map (f : DayEntry -> DayEntry) m k :
  mapGet (map (fun ke => (fst ke, f (snd ke))) m) k = option_map f (mapGet m k).
Proof.
  induction m as [| [k0 e0] m IH]; cbn; [reflexivity |].
  destruct (ISODate_eqb k0 k); [reflexivity | exact IH].
Qed.

Lemma eventsByDay_get byName its key :
  mapGet (eventsByDay byName its) key =
  match filter (dueOn key) its with
  | [] => None
  | group => Some (sortEntry byName (entryOf group))
  end.
Proof.
  unfold eventsByDay. cbv zeta.
  set (m := fold_left addEvent its []).
  assert (Hnd : NoDup (keys m)) by (apply keys_build_NoDup; constructor).
  pose proof (resort_get (sortEntry byName) m [] Hnd) as Hre.
  cbn [map app] in Hre. unfold sortEntry in Hre at 1.
  unfold sortEntry at 1.
  match goal with
  | |- mapGet ?x key = _ =>
      match type of Hre with ?y = _ => change x with y end
  end.
  rewrite Hre, mapGet_map. unfold m.
  rewrite (build_get its [] (fun _ => []) (fun _ => eq_refl) key).
  cbn [app]. destruct (filter (dueOn key) its); reflexivity.
Qed.

(** *** The order of the items of a day *)

Lemma insertByName_perm cmp x l : Permutation (insertByName cmp x l) (x :: l).
Proof.
  induction l as [| y rest IH]; cbn [insertByName]; [reflexivity |].
  destruct (cmp (treatmentName x) (treatmentName y) <=? 0); [reflexivity |].
  rewrite IH. apply perm_swap.
Qed.

Lemma sortByName_perm cmp l : Permutation (sortByName cmp l) l.
Proof.
  induction l as [| x rest IH]; cbn [sortByName fold_right]; [reflexivity |].
  rewrite insertByName_perm. apply perm_skip. exact IH.
Qed.

Lemma consistent_below cmp a b : consistent cmp -> 0 < cmp a b -> cmp b a <= 0.
Proof. intros [Hsgn _] H. specialize (Hsgn a b). lia. Qed.

Lemma insertByName_sorted cmp x l :
  consistent cmp ->
  StronglySorted (inNameOrder cmp) l ->
  StronglySorted (inNameOrder cmp) (insertByName cmp x l).
Proof.
  intros Hc. induction 1 as [| y rest Hs IH Hall]; cbn [insertByName].
  - constructor; constructor.
  - destruct (Z.leb_spec (cmp (treatmentName x) (treatmentName y)) 0)
      as [Hle | Hgt].
    + constructor; [constructor; assumption |].
      constructor; [exact Hle |].
      eapply Forall_impl; [| exact Hall].
      intros z Hz. unfold inNameOrder in *.
      exact (proj2 Hc _ _ _ Hle Hz).
    + constructor; [exact IH |].
      apply Forall_forall. intros z Hz.
      apply (Permutation_in _ (insertByName_perm cmp x rest)) in Hz.
      destruct Hz as [<- | Hz].
      * unfold inNameOrder. apply consistent_below; assumption.
      * rewrite Forall_forall in Hall. apply Hall. exact Hz.
Qed.

Lemma sortByName_sorted cmp l :
  consistent cmp -> StronglySorted (inNameOrder cmp) (sortByName cmp l).
Proof.
  intros Hc. induction l as [| x rest IH]; cbn [sortByName fold_right];
    [constructor | apply insertByName_sorted; assumption].
Qed.

Lemma insertByName_stable cmp name x l :
  consistent cmp ->
  filter (sameName cmp name) (insertByName cmp x l) =
  filter (sameName cmp name) (x :: l).
Proof.
  intros Hc. induction l as [| y rest IH]; cbn [insertByName]; [reflexivity |].
  destruct (Z.leb_spec (cmp (treatmentName x) (treatmentName y)) 0)
    as [Hle | Hgt]; [reflexivity |].
  cbn [filter] in *. rewrite IH.
  destruct (sameName cmp name y) eqn:Ey, (sameName cmp name x) eqn:Ex;
    try reflexivity.
  exfalso. unfold sameName in Ex, Ey.
  apply Z.eqb_eq in Ex, Ey.
  assert (Hny : cmp name (treatmentName y) <= 0).
  { pose proof (proj1 Hc (treatmentName y) name) as Hs.
    rewrite Ey in Hs. cbn in Hs. lia. }
  assert (Hxn : cmp (treatmentName x) name <= 0) by lia.
  pose proof (proj2 Hc _ _ _ Hxn Hny). lia.
Qed.

Lemma sortByName_stable cmp name l :
  consistent cmp ->
  filter (sameName cmp name) (sortByName cmp l) = filter (sameName cmp name) l.
Proof.
  intros Hc. induction l as [| x rest IH]; cbn [sortByName fold_right];
    [reflexivity |].
  rewrite insertByName_stable by exact Hc. cbn [filter].
  change (fold_right (insertByName cmp) [] rest) with (sortByName cmp rest).
  rewrite IH. reflexivity.
Qed.

(** The order of the codes of the characters is a consistent comparison. *)
Lemma ascii_compare_N a b :
  Ascii.compare a b = N.compare (N_of_ascii a) (N_of_ascii b).
Proof. reflexivity. Qed.

Lemma string_compare_trans a :
  forall b c, String.compare a b <> Gt -> String.compare b c <> Gt ->
              String.compare a c <> Gt.
Proof.
  induction a as [| x a IH]; intros [| y b] [| z c]; cbn [String.compare];
    try congruence.
  rewrite !ascii_compare_N.
  destruct (N.compare_spec (N_of_ascii x) (N_of_ascii y)) as [Exy | Lxy | Gxy];
    destruct (N.compare_spec (N_of_ascii y) (N_of_ascii z)) as [Eyz | Lyz | Gyz];
    destruct (N.compare_spec (N_of_ascii x) (N_of_ascii z)) as [Exz | Lxz | Gxz];
    try congruence; try lia; try apply IH.
Qed.

Lemma codeUnitCompare_consistent : consistent Scenario.codeUnitCompare.
Proof.
  split.
  - intros a b. unfold Scenario.codeUnitCompare.
    rewrite (String.compare_antisym b a).
    destruct (String.compare a b); reflexivity.
  - intros a b c. unfold Scenario.codeUnitCompare. intros Hab Hbc.
    pose proof (string_compare_trans a b c) as H.
    destruct (String.compare a b), (String.compare b c),
      (String.compare a c); try lia; exfalso; apply H; congruence.
Qed.

(** X12. [eventsByDay] groups the items by the day they are due: a day has
    an entry exactly when an item is due on it, and then the entry holds the
    items due that day, sorted by name, their number, and the numbers of
    overdue and upcoming items among them; items with no next date are in no
    entry.  The sort is the stable sort with the comparison
    [a.treatmentName.localeCompare(b.treatmentName)]: for a consistent
    [localeCompare] the sorted items are the items of the day, no name
    compares above a later one, and items whose names compare equal keep the
    order of the agenda. *)
Theorem eventsByDay_groups (localeCompare : string -> string -> Z)
  (its : list AgendaItem) (key : ISODate) :
  consistent localeCompare ->
  mapGet (eventsByDay (sortByName localeCompare) its) key =
  match filter (dueOn key) its with
  | [] => None
  | group =>
      Some (mkEntry (sortByName localeCompare group)
                    (Z.of_nat (List.length
                                 (filter (hasStatus Schedule.overdue) group)))
                    (Z.of_nat (List.length
                                 (filter (hasStatus Schedule.upcoming) group)))
                    (Z.of_nat (List.length group)))
  end /\
  forall group,
    Permutation (sortByName localeCompare group) group /\
    StronglySorted (inNameOrder localeCompare)
                   (sortByName localeCompare group) /\
    forall name,
      filter (sameName localeCompare name) (sortByName localeCompare group) =
      filter (sameName localeCompare name) group.
Proof.
  intros Hc. split.
  - rewrite eventsByDay_get. destruct (filter (dueOn key) its); reflexivity.
  - intros group. split; [apply sortByName_perm |].
    split; [apply sortByName_sorted; exact Hc |].
    intros name. apply sortByName_stable. exact Hc.
Qed.

Lemma eventsByDay_groups_witness :
  consistent Scenario.codeUnitCompare /\
  mapGet (eventsByDay (sortByName Scenario.codeUnitCompare)
            [agendaItem Scenario.june_1_2024_noon (Scenario.vaccine None)
               [mkISO 2024 1 1];
             agendaItem Scenario.june_1_2024_noon Scenario.dewormer [];
             agendaItem Scenario.june_1_2024_noon Scenario.tick_collar
               [mkISO 2024 1 1]])
         (mkISO 2024 7 1) =
  Some (mkEntry
          [agendaItem Scenario.june_1_2024_noon Scenario.tick_collar
             [mkISO 2024 1 1];
           agendaItem Scenario.june_1_2024_noon (Scenario.vaccine None)
             [mkISO 2024 1 1]]
          0 2 2).
Proof.
  split; [exact codeUnitCompare_consistent |].
  rewrite (proj1 (eventsByDay_groups Scenario.codeUnitCompare
                    [agendaItem Scenario.june_1_2024_noon
                       (Scenario.vaccine None) [mkISO 2024 1 1];
                     agendaItem Scenario.june_1_2024_noon Scenario.dewormer [];
                     agendaItem Scenario.june_1_2024_noon Scenario.tick_collar
                       [mkISO 2024 1 1]]
                    (mkISO 2024 7 1) codeUnitCompare_consistent)).
  vm_compute. reflexivity.
Defined.

Lemma isoDateLocal_Day a b : isoDateLocal a = isoDateLocal b -> Day a = Day b.
Proof.
  unfold isoDateLocal, getFullYear, getMonth, getDate. intros H.
  inversion H as [[Hy Hm Hd]].
  pose proof (MakeDay_of_civil a 0) as Ha.
  pose proof (MakeDay_of_civil b 0) as Hb.
  rewrite !Z.add_0_r in Ha, Hb.
  assert (Hm' : MonthFromTime a = MonthFromTime b) by lia.
  rewrite <- Ha, <- Hb, Hy, Hm', Hd. reflexivity.
Qed.

Lemma filter_all_or_none {A} (f : A -> bool) (l : list A) :
  (forall x y, In x l -> In y l -> f x = f y) ->
  filter f l = l \/ filter f l = [].
Proof.
  induction l as [| a l IH]; intros H; [left; reflexivity |].
  cbn [filter].
  assert (Hl : forall x, In x l -> f x = f a)
    by (intros x Hx; apply H; [right; exact Hx | left; reflexivity]).
  destruct (f a) eqn:Ea.
  - left. f_equal. apply forallb_filter_id. apply forallb_forall.
    intros x Hx. apply Hl. exact Hx.
  - right. destruct IH as [IH | IH];
      [intros x y Hx Hy; apply H; right; assumption | | exact IH].
    destruct l as [| b l]; [reflexivity |].
    rewrite <- IH. cbn [filter]. rewrite (Hl b (or_introl eq_refl)).
    cbn [filter] in IH. rewrite (Hl b (or_introl eq_refl)) in IH.
    exfalso.
    assert (Hlen : (List.length (filter f l) <= List.length l)%nat)
      by apply filter_length_le.
    rewrite IH in Hlen. cbn in Hlen. lia.
Qed.

(** X13. On one day of the calendar the items the loader built all have the
    same status, since they share their day offset: the overdue count of a
    day is zero or the total of the day, so is the upcoming count, and the
    two are never both positive. *)
Theorem day_has_one_status (today : Date)
  (byName : list AgendaItem -> list AgendaItem) (its : list AgendaItem)
  (key : ISODate) :
  (forall it, In it its -> exists t apps, it = agendaItem today t apps) ->
  match mapGet (eventsByDay byName its) key with
  | Some e =>
      (overdueCount e = 0 \/ overdueCount e = total e) /\
      (upcomingCount e = 0 \/ upcomingCount e = total e) /\
      (overdueCount e = 0 \/ upcomingCount e = 0) /\
      0 < total e
  | None => True
  end.
Proof.
  intros Hbuilt. rewrite eventsByDay_get.
  set (group := filter (dueOn key) its).
  assert (Hsame : forall x y, In x group -> In y group ->
                              daysToNext x = daysToNext y).
  { intros x y Hx Hy. apply filter_In in Hx, Hy.
    destruct Hx as [Hx Dx], Hy as [Hy Dy].
    destruct (Hbuilt x Hx) as (tx & ax & ->).
    destruct (Hbuilt y Hy) as (ty & ay & ->).
    unfold dueOn, agendaItem in *.
    destruct ax as [| rx ax]; [discriminate |].
    destruct ay as [| ry ay]; [discriminate |].
    cbv zeta in *. cbn [nextDate daysToNext] in *.
    destruct (ISODate_eqb_spec (isoDateLocal (Schedule.calcNextDate
                (parseLocalMidnight rx) (interval_value tx)
                (intervalUnit (interval_unit tx)))) key) as [Ex |];
      [| discriminate].
    destruct (ISODate_eqb_spec (isoDateLocal (Schedule.calcNextDate
                (parseLocalMidnight ry) (interval_value ty)
                (intervalUnit (interval_unit ty)))) key) as [Ey |];
      [| discriminate].
    f_equal. unfold Schedule.daysToNext.
    rewrite !differenceInCalendarDays_spec.
    rewrite (isoDateLocal_Day _ _ (eq_trans Ex (eq_sym Ey))). reflexivity. }
  assert (Hst : forall st x y, In x group -> In y group ->
                               hasStatus st x = hasStatus st y).
  { intros st x y Hx Hy. unfold hasStatus. rewrite (Hsame x y Hx Hy).
    reflexivity. }
  destruct group as [| x g] eqn:Eg; [exact I |]. rewrite <- Eg in *.
  unfold sortEntry, entryOf, count.
  cbn [overdueCount upcomingCount total].
  assert (Hlen : (0 < List.length group)%nat) by (rewrite Eg; cbn; lia).
  destruct (filter_all_or_none (hasStatus Schedule.overdue) group
              (Hst Schedule.overdue)) as [Ho | Ho];
    destruct (filter_all_or_none (hasStatus Schedule.upcoming) group
                (Hst Schedule.upcoming)) as [Hu | Hu];
    rewrite ?Ho, ?Hu; cbn [List.length]; repeat split; try lia; auto.
  exfalso.
  assert (Hx : In x group) by (rewrite Eg; left; reflexivity).
  assert (H1 : hasStatus Schedule.overdue x = true)
    by (rewrite <- Ho in Hx; apply filter_In in Hx; tauto).
  assert (H2 : hasStatus Schedule.upcoming x = true)
    by (rewrite <- Hu in Hx; apply filter_In in Hx; tauto).
  unfold hasStatus in H1, H2. destruct (daysToNext x); [| discriminate].
  destruct (Schedule.statusFromDays z); discriminate.
Qed.

Lemma day_has_one_status_witness :
  (forall it,
     In it [agendaItem Scenario.june_1_2024_noon (Scenario.vaccine None)
              [mkISO 2024 1 1]] ->
     exists t apps, it = agendaItem Scenario.june_1_2024_noon t apps) /\
  match mapGet (eventsByDay (fun l => l)
                  [agendaItem Scenario.june_1_2024_noon (Scenario.vaccine None)
                     [mkISO 2024 1 1]])
               (mkISO 2024 7 1) with
  | Some e =>
      (overdueCount e = 0 \/ overdueCount e = total e) /\
      (upcomingCount e = 0 \/ upcomingCount e = total e) /\
      (overdueCount e = 0 \/ upcomingCount e = 0) /\
      0 < total e
  | None => True
  end.
Proof.
  assert (H : forall it,
            In it [agendaItem Scenario.june_1_2024_noon (Scenario.vaccine None)
                     [mkISO 2024 1 1]] ->
            exists t apps, it = agendaItem Scenario.june_1_2024_noon t apps).
  { intros it [<- | []]. exists (Scenario.vaccine None), [mkISO 2024 1 1].
    reflexivity. }
  split; [exact H |].
  exact (day_has_one_status Scenario.june_1_2024_noon (fun l => l) _
           (mkISO 2024 7 1) H).
Defined.

(** *** The grid of the month *)

Lemma Day_setDate t d : Day (setDate t d) = Day t + (d - getDate t).
Proof.
  unfold setDate, getDate.
  rewrite Day_MakeDate by apply TimeWithinDay_range.
  replace d with (DateFromTime t + (d - DateFromTime t)) at 1 by lia.
  apply MakeDay_of_civil.
Qed.

Lemma Day_setHours t h m sec ms :
  0 <= MakeTime h m sec ms < msPerDay -> Day (setHours t h m sec ms) = Day t.
Proof. intros H. unfold setHours. apply Day_MakeDate. exact H. Qed.


Lemma start_of_day_in_day : 0 <= MakeTime 0 0 0 0 < msPerDay.
Proof. unfold MakeTime, msPerDay. lia. Qed.

Lemma Day_startOfMonth c : Day (startOfMonth c) = Day c - (getDate c - 1).
Proof.
  unfold startOfMonth.
  rewrite Day_setHours by apply start_of_day_in_day.
  rewrite Day_setDate. lia.
Qed.









Lemma gridStart_midnight c : gridStart c = Day (gridStart c) * msPerDay.
Proof.
  unfold gridStart, startOfWeek. cbv zeta.
  generalize (setDate (startOfMonth c)
                (getDate (startOfMonth c)
                 - ((if getDay (startOfMonth c) <? 1 then 7 else 0)
                    + getDay (startOfMonth c) - 1))).
  intros t. rewrite Day_setHours by apply start_of_day_in_day.
  unfold setHours, MakeDate, MakeTime. lia.
Qed.


Lemma same_month_day x c :
  isSameMonth x c = true ->
  Day x = Day c + (getDate x - getDate c) /\
  1 <= getDate x <= daysInMonth (getFullYear c) (getMonth c).
Proof.
  intros Hx. unfold isSameMonth in Hx.
  apply andb_true_iff in Hx. destruct Hx as [Hy Hm].
  apply Z.eqb_eq in Hy, Hm.
  pose proof (DateFromTime_range x) as HDx.
  unfold getFullYear, getMonth, getDate in *.
  rewrite Hy, Hm in HDx. split; [| exact HDx].
  pose proof (MakeDay_of_civil x 0) as Ex.
  pose proof (MakeDay_of_civil c (DateFromTime x - DateFromTime c)) as Ec.
  rewrite Hy, Hm in Ex.
  replace (DateFromTime c + (DateFromTime x - DateFromTime c))
    with (DateFromTime x + 0) in Ec by lia.
  rewrite Ex in Ec. lia.
Qed.


Lemma day_in_month x c k :
  Day x = Day c + (k - getDate c) ->
  1 <= k <= daysInMonth (getFullYear c) (getMonth c) ->
  isSameMonth x c = true /\ getDate x = k.
Proof.
  unfold getFullYear, getMonth, getDate, isSameMonth. intros Hx Hk.
  pose proof (MakeDay_of_civil c (k - DateFromTime c)) as Hc.
  replace (DateFromTime c + (k - DateFromTime c)) with k in Hc by lia.
  rewrite <- Hx in Hc. symmetry in Hc.
  destruct (civil_of_MakeDay x _ _ k (MonthFromTime_range c) Hk Hc)
    as (Hy & Hm & Hd).
  unfold getFullYear, getMonth. rewrite Hy, Hm, !Z.eqb_refl.
  split; [reflexivity | exact Hd].
Qed.

Lemma Day_cellAt c i : Day (cellAt c i) = Day (gridStart c) + Z.of_nat i.
Proof.
  unfold cellAt. pose proof (gridStart_midnight c) as H.
  revert H. generalize (gridStart c). intros g H.
  unfold Day, msPerDay in *. lia.
Qed.

(** X20. A cell of the grid is shown as a day of the month exactly when it
    is one of the consecutive cells that start after the leading ones, as
    many as the month has days, and it then carries the day of the month of
    its position; the selected day is marked in the cell of its own day and
    in no other. *)
Theorem calendar_cells_of_month (calMonth selectedDay : Date) (i : nat) :
  inMonth (cellAt calMonth i) calMonth =
  (leadingCells calMonth <=? Z.of_nat i) &&
  (Z.of_nat i <? leadingCells calMonth
                 + daysInMonth (getFullYear calMonth) (getMonth calMonth)) /\
  (inMonth (cellAt calMonth i) calMonth = true ->
   getDate (cellAt calMonth i) = Z.of_nat i - leadingCells calMonth + 1) /\
  (isSelected (cellAt calMonth i) selectedDay = true <->
   Day selectedDay - Day (gridStart calMonth) = Z.of_nat i).
Proof.
  pose proof (Day_cellAt calMonth i) as Hcell.
  pose proof (Day_startOfMonth calMonth) as Hsm.
  pose proof (daysInMonth_pos (getFullYear calMonth) (getMonth calMonth))
    as Hdim.
  unfold inMonth, isSelected, leadingCells. rewrite Hsm.
  assert (Hin : forall k,
             Z.of_nat i = Day calMonth - (getDate calMonth - 1)
                          - Day (gridStart calMonth) + (k - 1) ->
             1 <= k <= daysInMonth (getFullYear calMonth) (getMonth calMonth) ->
             isSameMonth (cellAt calMonth i) calMonth = true /\
             getDate (cellAt calMonth i) = k)
    by (intros k Hk Hr; apply day_in_month; [lia | exact Hr]).
  split; [| split].
  - destruct (isSameMonth (cellAt calMonth i) calMonth) eqn:E.
    + destruct (same_month_day _ _ E) as [Hd Hr]. symmetry.
      apply andb_true_iff. split; [apply Z.leb_le | apply Z.ltb_lt]; lia.
    + symmetry. apply andb_false_iff.
      destruct (Z.leb_spec (Day calMonth - (getDate calMonth - 1)
                            - Day (gridStart calMonth)) (Z.of_nat i))
        as [Hle | Hlt]; [| left; reflexivity].
      right. apply Z.ltb_ge.
      destruct (Z.le_gt_cases
                  (Day calMonth - (getDate calMonth - 1)
                   - Day (gridStart calMonth)
                   + daysInMonth (getFullYear calMonth) (getMonth calMonth))
                  (Z.of_nat i)) as [Hge | Hlt]; [exact Hge | exfalso].
      destruct (Hin (Z.of_nat i
                     - (Day calMonth - (getDate calMonth - 1)
                        - Day (gridStart calMonth)) + 1)
                  ltac:(lia) ltac:(lia)) as [Hs _].
      congruence.
  - intros E. destruct (same_month_day _ _ E) as [Hd Hr]. lia.
  - unfold isSameDay, startOfDay, setHours0. rewrite Z.eqb_eq.
    unfold MakeDate, msPerDay. lia.
Qed.





End AgendaFacts.
